(** * Rackula: layout geometry, colour math, port packing and id generation

    A shallow embedding of the pure computations of Rackula: the two
    versions of scripts/isometric-poc.ts (colour shading and the rack
    view), the port layout algorithm recommended by the spike #248
    pattern analysis, and generateId of the device utilities; and, from
    their specification, the placement validator and the adaptive text
    fitter.  The properties stated about them follow the definitions.

    Further parts cover options A and B of the pattern analysis,
    getDeviceDisplayName, lib/utils/buildTime.ts, the placement store,
    renderLegend and the data generators of
    scripts/performance-benchmark.ts.

    JavaScript numbers are modelled as exact rationals extended with the
    IEEE-754 special values (NaN, the two infinities and the negative
    zero).  Arithmetic is exact: the rounding of binary floating point is
    not modelled there.  The colour shading, whose results depend on
    that rounding, is modelled a second time in binary64, on the
    primitive floating-point numbers of the kernel; the statements
    about the colours it returns are made on that model.  Strings are
    [string]s whose characters stand for code units below 256.  A call
    either returns a value or throws. *)

From Stdlib Require Import ZArith QArith Qround Qabs Bool List Lia Lqa.
From Stdlib Require Import Ascii String HexString Permutation Sorted.
From Stdlib Require Import DecimalString.
From Stdlib Require PrimFloat FloatOps SpecFloat Uint63.
Import ListNotations.

Set Implicit Arguments.

Close Scope Q_scope.

(* ================================================================== *)
(** * JavaScript numbers *)
(* ================================================================== *)

Module JsNum.

Local Open Scope Q_scope.

(** [Fin q] is the finite number [q] ([Fin 0] is +0); [NZero] is -0. *)
Inductive num : Type :=
| NaN
| PInf
| NInf
| NZero
| Fin (q : Q).

Definition Qltb (p q : Q) : bool := negb (Qle_bool q p).

(** A finite result whose zero is +0. *)
Definition fin (q : Q) : num := Fin (Qred q).

Definition zero (neg : bool) : num := if neg then NZero else Fin 0.

Definition inf (neg : bool) : num := if neg then NInf else PInf.

(** A finite result whose zero takes the given sign. *)
Definition sfin (neg : bool) (q : Q) : num :=
  if Qeq_bool q 0 then zero neg else Fin (Qred q).

Definition of_Z (z : Z) : num := Fin (inject_Z z).

Definition of_nat (n : nat) : num := of_Z (Z.of_nat n).

Definition norm (a : num) : num :=
  match a with
  | Fin q => Fin (Qred q)
  | _ => a
  end.

Definition is_nan (a : num) : bool :=
  match a with NaN => true | _ => false end.

Definition is_inf (a : num) : bool :=
  match a with PInf | NInf => true | _ => false end.

Definition is_finite (a : num) : bool :=
  match a with NZero | Fin _ => true | _ => false end.

(** The sign bit. *)
Definition is_neg (a : num) : bool :=
  match a with
  | NInf | NZero => true
  | Fin q => Qltb q 0
  | _ => false
  end.

(** The value of a finite number. *)
Definition val (a : num) : Q :=
  match a with
  | Fin q => q
  | _ => 0
  end.

Definition is_zero (a : num) : bool :=
  match a with
  | NZero => true
  | Fin q => Qeq_bool q 0
  | _ => false
  end.

(** Unary minus. *)
Definition neg (a : num) : num :=
  match a with
  | NaN => NaN
  | PInf => NInf
  | NInf => PInf
  | NZero => Fin 0
  | Fin q => sfin (negb (Qltb q 0)) (- q)
  end.

(** [a + b] *)
Definition add (a b : num) : num :=
  match a, b with
  | NaN, _ | _, NaN => NaN
  | PInf, NInf | NInf, PInf => NaN
  | PInf, _ | _, PInf => PInf
  | NInf, _ | _, NInf => NInf
  | NZero, NZero => NZero
  | NZero, Fin q | Fin q, NZero => fin q
  | Fin p, Fin q => fin (p + q)
  end.

(** [a - b] *)
Definition sub (a b : num) : num := add a (neg b).

(** [a * b] *)
Definition mul (a b : num) : num :=
  let s := xorb (is_neg a) (is_neg b) in
  if is_nan a || is_nan b then NaN
  else if is_inf a then (if is_zero b then NaN else inf s)
  else if is_inf b then (if is_zero a then NaN else inf s)
  else sfin s (val a * val b).

(** [a / b] *)
Definition div (a b : num) : num :=
  let s := xorb (is_neg a) (is_neg b) in
  if is_nan a || is_nan b then NaN
  else if is_inf a then (if is_inf b then NaN else inf s)
  else if is_inf b then zero s
  else if is_zero b then (if is_zero a then NaN else inf s)
  else sfin s (val a / val b).

(** Truncation of a rational toward zero. *)
Definition Qtrunc (q : Q) : Z :=
  if Qltb q 0 then Qceiling q else Qfloor q.

(** [a % b]: the remainder has the sign of the dividend. *)
Definition rem (a b : num) : num :=
  if is_nan a || is_nan b then NaN
  else if is_inf a || is_zero b then NaN
  else if is_inf b then norm a
  else if is_zero a then norm a
  else sfin (is_neg a)
            (val a - val b * inject_Z (Qtrunc (val a / val b))).

(** Three-way comparison; [None] when an operand is NaN. *)
Definition cmp (a b : num) : option comparison :=
  match a, b with
  | NaN, _ | _, NaN => None
  | PInf, PInf | NInf, NInf => Some Eq
  | PInf, _ | _, NInf => Some Gt
  | NInf, _ | _, PInf => Some Lt
  | _, _ => Some (val a ?= val b)
  end.

(** [a < b] *)
Definition lt (a b : num) : bool :=
  match cmp a b with Some Lt => true | _ => false end.

(** [a > b] *)
Definition gt (a b : num) : bool :=
  match cmp a b with Some Gt => true | _ => false end.

(** [a <= b] *)
Definition le (a b : num) : bool :=
  match cmp a b with Some Lt | Some Eq => true | _ => false end.

(** [a === b] on numbers. *)
Definition seq (a b : num) : bool :=
  match cmp a b with Some Eq => true | _ => false end.

(** [a !== b] on numbers. *)
Definition sneq (a b : num) : bool := negb (seq a b).

(** [Math.max(a, b)]: NaN if an operand is NaN; +0 is above -0. *)
Definition max (a b : num) : num :=
  match cmp a b with
  | None => NaN
  | Some Lt => norm b
  | Some Gt => norm a
  | Some Eq => if is_neg a then norm b else norm a
  end.

(** [Math.min(a, b)]: NaN if an operand is NaN; -0 is below +0. *)
Definition min (a b : num) : num :=
  match cmp a b with
  | None => NaN
  | Some Lt => norm a
  | Some Gt => norm b
  | Some Eq => if is_neg a then norm a else norm b
  end.

(** [Math.max(a, b, c)] *)
Definition max3 (a b c : num) : num := max (max a b) c.

(** [Math.min(a, b, c)] *)
Definition min3 (a b c : num) : num := min (min a b) c.

(** [Math.abs(a)] *)
Definition abs (a : num) : num :=
  match a with
  | NaN => NaN
  | PInf | NInf => PInf
  | NZero => Fin 0
  | Fin q => fin (Qabs q)
  end.

(** [Math.floor(a)] *)
Definition floor (a : num) : num :=
  match a with
  | Fin q => of_Z (Qfloor q)
  | _ => a
  end.

(** [Math.ceil(a)]: a value in (-1, 0) gives -0. *)
Definition ceil (a : num) : num :=
  match a with
  | Fin q =>
      let c := Qceiling q in
      if Z.eqb c 0 && Qltb q 0 then NZero else of_Z c
  | _ => a
  end.

(** The integral values that [Math.round] returns.  They are only ever
    printed, and -0 prints as 0, so the two zeros are one [IInt 0]. *)
Inductive integral : Type :=
| INaN
| IInf (negative : bool)
| IInt (z : Z).

(** [Math.round(a)]: the nearest integer, ties toward +Infinity. *)
Definition round (a : num) : integral :=
  match a with
  | NaN => INaN
  | PInf => IInf false
  | NInf => IInf true
  | NZero => IInt 0
  | Fin q => IInt (Qfloor (q + (1 # 2)))
  end.

(** [a] is the finite number [q]. *)
Definition represents (a : num) (q : Q) : Prop :=
  exists r, a = Fin r /\ r == q.

(** Integer literals and the arithmetic operators of the sources. *)
Definition of_num_int (i : Number.int) : num := of_Z (Z.of_num_int i).

Definition to_num_int (a : num) : option Number.int :=
  match a with
  | Fin (Qmake z 1) => Some (Z.to_num_int z)
  | _ => None
  end.

Declare Scope num_scope.
Delimit Scope num_scope with num.
Bind Scope num_scope with num.
Number Notation num of_num_int to_num_int : num_scope.

Infix "+" := add : num_scope.
Infix "-" := sub : num_scope.
Infix "*" := mul : num_scope.
Infix "/" := div : num_scope.
Infix "%%" := rem (at level 40, left associativity) : num_scope.
Infix "<?" := lt : num_scope.
Infix ">?" := gt : num_scope.
Infix "===" := seq (at level 70, no associativity) : num_scope.
Infix "!==" := sneq (at level 70, no associativity) : num_scope.

End JsNum.

(* ================================================================== *)
(** * JavaScript strings *)
(* ================================================================== *)

Module JsString.

Import JsNum.
Local Open Scope string_scope.

(** [s.slice(i, j)] and [s.substring(i, j)] for constants [0 <= i <= j]. *)
Definition slice (i j : nat) (s : string) : string :=
  substring i (j - i) s.

(** [s.slice(i)] for a constant [0 <= i]. *)
Definition slice_from (i : nat) (s : string) : string :=
  substring i (String.length s - i) s.

Fixpoint repeat_string (pad : string) (n : nat) : string :=
  match n with
  | O => ""
  | S n' => pad ++ repeat_string pad n'
  end.

(** [s.padStart(n, "0")] *)
Definition padStart0 (n : nat) (s : string) : string :=
  repeat_string "0" (n - String.length s) ++ s.

(** [s.replace(c, "")] for a one-character pattern: the first
    occurrence is removed. *)
Fixpoint remove_first (c : ascii) (s : string) : string :=
  match s with
  | EmptyString => EmptyString
  | String d s' => if Ascii.eqb d c then s' else String d (remove_first c s')
  end.

(** White space skipped by [parseInt], among the code units below 256:
    TAB, LF, VT, FF, CR, SP and NBSP. *)
Definition is_white_space (c : ascii) : bool :=
  match nat_of_ascii c with
  | 9 | 10 | 11 | 12 | 13 | 32 | 160 => true
  | _ => false
  end.

Fixpoint trim_start (s : string) : string :=
  match s with
  | EmptyString => EmptyString
  | String c s' => if is_white_space c then trim_start s' else s
  end.

(** The code unit of a character. *)
Definition code (c : ascii) : Z := Z.of_N (N_of_ascii c).

(** The value of a radix-16 digit: 0-9, a-f or A-F. *)
Definition hex_digit_val (c : ascii) : option Z :=
  let n := code c in
  if (48 <=? n)%Z && (n <=? 57)%Z then Some (n - 48)%Z
  else if (97 <=? n)%Z && (n <=? 102)%Z then Some (n - 87)%Z
  else if (65 <=? n)%Z && (n <=? 70)%Z then Some (n - 55)%Z
  else None.

(** The value of the longest prefix of radix-16 digits; [None] when
    that prefix is empty. *)
Fixpoint parse_hex_digits (s : string) (acc : Z) (seen : bool) : option Z :=
  match s with
  | EmptyString => if seen then Some acc else None
  | String c s' =>
      match hex_digit_val c with
      | Some d => parse_hex_digits s' (acc * 16 + d) true
      | None => if seen then Some acc else None
      end
  end.

(** [parseInt(s, 16)]: leading white space, an optional sign, an
    optional 0x or 0X, then the longest run of hexadecimal digits; NaN
    when there is none. *)
Definition parseInt16 (s : string) : num :=
  let s1 := trim_start s in
  let '(negative, s2) :=
    match s1 with
    | String "-" r => (true, r)
    | String "+" r => (false, r)
    | _ => (false, s1)
    end in
  let s3 :=
    match s2 with
    | String "0" (String "x" r) => r
    | String "0" (String "X" r) => r
    | _ => s2
    end in
  match parse_hex_digits s3 0 false with
  | None => NaN
  | Some z =>
      if Z.eqb z 0 then zero negative
      else of_Z (if negative then - z else z)
  end.

(** [n.toString(16)] on an integral value. *)
Definition toString16 (i : integral) : string :=
  match i with
  | INaN => "NaN"
  | IInf false => "Infinity"
  | IInf true => "-Infinity"
  | IInt Z0 => "0"
  | IInt (Zpos p) => HexString.Raw.of_pos p ""
  | IInt (Zneg p) => "-" ++ HexString.Raw.of_pos p ""
  end.

End JsString.

(* ================================================================== *)
(** * Outcome of a call: a returned value or a thrown error *)
(* ================================================================== *)

Inductive exn : Type :=
| InvalidColorFormat
| OutOfBoundsError
| ReferenceError.

Inductive outcome (A : Type) : Type :=
| Returns (a : A)
| Throws (e : exn).

Arguments Returns {A} a.
Arguments Throws {A} e.

Definition bind {A B : Type} (m : outcome A) (k : A -> outcome B) : outcome B :=
  match m with
  | Returns a => k a
  | Throws e => Throws e
  end.

Declare Scope outcome_scope.
Delimit Scope outcome_scope with outcome.

Notation "'let*' x ':=' m 'in' k" :=
  (bind m (fun x => k))
    (at level 10, x name, m at level 100, k at level 200) : outcome_scope.

(** [xs.map(f)] where [f] may throw: the first error stops the traversal. *)
Fixpoint mapM {A B : Type} (f : A -> outcome B) (l : list A) : outcome (list B) :=
  match l with
  | [] => Returns []
  | x :: l' =>
      match f x with
      | Throws e => Throws e
      | Returns y =>
          match mapM f l' with
          | Throws e => Throws e
          | Returns ys => Returns (y :: ys)
          end
      end
  end.

(* ================================================================== *)
(** * Drawing primitives *)
(* ================================================================== *)

Module Svg.

Import JsNum.

(** The value given to [setAttribute]: [String(n)] of a number, a
    literal string, a list of points [x,y x,y ...] or a
    [translate(x, y)]. *)
Inductive value : Type :=
| VNum (n : num)
| VStr (s : string)
| VPoints (ps : list (num * num))
| VTranslate (x y : num).

(** A drawing element: its tag, its attributes in the order they are
    set, and its text content. *)
Record element : Type := Elem {
  tag : string;
  attrs : list (string * value);
  textContent : option string
}.

(** A [g] element: its attributes and the elements appended to it, in
    order. *)
Record group : Type := Group {
  gattrs : list (string * value);
  children : list element
}.

Fixpoint lookup_attr (k : string) (l : list (string * value)) : option value :=
  match l with
  | [] => None
  | (k', v) :: l' => if String.eqb k k' then Some v else lookup_attr k l'
  end.

(** [e.getAttribute(k)] *)
Definition attr (k : string) (e : element) : option value :=
  lookup_attr k (attrs e).

End Svg.

(* ================================================================== *)
(** * Array helpers *)
(* ================================================================== *)

Module JsArray.

Import JsNum.

Section Sort.

Variable A : Type.

(** The comparator [(a, b) => ...]. *)
Variable comparefn : A -> A -> num.

(** [x] goes after [y] when [comparefn(x, y) > 0]. *)
Fixpoint insert (x : A) (l : list A) : list A :=
  match l with
  | [] => [x]
  | y :: l' =>
      if gt (comparefn x y) 0%num then y :: insert x l' else x :: l
  end.

(** [[...l].sort(comparefn)].  The sort of the language is stable, so
    for a comparator that is a consistent ordering its result is the
    one of this stable insertion sort. *)
Definition sort (l : list A) : list A := fold_right insert [] l.

End Sort.

(** [l.find(p)] *)
Definition find {A : Type} (p : A -> bool) (l : list A) : option A :=
  List.find p l.

Section Order.

Variable A : Type.
Variable comparefn : A -> A -> num.
Variable key : A -> Q.

(** On the elements of [l] the comparator orders by descending key:
    it is positive exactly when the first key is below the second. *)
Definition descending_on (l : list A) : Prop :=
  forall x y, In x l -> In y l ->
    (gt (comparefn x y) 0%num = true <-> (key x < key y)%Q).

(** [a] may come before [b] in a list of descending keys. *)
Definition above (a b : A) : Prop := (key b <= key a)%Q.

End Order.

End JsArray.

(* ================================================================== *)
(** * scripts/isometric-poc.ts, first version (HSL colour math) *)
(* ================================================================== *)

Module HslPoc.

Import JsNum JsString Svg.
Local Open Scope string_scope.
Local Open Scope num_scope.
Local Open Scope outcome_scope.

Definition RACK_WIDTH : num := 200.
Definition U_HEIGHT : num := 20.
Definition RACK_U : num := 12.
Definition FULL_DEPTH_PX : num := 24.
Definition HALF_DEPTH_PX : num := 12.
Definition SIDE_DARKEN : num := Fin (1 # 4).
Definition TOP_LIGHTEN : num := Fin (3 # 20).

Record POCDevice : Type := {
  name : string;
  uHeight : num;
  uPosition : num;
  color : string;
  isFullDepth : bool
}.

Definition sampleDevices : list POCDevice :=
  [ {| name := "UPS"; uHeight := 2; uPosition := 1;
       color := "#50fa7b"; isFullDepth := true |};
    {| name := "Patch Panel"; uHeight := 1; uPosition := 3;
       color := "#8be9fd"; isFullDepth := false |};
    {| name := "Network Switch"; uHeight := 1; uPosition := 4;
       color := "#ff79c6"; isFullDepth := false |};
    {| name := "Server 1"; uHeight := 2; uPosition := 5;
       color := "#bd93f9"; isFullDepth := true |};
    {| name := "NAS"; uHeight := 4; uPosition := 7;
       color := "#ffb86c"; isFullDepth := true |};
    {| name := "Blank Panel"; uHeight := 2; uPosition := 11;
       color := "#44475a"; isFullDepth := false |} ].

Record hsl : Type := { h : num; s : num; l : num }.

Definition hexToHsl (hex : string) : outcome hsl :=
  let r := parseInt16 (slice 1 3 hex) / 255 in
  let g := parseInt16 (slice 3 5 hex) / 255 in
  let b := parseInt16 (slice 5 7 hex) / 255 in
  let max := max3 r g b in
  let min := min3 r g b in
  let l := (max + min) / 2 in
  let '(h, s) :=
    if max !== min then
      let d := max - min in
      let s := if l >? Fin (1 # 2)
               then d / (2 - max - min)
               else d / (max + min) in
      let h :=
        if max === r then ((g - b) / d + (if g <? b then 6 else 0)) / 6
        else if max === g then ((b - r) / d + 2) / 6
        else if max === b then ((r - g) / d + 4) / 6
        else 0 in
      (h, s)
    else (0, 0) in
  Returns {| h := h * 360; s := s * 100; l := l * 100 |}.

Definition hslToHex (h s l : num) : outcome string :=
  let s := s / 100 in
  let l := l / 100 in
  let c := (1 - abs (2 * l - 1)) * s in
  let x := c * (1 - abs (((h / 60) %% 2) - 1)) in
  let m := l - c / 2 in
  let '(r, g, b) :=
    if h <? 60 then (c, x, 0)
    else if h <? 120 then (x, c, 0)
    else if h <? 180 then (0, c, x)
    else if h <? 240 then (0, x, c)
    else if h <? 300 then (x, 0, c)
    else (c, 0, x) in
  let toHex (n : num) : string :=
    padStart0 2 (toString16 (round ((n + m) * 255))) in
  Returns ("#" ++ toHex r ++ toHex g ++ toHex b).

Definition darkenColor (hex : string) (amount : num) : outcome string :=
  let* hsl := hexToHsl hex in
  hslToHex (h hsl) (s hsl) (max 0 (l hsl * (1 - amount))).

Definition lightenColor (hex : string) (amount : num) : outcome string :=
  let* hsl := hexToHsl hex in
  hslToHex (h hsl) (s hsl) (min 100 (l hsl * (1 + amount))).

(** The devices of [generateSingleView] in the order they are drawn:
    [[...sampleDevices].sort((a, b) => b.uPosition - a.uPosition)]. *)
Definition sortedDevices : list POCDevice :=
  JsArray.sort (fun a b => uPosition b - uPosition a) sampleDevices.

Section Drawing.

(** [Math.cos(Math.PI / 6)] and [Math.sin(Math.PI / 6)]. *)
Variables COS_30 SIN_30 : num.

Definition createDevice (device : POCDevice) (rackHeight : num)
  : outcome group :=
  let deviceHeight := uHeight device * U_HEIGHT in
  let deviceY :=
    rackHeight - uPosition device * U_HEIGHT - deviceHeight + U_HEIGHT in
  let depthPx := if isFullDepth device then FULL_DEPTH_PX else HALF_DEPTH_PX in
  let* sideColor := darkenColor (color device) SIDE_DARKEN in
  let* topColor := lightenColor (color device) TOP_LIGHTEN in
  let front :=
    Elem "rect"
      [("x", VStr "4"); ("y", VNum deviceY);
       ("width", VNum (RACK_WIDTH - 8)); ("height", VNum deviceHeight);
       ("fill", VStr (color device)); ("stroke", VStr "#282a36");
       ("stroke-width", VStr "1")] None in
  let sideX := RACK_WIDTH - 4 in
  let side :=
    Elem "polygon"
      [("points",
        VPoints
          [(sideX, deviceY);
           (sideX + depthPx, deviceY - (depthPx * SIN_30) / COS_30);
           (sideX + depthPx,
            deviceY + deviceHeight - (depthPx * SIN_30) / COS_30);
           (sideX, deviceY + deviceHeight)]);
       ("fill", VStr sideColor); ("stroke", VStr "#282a36");
       ("stroke-width", VStr "1")] None in
  let top :=
    Elem "polygon"
      [("points",
        VPoints
          [(4, deviceY);
           (4 + depthPx, deviceY - (depthPx * SIN_30) / COS_30);
           (sideX + depthPx, deviceY - (depthPx * SIN_30) / COS_30);
           (sideX, deviceY)]);
       ("fill", VStr topColor); ("stroke", VStr "#282a36");
       ("stroke-width", VStr "1")] None in
  Returns (Group [] [front; side; top]).

(** The device groups that the [forEach] of [generateSingleView]
    appends to the isometric group, after the rack frame. *)
Definition singleViewDevices : outcome (list group) :=
  mapM (fun device => createDevice device (RACK_U * U_HEIGHT))
       sortedDevices.

End Drawing.

End HslPoc.

(* ================================================================== *)
(** * scripts/isometric-poc.ts, second version (renderRack) *)
(* ================================================================== *)

Module IsoPoc.

Import JsNum JsString Svg.
Local Open Scope string_scope.
Local Open Scope num_scope.
Local Open Scope outcome_scope.

Definition U_HEIGHT : num := 22.
Definition RACK_WIDTH : num := 220.
Definition RAIL_WIDTH : num := 17.
Definition RACK_PADDING : num := 4.
Definition RACK_GAP : num := 60.
Definition FULL_DEPTH_PX : num := 24.
Definition HALF_DEPTH_PX : num := 12.
Definition DARK_RACK_INTERIOR : string := "#2d2d2d".
Definition DARK_RACK_RAIL : string := "#404040".
Definition DARK_TEXT : string := "#ffffff".

Record Device : Type := {
  slug : string;
  model : string;
  category : string;
  colour : string;
  u_height : num;
  is_full_depth : bool
}.

Record PlacedDevice : Type := {
  device_type : string;
  position : num;
  colour_override : option string
}.

Record Rack : Type := {
  name : string;
  height : num;
  devices : list PlacedDevice
}.

Definition mkDevice (sl mo ca co : string) (u : num) (fd : bool) : Device :=
  {| slug := sl; model := mo; category := ca; colour := co;
     u_height := u; is_full_depth := fd |}.

Definition testDevices : list Device :=
  [ mkDevice "udm-pro" "UDM Pro" "network" "#3498db" 1 false;
    mkDevice "usw-pro-48" "USW-Pro-48" "network" "#3498db" 1 false;
    mkDevice "poweredge-r730" "PowerEdge R730" "server" "#27ae60" 2 true;
    mkDevice "poweredge-r640" "PowerEdge R640" "server" "#27ae60" 1 true;
    mkDevice "synology-rs820" "RS820+" "storage" "#9b59b6" 1 true;
    mkDevice "synology-rs1221" "RS1221+" "storage" "#9b59b6" 2 true;
    mkDevice "cyberpower-or1500" "CyberPower OR1500" "power" "#e74c3c" 2 true;
    mkDevice "apc-smt1500rm" "APC SMT1500RM" "power" "#e74c3c" 2 true;
    mkDevice "patch-panel" "24-Port Patch Panel" "network" "#3498db" 1 false;
    mkDevice "blank-panel-1u" "1U Blank Panel" "blank" "#7f8c8d" 1 false ].

Definition place (ty : string) (p : num) : PlacedDevice :=
  {| device_type := ty; position := p; colour_override := None |}.

Definition testRack : Rack :=
  {| name := "HomeLab-01";
     height := 24;
     devices :=
       [ place "cyberpower-or1500" 1;
         place "apc-smt1500rm" 3;
         place "synology-rs1221" 5;
         place "synology-rs820" 7;
         place "blank-panel-1u" 8;
         place "poweredge-r730" 9;
         place "poweredge-r640" 11;
         place "poweredge-r640" 12;
         place "blank-panel-1u" 13;
         place "patch-panel" 14;
         place "usw-pro-48" 15;
         place "usw-pro-48" 16;
         place "udm-pro" 17 ] |}.

(** [#rrggbb] from three rounded channels. *)
Definition hexOfChannels (newR newG newB : integral) : string :=
  "#" ++ padStart0 2 (toString16 newR)
      ++ padStart0 2 (toString16 newG)
      ++ padStart0 2 (toString16 newB).

Definition darkenColor (hex : string) (percent : num) : outcome string :=
  let color := remove_first "#" hex in
  let r := parseInt16 (slice 0 2 color) in
  let g := parseInt16 (slice 2 4 color) in
  let b := parseInt16 (slice 4 6 color) in
  let factor := 1 - percent / 100 in
  let newR := round (r * factor) in
  let newG := round (g * factor) in
  let newB := round (b * factor) in
  Returns (hexOfChannels newR newG newB).

Definition lightenColor (hex : string) (percent : num) : outcome string :=
  let color := remove_first "#" hex in
  let r := parseInt16 (slice 0 2 color) in
  let g := parseInt16 (slice 2 4 color) in
  let b := parseInt16 (slice 4 6 color) in
  let factor := percent / 100 in
  let newR := round (r + (255 - r) * factor) in
  let newG := round (g + (255 - g) * factor) in
  let newB := round (b + (255 - b) * factor) in
  Returns (hexOfChannels newR newG newB).

(** The elements of the rack frame, in the order [renderRack] appends
    them. *)
Definition rackFrame (rack : Rack) : outcome (list element) :=
  let rackHeight := height rack * U_HEIGHT in
  let interiorWidth := RACK_WIDTH - RAIL_WIDTH * 2 in
  let rsX := RACK_WIDTH in
  let rsY := RACK_PADDING in
  let rsH := rackHeight + RAIL_WIDTH * 2 in
  let* rightSideFill := darkenColor DARK_RACK_RAIL 30 in
  let rightSideDepth :=
    Elem "polygon"
      [("points",
        VPoints [(rsX, rsY); (rsX + FULL_DEPTH_PX, rsY);
                 (rsX + FULL_DEPTH_PX, rsY + rsH); (rsX, rsY + rsH)]);
       ("fill", VStr rightSideFill)] None in
  let tsY := RACK_PADDING in
  let* topSurfaceFill := lightenColor DARK_RACK_RAIL 15 in
  let topSurface :=
    Elem "polygon"
      [("points",
        VPoints [(0, tsY); (RACK_WIDTH, tsY);
                 (RACK_WIDTH + FULL_DEPTH_PX, tsY); (FULL_DEPTH_PX, tsY)]);
       ("fill", VStr topSurfaceFill)] None in
  let interior :=
    Elem "rect"
      [("x", VNum RAIL_WIDTH); ("y", VNum (RACK_PADDING + RAIL_WIDTH));
       ("width", VNum interiorWidth); ("height", VNum rackHeight);
       ("fill", VStr DARK_RACK_INTERIOR)] None in
  let topBar :=
    Elem "rect"
      [("x", VStr "0"); ("y", VNum RACK_PADDING);
       ("width", VNum RACK_WIDTH); ("height", VNum RAIL_WIDTH);
       ("fill", VStr DARK_RACK_RAIL)] None in
  let bottomBar :=
    Elem "rect"
      [("x", VStr "0"); ("y", VNum (RACK_PADDING + RAIL_WIDTH + rackHeight));
       ("width", VNum RACK_WIDTH); ("height", VNum RAIL_WIDTH);
       ("fill", VStr DARK_RACK_RAIL)] None in
  let leftRail :=
    Elem "rect"
      [("x", VStr "0"); ("y", VNum RACK_PADDING);
       ("width", VNum RAIL_WIDTH);
       ("height", VNum (rackHeight + RAIL_WIDTH * 2));
       ("fill", VStr DARK_RACK_RAIL)] None in
  let rightRail :=
    Elem "rect"
      [("x", VNum (RACK_WIDTH - RAIL_WIDTH)); ("y", VNum RACK_PADDING);
       ("width", VNum RAIL_WIDTH);
       ("height", VNum (rackHeight + RAIL_WIDTH * 2));
       ("fill", VStr DARK_RACK_RAIL)] None in
  Returns [rightSideDepth; topSurface; interior; topBar; bottomBar;
           leftRail; rightRail].

(** [[...rack.devices].sort((a, b) => b.position - a.position)] *)
Definition sortedDevices (rack : Rack) : list PlacedDevice :=
  JsArray.sort (fun a b => position b - position a) (devices rack).

(** [devices.find((d) => d.slug === placedDevice.device_type)] *)
Definition findDevice (devices : list Device) (placedDevice : PlacedDevice)
  : option Device :=
  JsArray.find (fun d => String.eqb (slug d) (device_type placedDevice))
               devices.

(** One iteration of the device loop of [renderRack], for a placed
    device whose type was found: the side panel, the top panel and the
    front face, in the order they are appended. *)
Definition deviceElements (rack : Rack) (placedDevice : PlacedDevice)
           (device : Device) : outcome (list element) :=
  let interiorWidth := RACK_WIDTH - RAIL_WIDTH * 2 in
  let deviceY :=
    (height rack - position placedDevice - u_height device + 1) * U_HEIGHT
    + RACK_PADDING + RAIL_WIDTH in
  let deviceHeight := u_height device * U_HEIGHT - 2 in
  let deviceWidth := interiorWidth - 4 in
  let deviceX := RAIL_WIDTH + 2 in
  let deviceColor :=
    match colour_override placedDevice with
    | Some c => c
    | None => colour device
    end in
  let depthPx := if is_full_depth device then FULL_DEPTH_PX else HALF_DEPTH_PX in
  let spX := deviceX + deviceWidth in
  let spY := deviceY + 1 in
  let* sideFill := darkenColor deviceColor 25 in
  let sidePanel :=
    Elem "polygon"
      [("points",
        VPoints [(spX, spY); (spX + depthPx, spY);
                 (spX + depthPx, spY + deviceHeight);
                 (spX, spY + deviceHeight)]);
       ("fill", VStr sideFill)] None in
  let* topFill := lightenColor deviceColor 15 in
  let topPanel :=
    Elem "polygon"
      [("points",
        VPoints [(deviceX, spY); (spX, spY); (spX + depthPx, spY);
                 (deviceX + depthPx, spY)]);
       ("fill", VStr topFill)] None in
  let deviceRect :=
    Elem "rect"
      [("x", VNum deviceX); ("y", VNum (deviceY + 1));
       ("width", VNum deviceWidth); ("height", VNum deviceHeight);
       ("fill", VStr deviceColor); ("rx", VStr "2")] None in
  Returns [sidePanel; topPanel; deviceRect].

(** The device loop of [renderRack]: a placed device whose type is not
    in the library is skipped. *)
Fixpoint deviceLoop (rack : Rack) (devices : list Device)
         (sorted : list PlacedDevice) : outcome (list element) :=
  match sorted with
  | [] => Returns []
  | placedDevice :: rest =>
      match findDevice devices placedDevice with
      | None => deviceLoop rack devices rest
      | Some device =>
          let* es := deviceElements rack placedDevice device in
          let* more := deviceLoop rack devices rest in
          Returns (es ++ more)%list
      end
  end.

(** The view label that [renderRack] appends last. *)
Definition viewLabel (label : string) : element :=
  Elem "text"
    [("x", VNum (RACK_WIDTH / 2)); ("y", VNum (neg 5));
     ("fill", VStr DARK_TEXT); ("font-size", VStr "11");
     ("font-family", VStr "system-ui, sans-serif");
     ("text-anchor", VStr "middle"); ("font-weight", VStr "bold")]
    (Some label).

(** [renderRack(document, parent, rack, devices, xOffset, yOffset, label)]:
    the group appended to [parent]. *)
Definition renderRack (rack : Rack) (devices : list Device)
           (xOffset yOffset : num) (label : string) : outcome group :=
  let* frame := rackFrame rack in
  let* drawn := deviceLoop rack devices (sortedDevices rack) in
  Returns (Group [("transform", VTranslate xOffset yOffset)]
                 (frame ++ drawn ++ [viewLabel label])%list).

End IsoPoc.

(* ================================================================== *)
(** * Binary64 numbers *)
(* ================================================================== *)

(** The numbers of JavaScript as they are: IEEE 754 binary64, with
    the arithmetic of the primitive floating-point numbers, rounded to
    nearest, ties to even. *)
Module Binary64.

Import JsNum PrimFloat FloatOps SpecFloat.
Local Open Scope float_scope.

(** The number of an integer below 2^53 in absolute value. *)
Definition of_Z (z : Z) : float :=
  match z with
  | Z0 => zero
  | Zpos _ => of_uint63 (Uint63.of_Z z)
  | Zneg p => - of_uint63 (Uint63.of_Z (Zpos p))
  end.

(** The number read from an integer or from a ratio of two integers
    below 2^53: the nearest binary64 number. *)
Definition of_num (a : num) : float :=
  match a with
  | NaN => nan
  | PInf => infinity
  | NInf => neg_infinity
  | NZero => neg_zero
  | Fin (Qmake z 1) => of_Z z
  | Fin (Qmake z d) => of_Z z / of_Z (Zpos d)
  end.

(** [Math.max(a, b)]: NaN if an operand is NaN; +0 is above -0. *)
Definition max (a b : float) : float :=
  if is_nan a || is_nan b then nan
  else if a <? b then b
  else if b <? a then a
  else if get_sign a then b else a.

(** [Math.min(a, b)]: NaN if an operand is NaN; -0 is below +0. *)
Definition min (a b : float) : float :=
  if is_nan a || is_nan b then nan
  else if a <? b then a
  else if b <? a then b
  else if get_sign a then a else b.

Definition max3 (a b c : float) : float := max (max a b) c.

Definition min3 (a b c : float) : float := min (min a b) c.

(** [a % b]: the remainder of the division truncated toward zero, which
    is a binary64 number; it has the sign of the dividend. *)
Definition rem (a b : float) : float :=
  match Prim2SF a, Prim2SF b with
  | S754_nan, _ | _, S754_nan => nan
  | S754_infinity _, _ | _, S754_zero _ => nan
  | S754_zero _, _ | _, S754_infinity _ => a
  | S754_finite sa ma ea, S754_finite _ mb eb =>
      let e := Z.min ea eb in
      let r := Z.modulo (Z.shiftl (Zpos ma) (ea - e))
                        (Z.shiftl (Zpos mb) (eb - e)) in
      let f := Z.ldexp (of_Z r) e in
      if sa then - f else f
  end.

(** [Math.round(a)]: the nearest integer, ties toward +Infinity:
    floor (a + 1/2) of the exact value [m * 2^e] of [a]. *)
Definition round (a : float) : integral :=
  match Prim2SF a with
  | S754_nan => INaN
  | S754_infinity s => IInf s
  | S754_zero _ => IInt 0
  | S754_finite s m e =>
      let n := if s then Zneg m else Zpos m in
      match e with
      | Zneg k => IInt (Z.shiftr (n + Z.shiftl 1 (Zpos k - 1)) (Zpos k))
      | _ => IInt (Z.shiftl n e)
      end
  end.

End Binary64.

(* ================================================================== *)
(** * scripts/isometric-poc.ts, the colour shading in binary64 *)
(* ================================================================== *)

(** The colour functions of both versions again, with the arithmetic
    of [Binary64]: [HslPoc64] holds those of the first version and
    [IsoPoc64] those of the second. *)
Module HslPoc64.

Import JsNum JsString PrimFloat Binary64.
Local Open Scope string_scope.
Local Open Scope float_scope.
Local Open Scope outcome_scope.

Definition SIDE_DARKEN : float := 0.25.

(** The binary64 number nearest to 0.15. *)
#[warnings="-inexact-float"]
Definition TOP_LIGHTEN : float := 0.15.

Record hsl : Type := { h : float; s : float; l : float }.

Definition hexToHsl (hex : string) : outcome hsl :=
  let r := of_num (parseInt16 (slice 1 3 hex)) / 255 in
  let g := of_num (parseInt16 (slice 3 5 hex)) / 255 in
  let b := of_num (parseInt16 (slice 5 7 hex)) / 255 in
  let max := max3 r g b in
  let min := min3 r g b in
  let l := (max + min) / 2 in
  let '(h, s) :=
    if negb (max =? min) then
      let d := max - min in
      let s := if 0.5 <? l
               then d / (2 - max - min)
               else d / (max + min) in
      let h :=
        if max =? r then ((g - b) / d + (if g <? b then 6 else 0)) / 6
        else if max =? g then ((b - r) / d + 2) / 6
        else if max =? b then ((r - g) / d + 4) / 6
        else 0 in
      (h, s)
    else (0, 0) in
  Returns {| h := h * 360; s := s * 100; l := l * 100 |}.

Definition hslToHex (h s l : float) : outcome string :=
  let s := s / 100 in
  let l := l / 100 in
  let c := (1 - abs (2 * l - 1)) * s in
  let x := c * (1 - abs (rem (h / 60) 2 - 1)) in
  let m := l - c / 2 in
  let '(r, g, b) :=
    if h <? 60 then (c, x, 0)
    else if h <? 120 then (x, c, 0)
    else if h <? 180 then (0, c, x)
    else if h <? 240 then (0, x, c)
    else if h <? 300 then (x, 0, c)
    else (c, 0, x) in
  let toHex (n : float) : string :=
    padStart0 2 (toString16 (round ((n + m) * 255))) in
  Returns ("#" ++ toHex r ++ toHex g ++ toHex b).

Definition darkenColor (hex : string) (amount : float) : outcome string :=
  let* hsl := hexToHsl hex in
  hslToHex (h hsl) (s hsl) (Binary64.max 0 (l hsl * (1 - amount))).

Definition lightenColor (hex : string) (amount : float) : outcome string :=
  let* hsl := hexToHsl hex in
  hslToHex (h hsl) (s hsl) (Binary64.min 100 (l hsl * (1 + amount))).

End HslPoc64.

Module IsoPoc64.

Import JsNum JsString PrimFloat Binary64.
Local Open Scope string_scope.
Local Open Scope float_scope.

Definition darkenColor (hex : string) (percent : float) : outcome string :=
  let color := remove_first "#" hex in
  let r := of_num (parseInt16 (slice 0 2 color)) in
  let g := of_num (parseInt16 (slice 2 4 color)) in
  let b := of_num (parseInt16 (slice 4 6 color)) in
  let factor := 1 - percent / 100 in
  let newR := round (r * factor) in
  let newG := round (g * factor) in
  let newB := round (b * factor) in
  Returns (IsoPoc.hexOfChannels newR newG newB).

Definition lightenColor (hex : string) (percent : float) : outcome string :=
  let color := remove_first "#" hex in
  let r := of_num (parseInt16 (slice 0 2 color)) in
  let g := of_num (parseInt16 (slice 2 4 color)) in
  let b := of_num (parseInt16 (slice 4 6 color)) in
  let factor := percent / 100 in
  let newR := round (r + (255 - r) * factor) in
  let newG := round (g + (255 - g) * factor) in
  let newB := round (b + (255 - b) * factor) in
  Returns (IsoPoc.hexOfChannels newR newG newB).

End IsoPoc64.

(* ================================================================== *)
(** * Port layout (spike #248, recommended algorithm) *)
(* ================================================================== *)

Module PortLayout.

Import JsNum.
Local Open Scope string_scope.
Local Open Scope num_scope.
Local Open Scope outcome_scope.

Definition PORT_RADIUS_DEFAULT : num := 3.
Definition PORT_RADIUS_MIN : num := 2.
Definition PORT_SPACING_DEFAULT : num := 8.
Definition PORT_SPACING_MIN : num := 2.
Definition PORT_Y_OFFSET : num := 8.

(** An interface of a device type: [{name, type, mgmt_only}]. *)
Record InterfaceTemplate : Type := {
  iname : string;
  itype : string;
  mgmt_only : bool
}.

(** [10 | 19 | 21 | 23] *)
Inductive RackWidth : Type := W10 | W19 | W21 | W23.

Record PortPosition : Type := {
  interface : InterfaceTemplate;
  x : num;
  y : num;
  radius : num
}.

(** A badge of the grouped mode: a type tag and how many interfaces
    carry it. *)
Record PortGroup : Type := {
  gtype : string;
  gcount : nat
}.

(** [{ mode: 'hidden' }], [{ mode: 'grouped', groups }] or
    [{ mode: 'individual', rows, portsPerRow, portRadius, spacing,
    positions }]. *)
Inductive PortLayoutResult : Type :=
| hidden
| grouped (groups : list PortGroup)
| individual (rows portsPerRow portRadius spacing : num)
             (positions : list PortPosition).

Fixpoint bump (t : string) (gs : list PortGroup) : list PortGroup :=
  match gs with
  | [] => [ {| gtype := t; gcount := 1 |} ]
  | g :: gs' =>
      if String.eqb (gtype g) t
      then {| gtype := t; gcount := S (gcount g) |} :: gs'
      else g :: bump t gs'
  end.

(** Modelled from the spec: [groupInterfacesByType], which the
    algorithm calls and the document does not define.  Interfaces are
    grouped by type tag, one badge per distinct type, ordered by first
    occurrence, each with its count. *)
Definition groupInterfacesByType (interfaces : list InterfaceTemplate)
  : outcome (list PortGroup) :=
  Returns (fold_left (fun gs i => bump (itype i) gs) interfaces []).

(** [interfaces.map((iface, index) => ...)]: the elements with their
    indices, from [start]. *)
Fixpoint indexed {A : Type} (start : nat) (l : list A) : list (A * nat) :=
  match l with
  | [] => []
  | a :: l' => (a, start) :: indexed (S start) l'
  end.

Definition calculatePositions (interfaces : list InterfaceTemplate)
           (rows portsPerRow spacing radius : num)
  : outcome (list PortPosition) :=
  Returns
    (map (fun '(iface, index) =>
            let row := floor (of_nat index / portsPerRow) in
            let col := of_nat index %% portsPerRow in
            {| interface := iface;
               x := spacing + col * (radius * 2 + spacing) + radius;
               y := row * (radius * 2 + 2) + radius;
               radius := radius |})
         (indexed 0 interfaces)).

Definition calculatePortLayout (deviceWidth deviceHeight : num)
           (interfaces : list InterfaceTemplate) (zoom : num)
           (rackWidth : RackWidth) : outcome PortLayoutResult :=
  let portCount := of_nat (List.length interfaces) in
  (* Step 1: Determine render mode based on zoom *)
  if zoom <? Fin (1 # 2) then Returns hidden
  else
    (* Step 2: Calculate available height for rows *)
    let availableHeight := deviceHeight - PORT_Y_OFFSET in
    let maxRows := floor (availableHeight / (PORT_RADIUS_DEFAULT * 2 + 2)) in
    (* Step 3: Determine if grouping needed *)
    let portsPerRow := ceil (portCount / maxRows) in
    let requiredWidth :=
      portsPerRow * (PORT_RADIUS_DEFAULT * 2 + PORT_SPACING_MIN) in
    if (requiredWidth >? deviceWidth) && (zoom <? Fin (3 # 2)) then
      let* groups := groupInterfacesByType interfaces in
      Returns (grouped groups)
    else
      (* Step 4: Calculate optimal row distribution *)
      let optimalRows :=
        min maxRows (ceil (portCount / floor (deviceWidth / 8))) in
      (* Step 5: Calculate spacing *)
      let portsPerRowFinal := ceil (portCount / optimalRows) in
      let portRadius := PORT_RADIUS_DEFAULT in
      let spacing :=
        (deviceWidth - portsPerRowFinal * portRadius * 2)
        / (portsPerRowFinal + 1) in
      (* Step 6: Scale down if needed *)
      let '(portRadius, spacing) :=
        if spacing <? PORT_SPACING_MIN then
          let portRadius := PORT_RADIUS_MIN in
          (portRadius,
           (deviceWidth - portsPerRowFinal * portRadius * 2)
           / (portsPerRowFinal + 1))
        else (portRadius, spacing) in
      let* positions :=
        calculatePositions interfaces optimalRows portsPerRowFinal
                           spacing portRadius in
      Returns (individual optimalRows portsPerRowFinal portRadius spacing
                          positions).

End PortLayout.

(* ================================================================== *)
(** * Device utilities: generateId *)
(* ================================================================== *)

Module DeviceUtils.

Import JsString.
Local Open Scope string_scope.
Local Open Scope Z_scope.

(** The global [crypto] object, as far as [generateId] uses it:
    [randomUUID] is the string a call of [crypto.randomUUID()] returns,
    when the method exists; [randomByte i] is the value that
    [crypto.getRandomValues] writes at index [i]. *)
Record Crypto : Type := {
  randomUUID : option string;
  randomByte : nat -> Z
}.

(** A [Uint8Array]: a write keeps the low eight bits. *)
Definition Uint8Array : Type := list Z.

Definition toUint8 (v : Z) : Z := v mod 256.

(** [a[i] = v] for an index inside the array. *)
Fixpoint store (i : nat) (v : Z) (a : Uint8Array) : Uint8Array :=
  match a, i with
  | [], _ => []
  | _ :: a', O => toUint8 v :: a'
  | b :: a', S i' => b :: store i' v a'
  end.

(** [a[i]!] *)
Definition load (i : nat) (a : Uint8Array) : Z := nth i a 0.

(** [crypto.getRandomValues(new Uint8Array(n))] *)
Definition getRandomValues (c : Crypto) (n : nat) : Uint8Array :=
  map (fun i => toUint8 (randomByte c i)) (seq 0 n).

(** [b.toString(16).padStart(2, '0')] *)
Definition byteToHex (b : Z) : string :=
  padStart0 2 (toString16 (JsNum.IInt b)).

Fixpoint join (l : list string) : string :=
  match l with
  | [] => ""
  | s :: l' => s ++ join l'
  end.

(** [generateId()], given the global [crypto]; [None] when the
    identifier is not defined. *)
Definition generateId (crypto : option Crypto) : outcome string :=
  match crypto with
  | Some c =>
      match randomUUID c with
      | Some uuid => Returns uuid
      | None =>
          let bytes := getRandomValues c 16 in
          let bytes := store 6 (Z.lor (Z.land (load 6 bytes) 15) 64) bytes in
          let bytes := store 8 (Z.lor (Z.land (load 8 bytes) 63) 128) bytes in
          let hex := join (map byteToHex bytes) in
          Returns (slice 0 8 hex ++ "-" ++ slice 8 12 hex ++ "-"
                   ++ slice 12 16 hex ++ "-" ++ slice 16 20 hex ++ "-"
                   ++ slice_from 20 hex)
      end
  | None => Throws ReferenceError
  end.

(** ** Well-formed version 4 identifiers *)

Definition is_lower_hex (c : ascii) : bool :=
  let n := code c in
  ((48 <=? n) && (n <=? 57)) || ((97 <=? n) && (n <=? 102)).

(** What the character at index [i] of the 36 must be. *)
Definition uuid_char_ok (i : nat) (c : ascii) : bool :=
  match i with
  | 8 | 13 | 18 | 23 => Ascii.eqb c "-"
  | 14 => Ascii.eqb c "4"
  | 19 => Ascii.eqb c "8" || Ascii.eqb c "9" || Ascii.eqb c "a" || Ascii.eqb c "b"
  | _ => is_lower_hex c
  end%nat.

Fixpoint uuid_chars_ok (i : nat) (s : string) : bool :=
  match s with
  | EmptyString => true
  | String c s' => uuid_char_ok i c && uuid_chars_ok (S i) s'
  end.

(** 36 characters in the 8-4-4-4-12 layout of lower-case hexadecimal
    digits and hyphens, version nibble 4, variant nibble 8, 9, a or b. *)
Definition is_uuid_v4 (s : string) : bool :=
  Nat.eqb (String.length s) 36 && uuid_chars_ok 0 s.

End DeviceUtils.

(* ================================================================== *)
(** * Adaptive text fitter *)
(* ================================================================== *)

Module TextSizing.

Local Open Scope Q_scope.

(** A text: its UTF-16 code units. *)
Definition text : Type := list N.

(** The one-character string [U+2026]. *)
Definition ELLIPSIS : text := [8230%N].

Definition CHAR_WIDTH_RATIO : Q := 58 # 100.

Record FitOptions : Type := {
  maxFontSize : Q;
  minFontSize : Q;
  availableWidth : Q
}.

Record FitResult : Type := {
  fitted : text;
  fontSize : Q
}.

(** Modelled from the spec: the estimate of the rendered width,
    [text.length * fontSize * charWidthRatio], of the sizing module
    src/lib/utils/text-sizing.ts, of which only the tests are at hand. *)
Definition estimateWidth (t : text) (size : Q) : Q :=
  inject_Z (Z.of_nat (List.length t)) * size * CHAR_WIDTH_RATIO.

Definition fits (t : text) (size width : Q) : bool :=
  Qle_bool (estimateWidth t size) width.

Section Search.

(** The granularity of the search for a font size, which the spec
    leaves open. *)
Variable fontStep : Q.

(** Modelled from the spec: the sizes tried, downward from the
    maximum in steps of [fontStep] while they stay at or above the
    minimum, and then the minimum itself. *)
Definition candidateSizes (o : FitOptions) : list Q :=
  let n := Z.to_nat (Qfloor ((maxFontSize o - minFontSize o) / fontStep)) in
  map (fun k => maxFontSize o - inject_Z (Z.of_nat k) * fontStep)
      (seq 0 (S n))
  ++ [minFontSize o].

(** Modelled from the spec: the prefix kept when the text overflows;
    characters are dropped from the end, and the candidate with its
    ellipsis is measured again, until it fits or nothing but the
    ellipsis is left. *)
Fixpoint truncateTo (keep : nat) (t : text) (size width : Q) : text :=
  let candidate := (firstn keep t ++ ELLIPSIS)%list in
  match keep with
  | O => candidate
  | S keep' =>
      if fits candidate size width then candidate
      else truncateTo keep' t size width
  end.

(** Modelled from the spec: [calculateFontSize(text, options)], named by
    the tests: the first size tried at which the text fits, and the
    minimum when it fits at none. *)
Definition calculateFontSize (t : text) (o : FitOptions) : Q :=
  match List.find (fun size => fits t size (availableWidth o))
                  (candidateSizes o) with
  | Some size => size
  | None => minFontSize o
  end.

(** Modelled from the spec: [truncateWithEllipsis(text, availableWidth,
    fontSize)], named by the tests: the text when it fits, otherwise
    a prefix of it followed by the ellipsis. *)
Definition truncateWithEllipsis (t : text) (width size : Q) : text :=
  if fits t size width then t
  else truncateTo (List.length t - 1) t size width.

(** Modelled from the spec: [fitTextToWidth(text, {maxFontSize,
    minFontSize, availableWidth})].  A width that is not positive
    gives the bare ellipsis at the minimum size; otherwise the text is
    sized, and truncated if it overflows at the size found, so that an
    empty text is returned as it is at the maximum size. *)
Definition fitTextToWidth (t : text) (o : FitOptions) : FitResult :=
  if Qle_bool (availableWidth o) 0 then
    {| fitted := ELLIPSIS; fontSize := minFontSize o |}
  else
    let size := calculateFontSize t o in
    {| fitted := truncateWithEllipsis t (availableWidth o) size;
       fontSize := size |}.

End Search.

(** The code units of a string of characters below 128. *)
Definition units (s : string) : text :=
  map (fun c => N_of_ascii c) (list_ascii_of_string s).

End TextSizing.

(* ================================================================== *)
(** * Device placement validator *)
(* ================================================================== *)

Module Placement.

Local Open Scope Q_scope.

Inductive Face : Type := front | rear | both.

(** A placed device with the height and depth of its device type. *)
Record Placed : Type := {
  id : string;
  position : Q;
  u_height : Q;
  face : Face;
  is_full_depth : bool
}.

Record Rack : Type := {
  height : Q;
  devices : list Placed
}.

Inductive Validation : Type :=
| Ok
| Conflict (ids : list string).

(** The occupied unit range [[position, position + u_height - 1]]. *)
Definition bottom (d : Placed) : Q := position d.
Definition top (d : Placed) : Q := position d + u_height d - 1.

(** The two physical faces of a rack. *)
Inductive Side : Type := Front | Rear.

Definition Side_eqb (a b : Side) : bool :=
  match a, b with
  | Front, Front | Rear, Rear => true
  | _, _ => false
  end.

(** The effective face-occupancy set: both sides when the device is
    full-depth (or placed on both faces), otherwise its own side. *)
Definition occupancy (d : Placed) : list Side :=
  if is_full_depth d then [Front; Rear]
  else
    match face d with
    | front => [Front]
    | rear => [Rear]
    | both => [Front; Rear]
    end.

Definition facesIntersect (a b : Placed) : bool :=
  existsb (fun f => existsb (Side_eqb f) (occupancy b)) (occupancy a).

Definition Qmaxb (p q : Q) : Q := if Qle_bool p q then q else p.
Definition Qminb (p q : Q) : Q := if Qle_bool p q then p else q.

Definition rangesIntersect (a b : Placed) : bool :=
  Qle_bool (Qmaxb (bottom a) (bottom b)) (Qminb (top a) (top b)).

Definition collides (candidate existing : Placed) : bool :=
  rangesIntersect candidate existing && facesIntersect candidate existing.

(** Modelled from the spec: [validatePlacement(rack, candidate)], the
    placement validator, whose code is not at hand.  Every existing
    placement whose unit
    range and face occupancy both intersect the candidate's is a
    collision; the result is [Ok] when there is none and otherwise the
    conflict with the ids of the colliding placements. *)
Definition validatePlacement (rack : Rack) (candidate : Placed) : Validation :=
  match filter (collides candidate) (devices rack) with
  | [] => Ok
  | cs => Conflict (map id cs)
  end.

(** Two placements share a unit of the rack. *)
Definition shareUnit (a b : Placed) : Prop :=
  exists u, (bottom a <= u /\ u <= top a) /\ (bottom b <= u /\ u <= top b).

(** Two placements share a side of the rack. *)
Definition shareSide (a b : Placed) : Prop :=
  exists side, In side (occupancy a) /\ In side (occupancy b).

(** The placements of the scenario: a full-depth device of two units at
    position 1 on the front, and half-depth devices of one unit at
    position 1 on the rear and on the front. *)
Definition fullFront : Placed :=
  {| id := "first"; position := 1; u_height := 2; face := front;
     is_full_depth := true |}.

Definition halfRear : Placed :=
  {| id := "second"; position := 1; u_height := 1; face := rear;
     is_full_depth := false |}.

Definition halfFront : Placed :=
  {| id := "third"; position := 1; u_height := 1; face := front;
     is_full_depth := false |}.

End Placement.

(* ================================================================== *)
(** * Port layout (spike #248, options A and B) *)
(* ================================================================== *)

Module PortOptions.
Import JsNum.
Local Open Scope num_scope.

(** [{ deviceWidth, deviceHeight, portCount, portRadius }] *)
Record PortLayoutConfig : Type := {
  deviceWidth : num;
  deviceHeight : num;
  portCount : num;
  portRadius : num
}.

(** [{ rows, portsPerRow, spacing, portRadius }]; the radius of the
    result is the field [radius]. *)
Record PortLayout : Type := {
  rows : num;
  portsPerRow : num;
  spacing : num;
  radius : num
}.

(** Option A: multi-row with dynamic spacing. *)
Definition calculateLayout (config : PortLayoutConfig) : PortLayout :=
  let maxRows :=
    floor ((deviceHeight config - 8) / (portRadius config * 2 + 2)) in
  let portsPerRow := ceil (portCount config / maxRows) in
  let rows := ceil (portCount config / portsPerRow) in
  let portDiameter := portRadius config * 2 in
  let spacing :=
    (deviceWidth config - portsPerRow * portDiameter) / (portsPerRow + 1) in
  {| rows := rows; portsPerRow := portsPerRow; spacing := spacing;
     radius := portRadius config |}.

(** ['individual' | 'grouped' | 'hidden'] *)
Inductive RenderMode : Type := individual | grouped | hidden.

(** Option B: adaptive grouping by density. *)
Definition determineRenderMode (portCount deviceWidth zoom : num)
  : RenderMode :=
  let effectiveWidth := deviceWidth * zoom in
  let minSpacing := 4 in
  let portDiameter := 6 in
  let requiredWidth := portCount * (portDiameter + minSpacing) in
  if effectiveWidth <? 50 then hidden
  else if requiredWidth >? effectiveWidth * 2 then grouped
  else individual.

(** How much of the ports a mode shows. *)
Definition detail (m : RenderMode) : nat :=
  match m with
  | hidden => 0
  | grouped => 1
  | individual => 2
  end.

End PortOptions.

(* ================================================================== *)
(** * Device utilities: getDeviceDisplayName *)
(* ================================================================== *)

Module DisplayName.
Local Open Scope string_scope.

(** The fields of a placed device that the display name reads; [name]
    is optional. *)
Record PlacedDevice : Type := {
  name : option string;
  device_type : string
}.

(** The fields of a device type that the display name reads; [model]
    and [manufacturer] are optional. *)
Record DeviceType : Type := {
  slug : string;
  model : option string;
  manufacturer : option string
}.

(** The truth value of an optional string: [undefined] and the empty
    string are falsy. *)
Definition truthy (s : option string) : bool :=
  match s with
  | Some (String _ _) => true
  | _ => false
  end.

(** The string of an optional string that is there. *)
Definition text (s : option string) : string :=
  match s with
  | Some t => t
  | None => ""
  end.

Definition getDeviceDisplayName (placed : PlacedDevice)
           (deviceLibrary : list DeviceType) : string :=
  if truthy (name placed) then text (name placed)
  else
    match JsArray.find (fun d => String.eqb (slug d) (device_type placed))
                       deviceLibrary with
    | Some deviceType =>
        if truthy (model deviceType) then text (model deviceType)
        else if truthy (manufacturer deviceType)
             then text (manufacturer deviceType)
             else device_type placed
    | None => device_type placed
    end.

(** The names a placed device can be shown under: its own name, the
    model and the manufacturer of a library entry of its type, and the
    slug of its type. *)
Definition candidate (placed : PlacedDevice) (deviceLibrary : list DeviceType)
           (shown : string) : Prop :=
  name placed = Some shown
  \/ (exists d, In d deviceLibrary /\ slug d = device_type placed
                /\ (model d = Some shown \/ manufacturer d = Some shown))
  \/ shown = device_type placed.

End DisplayName.

(* ================================================================== *)
(** * lib/utils/buildTime.ts *)
(* ================================================================== *)

Module BuildTime.
Import JsNum.
Local Open Scope string_scope.
Local Open Scope num_scope.

(** [`${n}`] for a number without a fractional part and below 10^21,
    which is what [Math.floor] gives on the difference of two dates. *)
Definition toString (n : num) : string :=
  match n with
  | NaN => "NaN"
  | PInf => "Infinity"
  | NInf => "-Infinity"
  | NZero => "0"
  | Fin q => NilZero.string_of_int (Z.to_int (Qfloor q))
  end.

Definition STALE_THRESHOLD_MS : num := 60 * 60 * 1000.

(** A [Date] is its time value [getTime()]: milliseconds since the
    epoch, NaN for an invalid date.  A build time given as a string is
    first made a [Date]; the functions are modelled from there. *)
Definition Date : Type := num.

Definition formatRelativeTime (buildDate now : Date) : string :=
  let diffMs := now - buildDate in
  if diffMs <? 0 then "0s"
  else
    let seconds := floor (diffMs / 1000) in
    let minutes := floor (seconds / 60) in
    let hours := floor (minutes / 60) in
    let days := floor (hours / 24) in
    if days >? 0 then toString days ++ "d"
    else if hours >? 0 then toString hours ++ "h"
    else if minutes >? 0 then toString minutes ++ "m"
    else toString seconds ++ "s".

(** The time value of a valid date: whole milliseconds, at most
    8.64e15 from the epoch. *)
Definition timeValue (t : Z) : Prop := (Z.abs t <= 8640000000000000)%Z.

(** [diffMs >= thresholdMs] *)
Definition isBuildStale (buildDate now : Date) (thresholdMs : num) : bool :=
  let diffMs := now - buildDate in
  le thresholdMs diffMs.

(** The whole number of units of [ms] milliseconds in [d]. *)
Definition units (ms : Z) (d : Q) : Z := Qfloor (d / inject_Z ms).

(** A count with its unit letter. *)
Definition shown (count : Z) (unit : string) : string :=
  NilZero.string_of_int (Z.to_int count) ++ unit.

End BuildTime.

(* ================================================================== *)
(** * The placement store *)
(* ================================================================== *)

Module PlacementStore.

(** ["front" | "rear" | "both"] *)
Inductive DeviceFace : Type := front | rear | both.

Section Store.

Variable DeviceType : Type.

(** The three reactive variables of the store. *)
Record State : Type := {
  isPlacing : bool;
  pendingDevice : option DeviceType;
  targetFace : DeviceFace
}.

(** The state at module load. *)
Definition initial : State :=
  {| isPlacing := false; pendingDevice := None; targetFace := front |}.

(** [startPlacement(device, face = "front")] *)
Definition startPlacement (device : DeviceType) (face : option DeviceFace)
           (s : State) : State :=
  {| isPlacing := true;
     pendingDevice := Some device;
     targetFace := match face with Some f => f | None => front end |}.

Definition cancelPlacement (s : State) : State :=
  {| isPlacing := false; pendingDevice := None; targetFace := front |}.

Definition completePlacement (s : State) : State :=
  {| isPlacing := false; pendingDevice := None; targetFace := front |}.

Definition setTargetFace (face : DeviceFace) (s : State) : State :=
  {| isPlacing := isPlacing s;
     pendingDevice := pendingDevice s;
     targetFace := face |}.

Definition resetPlacementStore (s : State) : State :=
  {| isPlacing := false; pendingDevice := None; targetFace := front |}.

(** A call of one of the functions of the store. *)
Inductive call : Type :=
| StartPlacement (device : DeviceType) (face : option DeviceFace)
| CancelPlacement
| CompletePlacement
| SetTargetFace (face : DeviceFace)
| ResetPlacementStore.

Definition step (s : State) (c : call) : State :=
  match c with
  | StartPlacement device face => startPlacement device face s
  | CancelPlacement => cancelPlacement s
  | CompletePlacement => completePlacement s
  | SetTargetFace face => setTargetFace face s
  | ResetPlacementStore => resetPlacementStore s
  end.

(** The state after a sequence of calls. *)
Definition run (calls : list call) : State := fold_left step calls initial.

(** Placing goes with a pending device. *)
Definition consistent (s : State) : Prop :=
  (isPlacing s = true <-> pendingDevice s <> None)
  /\ (isPlacing s = false -> pendingDevice s = None).

End Store.

End PlacementStore.

(* ================================================================== *)
(** * scripts/isometric-poc.ts, second version (renderLegend) *)
(* ================================================================== *)

Module IsoLegend.
Import JsNum JsString Svg IsoPoc.
Local Open Scope string_scope.
Local Open Scope num_scope.

Definition LEGEND_ITEM_HEIGHT : num := 24.

(** [[...new Set(l)]]: the distinct values of [l] in the order of their
    first occurrence; [seen] holds the values already in the set. *)
Fixpoint distinct (seen l : list string) : list string :=
  match l with
  | [] => []
  | x :: l' =>
      if existsb (String.eqb x) seen then distinct seen l'
      else x :: distinct (x :: seen) l'
  end.

(** [l.filter(Boolean)] on the results of [find]. *)
Fixpoint defined {A : Type} (l : list (option A)) : list A :=
  match l with
  | [] => []
  | Some a :: l' => a :: defined l'
  | None :: l' => defined l'
  end.

(** [[...new Set(rack.devices.map((d) => d.device_type))]] *)
Definition usedSlugs (rack : Rack) : list string :=
  distinct [] (map device_type (devices rack)).

(** [usedSlugs.map((slug) => devices.find((d) => d.slug === slug))
    .filter(Boolean)] *)
Definition usedDevices (rack : Rack) (devices : list Device) : list Device :=
  defined
    (map (fun s => JsArray.find (fun d => String.eqb (slug d) s) devices)
         (usedSlugs rack)).

Section Legend.

(** [String(n)] of a number, for the text of the category line. *)
Variable toString : num -> string.

Definition SYSTEM_UI : string := "system-ui, sans-serif".

(** The code units of the one-character strings [U+00BD] and
    [U+00B7]. *)
Definition ONE_HALF : string := String (ascii_of_nat 189) "".
Definition MIDDLE_DOT : string := String (ascii_of_nat 183) "".

(** The elements that one iteration of the loop of [renderLegend]
    appends. *)
Definition legendItem (device : Device) (itemY : num) : list element :=
  let swatch :=
    Elem "rect"
      [("x", VStr "0"); ("y", VNum itemY); ("width", VStr "16");
       ("height", VStr "16"); ("fill", VStr (colour device));
       ("rx", VStr "2")] None in
  let halfIndicator :=
    Elem "text"
      [("x", VStr "8"); ("y", VNum (itemY + 12)); ("fill", VStr "#fff");
       ("font-size", VStr "8"); ("font-family", VStr SYSTEM_UI);
       ("text-anchor", VStr "middle"); ("font-weight", VStr "bold")]
      (Some ONE_HALF) in
  let name :=
    Elem "text"
      [("x", VStr "22"); ("y", VNum (itemY + 12)); ("fill", VStr DARK_TEXT);
       ("font-size", VStr "11"); ("font-family", VStr SYSTEM_UI)]
      (Some (model device)) in
  let category :=
    Elem "text"
      [("x", VStr "22"); ("y", VNum (itemY + 24)); ("fill", VStr DARK_TEXT);
       ("font-size", VStr "9"); ("font-family", VStr SYSTEM_UI);
       ("opacity", VStr "0.6")]
      (Some (toString (u_height device) ++ "U " ++ MIDDLE_DOT ++ " "
             ++ IsoPoc.category device)) in
  (swatch :: (if is_full_depth device then [] else [halfIndicator])
   ++ [name; category])%list.

(** The loop [for (const device of usedDevices)], from [itemY]. *)
Fixpoint legendItems (usedDevices : list Device) (itemY : num)
  : list element :=
  match usedDevices with
  | [] => []
  | device :: rest =>
      (legendItem device itemY
       ++ legendItems rest (itemY + (LEGEND_ITEM_HEIGHT + 8)))%list
  end.

(** [renderLegend(document, svg, x, y, rack, devices)]: the group
    appended to [svg]. *)
Definition renderLegend (x y : num) (rack : Rack) (devices : list Device)
  : group :=
  let title :=
    Elem "text"
      [("x", VStr "0"); ("y", VStr "15"); ("fill", VStr DARK_TEXT);
       ("font-size", VStr "13"); ("font-family", VStr SYSTEM_UI);
       ("font-weight", VStr "bold")]
      (Some "Devices") in
  Group [("transform", VTranslate x y)]
        (title :: legendItems (usedDevices rack devices) 35).

End Legend.

(** The swatches of a legend: its rectangles, in order. *)
Definition swatches (g : group) : list element :=
  filter (fun e => String.eqb (tag e) "rect") (children g).

End IsoLegend.

(* ================================================================== *)
(** * scripts/performance-benchmark.ts *)
(* ================================================================== *)

Module Benchmark.
Import JsNum.
Local Open Scope string_scope.
Local Open Scope num_scope.

(** A call returns, or throws the TypeError of a property read on
    [undefined]. *)
Inductive result (A : Type) : Type :=
| Ok (a : A)
| TypeError.

Arguments Ok {A} a.
Arguments TypeError {A}.

(** [`${n}`] for a counter. *)
Definition decimal (n : nat) : string :=
  NilZero.string_of_uint (Nat.to_uint n).

Record Interface : Type := {
  name : string;
  type : string;
  mgmt_only : bool
}.

(** The fields of a device type that the generators set; [interfaces]
    is there only for a positive port count. *)
Record DeviceType : Type := {
  slug : string;
  manufacturer : string;
  model : string;
  u_height : num;
  is_full_depth : bool;
  colour : string;
  category : string;
  airflow : string;
  interfaces : option (list Interface)
}.

Record PlacedDevice : Type := {
  id : string;
  device_type : string;
  position : num;
  face : string
}.

Record Rack : Type := {
  rack_id : string;
  rack_name : string;
  height : num;
  width : num;
  desc_units : bool;
  show_rear : bool;
  form_factor : string;
  starting_unit : num;
  rack_position : num;
  devices : list PlacedDevice
}.

(** [generateDeviceType(index, portCount = 0)] for counters. *)
Definition generateDeviceType (index portCount : nat) : DeviceType :=
  let interfaces :=
    map (fun i =>
           {| name := "eth" ++ decimal i;
              type := if (i <? 2)%nat then "10gbase-x-sfpp" else "1000base-t";
              mgmt_only := (i =? 0)%nat |})
        (List.seq 0 portCount) in
  {| slug := "test-device-" ++ decimal index;
     manufacturer := "Test Vendor";
     model := "Test Server " ++ decimal index;
     u_height := 2;
     is_full_depth := true;
     colour := "#4A5568";
     category := "server";
     airflow := "front-to-rear";
     interfaces := if (0 <? portCount)%nat then Some interfaces else None |}.

Section Placing.

Variable rackHeight : num.
Variable deviceTypes : list DeviceType.

(** The loop of [generatePlacedDevices] from the counter [i], with
    [remaining = count - i] iterations to go at most. *)
Fixpoint placeFrom (remaining i : nat) (currentU : num)
  : result (list PlacedDevice) :=
  match remaining with
  | O => Ok []
  | S remaining' =>
      if le currentU (rackHeight - 1) then
        match nth_error deviceTypes (i mod List.length deviceTypes) with
        | None => TypeError
        | Some deviceType =>
            match placeFrom remaining' (S i)
                            (currentU + u_height deviceType) with
            | TypeError => TypeError
            | Ok rest =>
                Ok ({| id := "placed-" ++ decimal i;
                       device_type := slug deviceType;
                       position := currentU;
                       face := "front" |} :: rest)
            end
        end
      else Ok []
  end.

End Placing.

(** [generatePlacedDevices(count, rackHeight, deviceTypes)] for a
    counter [count]. *)
Definition generatePlacedDevices (count : nat) (rackHeight : num)
           (deviceTypes : list DeviceType) : result (list PlacedDevice) :=
  placeFrom rackHeight deviceTypes count 0 1.

(** [generateTestRack(deviceCount, portsPerDevice)]: [{ rack,
    deviceTypes }]. *)
Definition generateTestRack (deviceCount portsPerDevice : nat)
  : result (Rack * list DeviceType) :=
  let rackHeight := 42 in
  let deviceTypes :=
    map (fun i => generateDeviceType i portsPerDevice)
        (List.seq 0 deviceCount) in
  match generatePlacedDevices deviceCount rackHeight deviceTypes with
  | TypeError => TypeError
  | Ok devices =>
      Ok ({| rack_id := "test-rack";
             rack_name := "Performance Test Rack";
             height := rackHeight;
             width := 19;
             desc_units := false;
             show_rear := false;
             form_factor := "4-post";
             starting_unit := 1;
             rack_position := 0;
             devices := devices |},
          deviceTypes)
  end.

End Benchmark.

(* ================================================================== *)
(** * Vocabulary of the properties *)
(* ================================================================== *)

Module Colour.

Import JsString.
Local Open Scope string_scope.

Definition is_hex_digit (c : ascii) : bool :=
  match hex_digit_val c with
  | Some _ => true
  | None => false
  end.

Definition digit (c : ascii) : Z :=
  match hex_digit_val c with
  | Some d => d
  | None => 0
  end.

(** A well-formed colour: [#] and six hexadecimal digits. *)
Definition is_hex_colour (s : string) : bool :=
  match s with
  | String "#" (String a (String b (String c (String d (String e
      (String f EmptyString)))))) =>
      forallb is_hex_digit [a; b; c; d; e; f]
  | _ => false
  end.

(** The value of the two digits at offset [i] after the [#]. *)
Definition channel (i : nat) (s : string) : Z :=
  match get (S i) s, get (S (S i)) s with
  | Some a, Some b => 16 * digit a + digit b
  | _, _ => 0
  end.

Definition red (s : string) : Z := channel 0 s.
Definition green (s : string) : Z := channel 2 s.
Definition blue (s : string) : Z := channel 4 s.

End Colour.

Module Scene.

Import JsNum IsoPoc.

(** The placed devices that [renderRack] draws, each with its device
    type, in the order it draws them. *)
Fixpoint resolve (devices : list Device) (l : list PlacedDevice)
  : list (PlacedDevice * Device) :=
  match l with
  | [] => []
  | placedDevice :: rest =>
      match findDevice devices placedDevice with
      | None => resolve devices rest
      | Some device => (placedDevice, device) :: resolve devices rest
      end
  end.

(** The type of a placed device is in the library. *)
Definition found (devices : list Device) (placedDevice : PlacedDevice)
  : bool :=
  match findDevice devices placedDevice with
  | Some _ => true
  | None => false
  end.

Definition paintOrder (rack : Rack) (devices : list Device)
  : list (PlacedDevice * Device) :=
  resolve devices (sortedDevices rack).

(** The elements drawn for one placed device. *)
Definition elementsOf (rack : Rack) (entry : PlacedDevice * Device)
  : list Svg.element :=
  match deviceElements rack (fst entry) (snd entry) with
  | Returns es => es
  | Throws _ => []
  end.

(** The device elements of a rack view, in the order they are
    appended. *)
Definition drawn (rack : Rack) (devices : list Device) : list Svg.element :=
  flat_map (elementsOf rack) (paintOrder rack devices).

(** The rectangle of the front face of a placed device. *)
Definition frontFace (rack : Rack) (placedDevice : PlacedDevice)
           (device : Device) : option Svg.element :=
  match deviceElements rack placedDevice device with
  | Returns [_; _; deviceRect] => Some deviceRect
  | _ => None
  end.

(** The key the devices are sorted by. *)
Definition paintKey (entry : PlacedDevice * Device) : Q :=
  val (position (fst entry)).

(** The rack of the scenario: 42 units, one device of two units at
    position 1. *)
Definition ups2u : Device :=
  mkDevice "ups" "UPS" "power" "#e74c3c" 2%num true.

Definition rack42 : Rack :=
  {| name := "Rack"; height := 42%num; devices := [place "ups" 1%num] |}.

(** A rack of 24 units with the same device placed at position 24: its
    top unit would be 25. *)
Definition rack24 : Rack :=
  {| name := "Rack"; height := 24%num; devices := [place "ups" 24%num] |}.

(** The top unit [position + u_height - 1] of a placement lies above
    the declared height of the rack. *)
Definition exceedsRack (rack : Rack) (placedDevice : PlacedDevice)
           (device : Device) : bool :=
  gt (sub (add (position placedDevice) (u_height device)) 1%num)
     (height rack).

End Scene.

Module Uuid.

Import DeviceUtils.
Local Open Scope string_scope.




(** All values of a byte. *)
Definition all_bytes : list Z := map Z.of_nat (List.seq 0 256).




End Uuid.

Module Ports.

Import JsNum PortLayout.
Local Open Scope string_scope.
Local Open Scope num_scope.

(** The [mode] field of a result. *)
Definition mode (r : PortLayoutResult) : string :=
  match r with
  | hidden => "hidden"
  | grouped _ => "grouped"
  | individual _ _ _ _ _ => "individual"
  end.

(** The rows that fit the height of the device. *)
Definition maxRows (deviceHeight : num) : num :=
  floor ((deviceHeight - PORT_Y_OFFSET) / (PORT_RADIUS_DEFAULT * 2 + 2)).

(** The test of step 3: the ports of a row at the default radius and
    minimum spacing are wider than the device, below the detail zoom. *)
Definition needsGrouping (deviceWidth deviceHeight portCount zoom : num)
  : bool :=
  (ceil (portCount / maxRows deviceHeight)
   * (PORT_RADIUS_DEFAULT * 2 + PORT_SPACING_MIN) >? deviceWidth)
  && (zoom <? Fin (3 # 2)).

(** The rows of step 4. *)
Definition optimalRows (deviceWidth deviceHeight portCount : num) : num :=
  min (maxRows deviceHeight) (ceil (portCount / floor (deviceWidth / 8))).

(** A device with [n] interfaces, the [i]-th being [f i]. *)
Definition ports (f : nat -> InterfaceTemplate) (n : nat)
  : list InterfaceTemplate :=
  map f (List.seq 0 n).

(** A gigabit copper port. *)
Definition copper (i : nat) : InterfaceTemplate :=
  {| iname := "eth"; itype := "1000base-t"; mgmt_only := false |}.

End Ports.

Module Value.
Import JsNum.
(** [a] is a finite number, one of the zeros included, of value [q]. *)
Definition evaluates (a : num) (q : Q) : Prop :=
  is_finite a = true /\ (val a == q)%Q.
End Value.

Module Shade.
Import JsNum.
Local Open Scope Q_scope.
(** A channel scaled toward black by [p] percent, rounded. *)
Definition darkened (c : Z) (p : Q) : Z :=
  Qfloor (inject_Z c * (1 - p / 100) + (1 # 2)).
(** A channel moved toward 255 by [p] percent, rounded. *)
Definition lightened (c : Z) (p : Q) : Z :=
  Qfloor (inject_Z c + (255 - inject_Z c) * (p / 100) + (1 # 2)).
(** The three offsets of the channels after the [#]. *)
Definition is_channel (i : nat) : Prop := i = 0%nat \/ i = 2%nat \/ i = 4%nat.
(** [c.toLowerCase()] on a code unit below 128. *)
Definition lower (c : ascii) : ascii :=
  let n := nat_of_ascii c in
  if (65 <=? n)%nat && (n <=? 90)%nat then ascii_of_nat (n + 32) else c.
(** [s.toLowerCase()] *)
Fixpoint toLowerCase (s : string) : string :=
  match s with
  | EmptyString => EmptyString
  | String c s' => String (lower c) (toLowerCase s')
  end.
End Shade.

(** The HSL coordinates of a colour and the colour of HSL coordinates,
    in exact arithmetic: what converting to HSL and back means in the
    specification. *)
Module HslMath.

Import Colour.
Local Open Scope string_scope.
Local Open Scope Q_scope.












End HslMath.

Module Shade64.

Import JsNum PrimFloat Binary64.
Local Open Scope float_scope.

(** The channel [c] darkened by [p] per cent, as the second version
    computes it. *)
Definition darkened (c p : Z) : integral :=
  round (of_Z c * (1 - of_Z p / 100)).

(** The channel [c] lightened by [p] per cent. *)
Definition lightened (c p : Z) : integral :=
  round (of_Z c + (255 - of_Z c) * (of_Z p / 100)).

(** [n] is an integer nearest to [x]: either neighbour at a tie. *)
Definition nearestTo (x : Q) (n : Z) : Prop :=
  (Qabs (inject_Z n - x) <= 1 # 2)%Q.

(** The whole percentages. *)
Definition percentages : list Z := map Z.of_nat (List.seq 0 101).

(** Both shadings of the channel [c] by [p] per cent are integers
    within 0 .. 255, on their side of [c], and nearest to the exact
    values. *)
Definition shaded (c p : Z) : bool :=
  match darkened c p, lightened c p with
  | IInt d, IInt l =>
      (0 <=? d)%Z && (d <=? c)%Z && (c <=? l)%Z && (l <=? 255)%Z
      && (Z.abs (100 * d - c * (100 - p)) <=? 50)%Z
      && (Z.abs (100 * l - (100 * c + (255 - c) * p)) <=? 50)%Z
  | _, _ => false
  end.


End Shade64.

Module Hue.
Import JsNum.
Local Open Scope Q_scope.

(** The hue [hq] that [hexToHsl] gives to channels [pr], [pg], [pb]
    whose greatest is [mx] and whose least is [mn]: 0 for a grey, and
    otherwise sixty times the offset of the greatest channel plus the
    ratio [t] of a difference of the two others to [mx - mn]. *)
Definition hueCase (pr pg pb mx mn hq : Q) : Prop :=
  (mx == mn /\ hq == 0)
  \/ exists t,
      mn < mx /\ -1 <= t <= 1
      /\ ((mx == pr /\ pg < pb /\ t < 0
           /\ (mx - mn) * t == pg - pb /\ hq == 60 * (t + 6))
          \/ (mx == pr /\ pb <= pg /\ 0 <= t
              /\ (mx - mn) * t == pg - pb /\ hq == 60 * t)
          \/ (mx == pg /\ (mx - mn) * t == pb - pr /\ hq == 60 * (t + 2))
          \/ (mx == pb /\ (mx - mn) * t == pr - pg /\ hq == 60 * (t + 4))).

(** The three channels of [hslToHex] before the shift by [m], by the
    sector of the hue: the chroma [cq], the second component in closed
    form, and 0. *)
Definition sectorChannels (hq cq : Q) : Q * Q * Q :=
  if Qltb hq 60 then (cq, cq * (hq / 60), 0)
  else if Qltb hq 120 then (cq * (2 - hq / 60), cq, 0)
  else if Qltb hq 180 then (0, cq, cq * (hq / 60 - 2))
  else if Qltb hq 240 then (0, cq * (4 - hq / 60), cq)
  else if Qltb hq 300 then (cq * (hq / 60 - 4), 0, cq)
  else (cq, 0, cq * (6 - hq / 60)).

(** A channel fraction shifted by [mq], scaled to 255 and rounded. *)
Definition rounded (v mq : Q) : Z := Qfloor ((v + mq) * 255 + (1 # 2)).

End Hue.

Module Box.
Import JsNum Svg IsoPoc.
Local Open Scope string_scope.
Local Open Scope Q_scope.

(** The number that an attribute holds. *)
Definition numAttr (k : string) (e : element) : num :=
  match attr k e with
  | Some (VNum n) => n
  | _ => NaN
  end.

(** The edges of a rectangle. *)
Definition leftEdge (e : element) : Q := val (numAttr "x" e).
Definition rightEdge (e : element) : Q :=
  val (numAttr "x" e) + val (numAttr "width" e).
Definition topEdge (e : element) : Q := val (numAttr "y" e).
Definition bottomEdge (e : element) : Q :=
  val (numAttr "y" e) + val (numAttr "height" e).

(** The rectangle of the rack interior, the third element of the
    frame. *)
Definition interior (rack : Rack) : option element :=
  match rackFrame rack with
  | Returns [_; _; box; _; _; _; _] => Some box
  | _ => None
  end.

(** The units [position .. position + u_height - 1] of a placement lie
    within the rack. *)
Definition withinRack (h p u : Q) : Prop := 1 <= p /\ p + u - 1 <= h.
End Box.

Module Grid.
Import JsNum PortLayout.
Local Open Scope Q_scope.

(** How much of the ports a result shows. *)
Definition detail (r : PortLayoutResult) : nat :=
  match r with
  | hidden => 0
  | grouped _ => 1
  | individual _ _ _ _ _ => 2
  end.

(** The squared distance of the centres of two ports. *)
Definition distance2 (a b : PortPosition) : Q :=
  (val (x a) - val (x b)) * (val (x a) - val (x b))
  + (val (y a) - val (y b)) * (val (y a) - val (y b)).

End Grid.

Module UuidBits.
Import JsString DeviceUtils.
Local Open Scope string_scope.
Local Open Scope Z_scope.

(** The sixteen bytes of the fallback after the version and the variant
    are set. *)
Definition finalBytes (c : Crypto) : Uint8Array :=
  let bytes := getRandomValues c 16 in
  let bytes := store 6 (Z.lor (Z.land (load 6 bytes) 15) 64) bytes in
  store 8 (Z.lor (Z.land (load 8 bytes) 63) 128) bytes.

(** The bits of the byte of index [i] that the fallback keeps: the low
    four of byte 6, the low six of byte 8, all eight of the others. *)
Definition freeBits (i : nat) : Z :=
  match i with
  | 6%nat => 15
  | 8%nat => 63
  | _ => 255
  end.

Definition randomBits (c : Crypto) (i : nat) : Z :=
  Z.land (randomByte c i) (freeBits i).

(** The identifier that the fallback prints from its sixteen bytes. *)
Definition print (bytes : Uint8Array) : string :=
  let hex := join (map byteToHex bytes) in
  slice 0 8 hex ++ "-" ++ slice 8 12 hex ++ "-"
  ++ slice 12 16 hex ++ "-" ++ slice 16 20 hex ++ "-"
  ++ slice_from 20 hex.

(** The bytes that a string of hexadecimal digits spells, two digits a
    byte. *)
Fixpoint hexBytes (s : string) : list Z :=
  match s with
  | String a (String b r) => (16 * Colour.digit a + Colour.digit b) :: hexBytes r
  | _ => []
  end.

(** The bytes of an identifier: its hyphens, at their four places, are
    left out. *)
Definition idBytes (id : string) : list Z :=
  hexBytes (slice 0 8 id ++ slice 9 13 id ++ slice 14 18 id
            ++ slice 19 23 id ++ slice_from 24 id).

(** A platform without [randomUUID] whose random bytes are all [b]. *)
Definition constantCrypto (b : Z) : Crypto :=
  {| randomUUID := None; randomByte := fun _ => b |}.

End UuidBits.

(* ================================================================== *)
(** * Properties *)
(* ================================================================== *)

(** ** Facts about numbers *)

Section NumFacts.
Import JsNum.
Local Open Scope Q_scope.

(** The special cases of the arithmetic, as the language has them. *)
Lemma arithmetic_examples :
  div 1%num 0%num = PInf
  /\ div (neg 1%num) 0%num = NInf
  /\ div 1%num NZero = NInf
  /\ div 0%num 0%num = NaN
  /\ sub PInf PInf = NaN
  /\ mul 0%num PInf = NaN
  /\ mul (neg 2%num) 0%num = NZero
  /\ add NZero 0%num = 0%num
  /\ rem 5%num 3%num = 2%num
  /\ rem (neg 5%num) 3%num = neg 2%num
  /\ rem 5%num PInf = 5%num
  /\ rem 5%num 0%num = NaN
  /\ floor (Fin (-1 # 2)) = neg 1%num
  /\ ceil (Fin (-1 # 2)) = NZero
  /\ round (Fin (5 # 2)) = IInt 3
  /\ round (Fin (-5 # 2)) = IInt (-2)
  /\ max NaN 1%num = NaN
  /\ max NZero 0%num = 0%num
  /\ min 0%num NZero = NZero
  /\ lt NaN 1%num = false
  /\ sneq NaN NaN = true
  /\ seq NZero 0%num = true.
Proof. repeat split. Qed.

Lemma represents_Fin q : represents (Fin q) q.
Proof. exists q. split; [reflexivity | apply Qeq_refl]. Qed.

Lemma Qltb_true p q : Qltb p q = true <-> p < q.
Proof.
  unfold Qltb. rewrite negb_true_iff. split; intro H.
  - apply Qnot_le_lt. intro L. apply Qle_bool_iff in L. congruence.
  - destruct (Qle_bool q p) eqn:E; [|reflexivity].
    apply Qle_bool_iff in E. exfalso. apply (Qlt_not_le _ _ H E).
Qed.

Lemma Qltb_false p q : Qltb p q = false <-> q <= p.
Proof.
  unfold Qltb. rewrite negb_false_iff. apply Qle_bool_iff.
Qed.

Lemma add_represents a b p q :
  represents a p -> represents b q -> represents (add a b) (p + q).
Proof.
  intros (r & -> & Hr) (t & -> & Ht). exists (Qred (r + t)). split.
  - reflexivity.
  - rewrite Qred_correct, Hr, Ht. reflexivity.
Qed.

Lemma neg_cases q :
  neg (Fin q) = NZero /\ q == 0 \/ represents (neg (Fin q)) (- q).
Proof.
  unfold neg, sfin. destruct (Qeq_bool (- q) 0) eqn:E.
  - apply Qeq_bool_iff in E.
    assert (Hq : q == 0).
    { rewrite <- (Qopp_involutive q), E. reflexivity. }
    destruct (Qltb q 0) eqn:L; simpl.
    + apply Qltb_true in L. rewrite Hq in L. discriminate L.
    + left. split; [reflexivity | exact Hq].
  - right. exists (Qred (- q)). split; [reflexivity | apply Qred_correct].
Qed.

Lemma sub_represents a b p q :
  represents a p -> represents b q -> represents (sub a b) (p - q).
Proof.
  intros (r & -> & Hr) (t & -> & Ht). unfold sub.
  destruct (neg_cases t) as [[-> Hz] | (u & -> & Hu)].
  - exists (Qred r). split; [reflexivity|].
    rewrite Qred_correct, Hr, <- Ht, Hz. unfold Qminus. 
    rewrite Qplus_0_r. reflexivity.
  - exists (Qred (r + u)). split; [reflexivity|].
    rewrite Qred_correct, Hr, Hu, Ht. reflexivity.
Qed.

Lemma mul_represents_pos a b p q :
  represents a p -> represents b q -> 0 < q ->
  represents (mul a b) (p * q).
Proof.
  intros (r & -> & Hr) (t & -> & Ht) Hq. unfold mul. simpl.
  unfold sfin. destruct (Qeq_bool (r * t) 0) eqn:E.
  - apply Qeq_bool_iff in E.
    assert (Lt : Qltb t 0 = false).
    { apply Qltb_false. rewrite Ht. apply Qlt_le_weak, Hq. }
    assert (Hr0 : r == 0).
    { apply Qmult_integral in E. destruct E as [E | E]; [exact E|].
      rewrite Ht in E. rewrite E in Hq. discriminate Hq. }
    assert (Lr : Qltb r 0 = false).
    { apply Qltb_false. rewrite Hr0. apply Qle_refl. }
    rewrite Lt, Lr. simpl. exists 0. split; [reflexivity|].
    rewrite <- Hr, Hr0. ring.
  - exists (Qred (r * t)). split; [reflexivity|].
    rewrite Qred_correct, Hr, Ht. reflexivity.
Qed.

Lemma finite_neg a :
  is_finite a = true -> is_finite (neg a) = true /\ val (neg a) == - val a.
Proof.
  destruct a as [| | | |q]; try discriminate; intros _.
  - split; reflexivity.
  - unfold neg, sfin. destruct (Qeq_bool (- q) 0) eqn:E.
    + apply Qeq_bool_iff in E.
      destruct (negb (Qltb q 0)); cbn [zero is_finite val];
        (split; [reflexivity | symmetry; exact E]).
    + cbn [is_finite val]. split; [reflexivity | apply Qred_correct].
Qed.

Lemma finite_add a b :
  is_finite a = true -> is_finite b = true ->
  is_finite (add a b) = true /\ val (add a b) == val a + val b.
Proof.
  destruct a as [| | | |p]; try discriminate;
    destruct b as [| | | |q]; try discriminate; intros _ _;
    cbn [add fin is_finite val];
    (split; [reflexivity|]); rewrite ?Qred_correct; ring.
Qed.

Lemma finite_sub a b :
  is_finite a = true -> is_finite b = true ->
  is_finite (sub a b) = true /\ val (sub a b) == val a - val b.
Proof.
  intros Ha Hb. destruct (finite_neg b Hb) as [Hn Hv].
  destruct (finite_add a (neg b) Ha Hn) as [Hs Hw].
  split; [exact Hs|]. unfold sub. rewrite Hw, Hv. reflexivity.
Qed.

Lemma finite_cmp a b :
  is_finite a = true -> is_finite b = true ->
  cmp a b = Some (val a ?= val b).
Proof.
  destruct a as [| | | |p]; try discriminate;
    destruct b as [| | | |q]; try discriminate; reflexivity.
Qed.

Lemma finite_lt a b :
  is_finite a = true -> is_finite b = true ->
  (lt a b = true <-> val a < val b).
Proof.
  intros Ha Hb. unfold lt. rewrite (finite_cmp a b Ha Hb).
  rewrite Qlt_alt. destruct (val a ?= val b); split; congruence.
Qed.

Lemma finite_gt a b :
  is_finite a = true -> is_finite b = true ->
  (gt a b = true <-> val b < val a).
Proof.
  intros Ha Hb. unfold gt. rewrite (finite_cmp a b Ha Hb).
  rewrite Qgt_alt. destruct (val a ?= val b); split; congruence.
Qed.

(** The comparator [b - a] puts [x] after [y] exactly when [x] is below
    [y]. *)
Lemma descending_comparator a b :
  is_finite a = true -> is_finite b = true ->
  (gt (sub b a) 0%num = true <-> val a < val b).
Proof.
  intros Ha Hb. destruct (finite_sub b a Hb Ha) as [Hs Hv].
  rewrite (finite_gt (sub b a) 0%num Hs (eq_refl true)).
  change (val 0%num) with 0. rewrite Hv.
  split; intro H.
  - apply Qlt_minus_iff. exact H.
  - apply -> Qlt_minus_iff. exact H.
Qed.
End NumFacts.

(** ** Lists and sorting *)

Section SortFacts.
Import JsNum JsArray.
Local Open Scope Q_scope.

Variable A : Type.
Variable comparefn : A -> A -> num.
Variable key : A -> Q.

Lemma insert_Permutation x l : Permutation (insert comparefn x l) (x :: l).
Proof.
  induction l as [|y l IH]; cbn [insert].
  - apply Permutation_refl.
  - destruct (gt (comparefn x y) 0%num).
    + eapply Permutation_trans; [apply perm_skip, IH | apply perm_swap].
    + apply Permutation_refl.
Qed.

Lemma sort_Permutation l : Permutation (sort comparefn l) l.
Proof.
  induction l as [|x l IH]; cbn [sort fold_right].
  - apply Permutation_refl.
  - eapply Permutation_trans; [apply insert_Permutation|].
    apply perm_skip, IH.
Qed.

Lemma insert_sorted x l :
  (forall y, In y l -> (gt (comparefn x y) 0%num = true <-> key x < key y)) ->
  StronglySorted (above key) l ->
  StronglySorted (above key) (insert comparefn x l).
Proof.
  intros Hc Hs. induction Hs as [|y l Hs IH Hy]; cbn [insert].
  - constructor; constructor.
  - destruct (gt (comparefn x y) 0%num) eqn:E.
    + constructor.
      * apply IH. intros z Hz. apply Hc. right. exact Hz.
      * apply (Permutation_Forall (Permutation_sym (insert_Permutation x l))).
        constructor; [|exact Hy].
        unfold above. apply Qlt_le_weak. apply Hc; [left; reflexivity | exact E].
    + assert (Hxy : key y <= key x).
      { apply Qnot_lt_le. intro L. apply Hc in L; [|left; reflexivity].
        congruence. }
      constructor; [constructor; assumption|].
      constructor; [exact Hxy|].
      eapply Forall_impl; [|exact Hy]. intros z Hz. unfold above in *.
      eapply Qle_trans; eassumption.
Qed.

Lemma sort_sorted l :
  descending_on comparefn key l ->
  StronglySorted (above key) (sort comparefn l).
Proof.
  induction l as [|x l IH]; intros Hd; cbn [sort fold_right].
  - constructor.
  - apply insert_sorted.
    + intros y Hy. apply Hd; [left; reflexivity|]. right.
      eapply Permutation_in; [apply sort_Permutation | exact Hy].
    + apply IH. intros a b Ha Hb. apply Hd; right; assumption.
Qed.
End SortFacts.

Section ListFacts.
Variable A : Type.

Lemma filter_Permutation (p : A -> bool) (l l' : list A) :
  Permutation l l' -> Permutation (filter p l) (filter p l').
Proof.
  induction 1 as [|x l l' _ IH|x y l|l l' l'' _ IH1 _ IH2]; cbn [filter].
  - apply perm_nil.
  - destruct (p x); [apply perm_skip|]; exact IH.
  - destruct (p x), (p y); try apply Permutation_refl. apply perm_swap.
  - eapply Permutation_trans; eassumption.
Qed.

Lemma StronglySorted_nth_error (R : A -> A -> Prop) (l : list A) :
  StronglySorted R l ->
  forall i j a b, (i < j)%nat ->
    nth_error l i = Some a -> nth_error l j = Some b -> R a b.
Proof.
  induction 1 as [|x l _ IH Hx]; intros i j a b Hij Ha Hb.
  - destruct i; discriminate.
  - destruct j as [|j]; [lia|]. cbn [nth_error] in Hb.
    destruct i as [|i].
    + injection Ha as <-. rewrite Forall_forall in Hx.
      apply Hx. eapply nth_error_In. exact Hb.
    + cbn [nth_error] in Ha. apply (IH i j); [lia | assumption | assumption].
Qed.
End ListFacts.

Section MapFacts.
Variables A B : Type.
Variable f : A -> outcome B.

Lemma mapM_Forall2 (l : list A) :
  (forall x, In x l -> exists y, f x = Returns y) ->
  exists ys, mapM f l = Returns ys
             /\ Forall2 (fun x y => f x = Returns y) l ys.
Proof.
  induction l as [|x l IH]; intros H.
  - exists []. split; [reflexivity | constructor].
  - destruct (H x (or_introl eq_refl)) as (y & Ey).
    destruct IH as (ys & E & F); [intros z Hz; apply H; right; exact Hz|].
    exists (y :: ys). split.
    + cbn [mapM]. rewrite Ey, E. reflexivity.
    + constructor; assumption.
Qed.
End MapFacts.

(** ** Colour shading *)

Section ColourFacts.
Import JsNum JsString Colour.
Local Open Scope string_scope.

(** [parseInt(s, 16)] and [toString(16)] on some strings and numbers. *)
Lemma parseInt16_examples :
  parseInt16 "ff" = 255%num
  /\ parseInt16 "7F" = 127%num
  /\ parseInt16 " f" = 15%num
  /\ parseInt16 "-1" = neg 1%num
  /\ parseInt16 "-0" = NZero
  /\ parseInt16 "0x" = NaN
  /\ parseInt16 "1z" = 1%num
  /\ parseInt16 "zz" = NaN
  /\ parseInt16 "" = NaN
  /\ padStart0 2 (toString16 (IInt 10)) = "0a"
  /\ padStart0 2 (toString16 (IInt 255)) = "ff"
  /\ padStart0 2 (toString16 (IInt 256)) = "100"
  /\ padStart0 2 (toString16 (IInt (-1))) = "-1"
  /\ padStart0 2 (toString16 INaN) = "NaN".
Proof. repeat split. Qed.

Lemma is_hex_digit_cases a :
  is_hex_digit a = true ->
  In a (list_ascii_of_string "0123456789abcdefABCDEF").
Proof.
  intros Ha.
  destruct a as [[] [] [] [] [] [] [] []]; try discriminate Ha;
    cbn; tauto.
Qed.

Lemma parseInt16_two_digits a b :
  is_hex_digit a = true -> is_hex_digit b = true ->
  parseInt16 (String a (String b "")) = of_Z (16 * digit a + digit b).
Proof.
  intros Ha Hb. apply is_hex_digit_cases in Ha, Hb. cbn in Ha, Hb.
  repeat (destruct Ha as [<- | Ha]; [
    repeat (destruct Hb as [<- | Hb]; [reflexivity|]); destruct Hb |]).
  destruct Ha.
Qed.

Lemma is_hex_colour_inv hex :
  is_hex_colour hex = true ->
  exists a b c d e f,
    hex = String "#" (String a (String b (String c (String d (String e
            (String f ""))))))
    /\ is_hex_digit a = true /\ is_hex_digit b = true
    /\ is_hex_digit c = true /\ is_hex_digit d = true
    /\ is_hex_digit e = true /\ is_hex_digit f = true.
Proof.
  intros H.
  destruct hex as [|c0 r]; [discriminate H|].
  destruct c0 as [[] [] [] [] [] [] [] []]; try discriminate H.
  destruct r as [|a [|b [|c [|d [|e [|f [|g r]]]]]]]; try discriminate H.
  exists a, b, c, d, e, f. split; [reflexivity|].
  cbn [is_hex_colour forallb] in H.
  repeat (apply andb_true_iff in H; destruct H as [? H]).
  repeat split; assumption.
Qed.
End ColourFacts.

Section ShadingFacts.
Import JsNum JsString Colour.
Local Open Scope string_scope.
Local Open Scope num_scope.
Local Open Scope outcome_scope.

Lemma hexToHsl_returns hex : exists c, HslPoc.hexToHsl hex = Returns c.
Proof.
  unfold HslPoc.hexToHsl.
  match goal with
  | |- context [match ?p with pair _ _ => _ end] => destruct p
  end.
  eexists. reflexivity.
Qed.

Lemma hslToHex_returns h s l : exists c, HslPoc.hslToHex h s l = Returns c.
Proof.
  unfold HslPoc.hslToHex.
  match goal with
  | |- context [match ?p with pair _ _ => _ end] => destruct p as [[? ?] ?]
  end.
  eexists. reflexivity.
Qed.

Lemma hsl_darkenColor_returns hex amount :
  exists c, HslPoc.darkenColor hex amount = Returns c.
Proof.
  unfold HslPoc.darkenColor.
  destruct (hexToHsl_returns hex) as (c & ->). cbn [bind].
  apply hslToHex_returns.
Qed.

Lemma hsl_lightenColor_returns hex amount :
  exists c, HslPoc.lightenColor hex amount = Returns c.
Proof.
  unfold HslPoc.lightenColor.
  destruct (hexToHsl_returns hex) as (c & ->). cbn [bind].
  apply hslToHex_returns.
Qed.

(** C9, as amended.  The shading functions of both versions of the
    script never signal an error: for every string, well-formed or not,
    and every amount they return a string. *)
Theorem shading_never_throws hex amount :
  (exists c, HslPoc.darkenColor hex amount = Returns c)
  /\ (exists c, HslPoc.lightenColor hex amount = Returns c)
  /\ (exists c, IsoPoc.darkenColor hex amount = Returns c)
  /\ (exists c, IsoPoc.lightenColor hex amount = Returns c).
Proof.
  split; [|split; [|split]].
  - apply hsl_darkenColor_returns.
  - apply hsl_lightenColor_returns.
  - unfold IsoPoc.darkenColor. eexists. reflexivity.
  - unfold IsoPoc.lightenColor. eexists. reflexivity.
Qed.

(** C9 as stated fails: [#zzzzzz] is malformed and both versions return
    a string for it. *)
Lemma shading_malformed_returns :
  is_hex_colour "#zzzzzz" = false
  /\ HslPoc.darkenColor "#zzzzzz" (Fin (1 # 4)) = Returns "#NaNNaNNaN"
  /\ HslPoc.lightenColor "#zzzzzz" (Fin (1 # 4)) = Returns "#NaNNaNNaN"
  /\ IsoPoc.darkenColor "#zzzzzz" 25 = Returns "#NaNNaNNaN"
  /\ HslPoc.darkenColor "#zzzzzz" (Fin (1 # 4)) <> Throws InvalidColorFormat.
Proof.
  repeat split; try (vm_compute; reflexivity). vm_compute. discriminate.
Defined.
End ShadingFacts.

(** ** The rack view *)

Section RenderRackFacts.
Import JsNum JsArray Svg IsoPoc Scene.
Local Open Scope string_scope.

Lemma rackFrame_returns rack : exists frame, rackFrame rack = Returns frame.
Proof.
  unfold rackFrame, darkenColor, lightenColor. cbn [bind].
  eexists. reflexivity.
Qed.

Lemma deviceElements_returns rack pd dev :
  exists sidePanel topPanel deviceRect,
    deviceElements rack pd dev = Returns [sidePanel; topPanel; deviceRect]
    /\ tag sidePanel = "polygon" /\ tag topPanel = "polygon"
    /\ tag deviceRect = "rect".
Proof.
  unfold deviceElements, darkenColor, lightenColor. cbn [bind].
  do 3 eexists. split; [reflexivity|]. repeat split.
Qed.

Lemma elementsOf_length rack entry : List.length (elementsOf rack entry) = 3%nat.
Proof.
  unfold elementsOf.
  destruct (deviceElements_returns rack (fst entry) (snd entry))
    as (a & b & c & -> & _).
  reflexivity.
Qed.

Lemma deviceElements_elementsOf rack pd dev :
  deviceElements rack pd dev = Returns (elementsOf rack (pd, dev)).
Proof.
  unfold elementsOf. simpl fst. simpl snd.
  destruct (deviceElements_returns rack pd dev) as (a & b & c & -> & _).
  reflexivity.
Qed.

Lemma deviceLoop_resolve rack devs l :
  deviceLoop rack devs l
  = Returns (flat_map (elementsOf rack) (resolve devs l)).
Proof.
  induction l as [|pd l IH]; cbn [deviceLoop resolve].
  - reflexivity.
  - destruct (findDevice devs pd) as [dev|]; [|exact IH].
    rewrite deviceElements_elementsOf, IH. reflexivity.
Qed.

(** The children of the group: the frame, the devices, the label. *)
Lemma renderRack_children rack devs xOffset yOffset label :
  exists frame,
    rackFrame rack = Returns frame
    /\ renderRack rack devs xOffset yOffset label
       = Returns (Group [("transform", VTranslate xOffset yOffset)]
                        (frame ++ drawn rack devs ++ [viewLabel label])).
Proof.
  destruct (rackFrame_returns rack) as (frame & E). exists frame.
  split; [exact E|]. unfold renderRack. rewrite E.
  rewrite deviceLoop_resolve. reflexivity.
Qed.

(** Chunks of three: the elements of the [i]-th entry. *)
Lemma flat_map_chunk (l : list (PlacedDevice * Device)) rack i entry :
  nth_error l i = Some entry ->
  firstn 3 (skipn (3 * i) (flat_map (elementsOf rack) l))
  = elementsOf rack entry.
Proof.
  revert i. induction l as [|e l IH]; intros [|i] H; try discriminate.
  - injection H as ->. change (3 * 0)%nat with 0%nat.
    cbn [flat_map skipn].
    rewrite <- (elementsOf_length rack entry) at 1.
    rewrite firstn_app, firstn_all, Nat.sub_diag.
    cbn [firstn]. apply app_nil_r.
  - cbn [nth_error] in H. cbn [flat_map].
    replace (3 * S i)%nat with (List.length (elementsOf rack e) + 3 * i)%nat
      by (rewrite elementsOf_length; lia).
    rewrite skipn_app, skipn_all2 by lia. cbn [app].
    replace (List.length (elementsOf rack e) + 3 * i
             - List.length (elementsOf rack e))%nat with (3 * i)%nat by lia.
    apply IH, H.
Qed.

Lemma resolve_In devs l pd dev :
  In (pd, dev) (resolve devs l) ->
  In pd l /\ findDevice devs pd = Some dev.
Proof.
  induction l as [|x l IH]; cbn [resolve]; [intros []|].
  destruct (findDevice devs x) as [d|] eqn:E.
  - intros [H | H].
    + injection H as <- <-. split; [left; reflexivity | exact E].
    + destruct (IH H) as [H1 H2]. split; [right; exact H1 | exact H2].
  - intros H. destruct (IH H) as [H1 H2]. split; [right; exact H1 | exact H2].
Qed.

Lemma resolve_map_fst devs l :
  map fst (resolve devs l) = filter (found devs) l.
Proof.
  induction l as [|x l IH]; cbn [resolve filter]; [reflexivity|].
  unfold found at 1. destruct (findDevice devs x); cbn [map fst];
    rewrite IH; reflexivity.
Qed.

Lemma resolve_sorted devs l :
  StronglySorted (above (fun pd => val (position pd))) l ->
  StronglySorted (above paintKey) (resolve devs l).
Proof.
  induction 1 as [|x l _ IH Hx]; cbn [resolve]; [constructor|].
  destruct (findDevice devs x) as [d|]; [|exact IH].
  constructor; [exact IH|].
  rewrite Forall_forall in *. intros [pd dev] Hin.
  apply resolve_In in Hin. destruct Hin as [Hin _].
  unfold above, paintKey. cbn [fst]. apply (Hx pd Hin).
Qed.

Lemma sortedDevices_sorted rack :
  Forall (fun d => is_finite (position d) = true) (devices rack) ->
  StronglySorted (above (fun pd => val (position pd))) (sortedDevices rack).
Proof.
  intros Hf. unfold sortedDevices. apply sort_sorted.
  rewrite Forall_forall in Hf.
  intros x y Hx Hy. apply descending_comparator; apply Hf; assumption.
Qed.

Lemma createDevice_returns COS_30 SIN_30 device rackHeight :
  exists g, HslPoc.createDevice COS_30 SIN_30 device rackHeight = Returns g
            /\ List.length (children g) = 3%nat.
Proof.
  unfold HslPoc.createDevice.
  destruct (hsl_darkenColor_returns (HslPoc.color device) HslPoc.SIDE_DARKEN)
    as (c1 & ->).
  destruct (hsl_lightenColor_returns (HslPoc.color device) HslPoc.TOP_LIGHTEN)
    as (c2 & ->).
  cbn [bind]. eexists. split; reflexivity.
Qed.

(** The first version: the devices of the single view are drawn by
    descending position, each as a group of three elements. *)
Lemma singleView_descending COS_30 SIN_30 :
  exists groups,
    HslPoc.singleViewDevices COS_30 SIN_30 = Returns groups
    /\ Forall2 (fun device g =>
                  HslPoc.createDevice COS_30 SIN_30 device
                    (mul HslPoc.RACK_U HslPoc.U_HEIGHT) = Returns g
                  /\ List.length (children g) = 3%nat)
               HslPoc.sortedDevices groups
    /\ map HslPoc.uPosition HslPoc.sortedDevices
       = [11; 7; 5; 4; 3; 1]%num.
Proof.
  destruct (@mapM_Forall2 _ _
              (fun device => HslPoc.createDevice COS_30 SIN_30 device
                               (mul HslPoc.RACK_U HslPoc.U_HEIGHT))
              HslPoc.sortedDevices) as (groups & E & F).
  - intros device _.
    destruct (createDevice_returns COS_30 SIN_30 device
                (mul HslPoc.RACK_U HslPoc.U_HEIGHT)) as (g & Eg & _).
    exists g. exact Eg.
  - exists groups. split; [exact E|]. split.
    + clear E. induction F as [|device g l l' Eg F IH]; constructor.
      * split; [exact Eg|].
        destruct (createDevice_returns COS_30 SIN_30 device
                    (mul HslPoc.RACK_U HslPoc.U_HEIGHT)) as (g' & Eg' & L).
        rewrite Eg in Eg'. injection Eg' as <-. exact L.
      * exact IH.
    + vm_compute. reflexivity.
Qed.

(** The three elements of a chunk, by their index in the whole list. *)
Lemma chunk_nth_error (A : Type) (l : list A) k a b c :
  firstn 3 (skipn k l) = [a; b; c] ->
  nth_error l k = Some a /\ nth_error l (k + 1) = Some b
  /\ nth_error l (k + 2) = Some c.
Proof.
  intros H.
  assert (N : forall j, (j < 3)%nat ->
                        nth_error l (k + j) = nth_error [a; b; c] j).
  { intros j Hj. rewrite <- H, nth_error_firstn.
    destruct (Nat.ltb_spec j 3) as [_ | G]; [|lia].
    apply eq_sym, nth_error_skipn. }
  split; [|split].
  - rewrite <- (Nat.add_0_r k). apply (N 0%nat). lia.
  - apply (N 1%nat). lia.
  - apply (N 2%nat). lia.
Qed.

Lemma rackFrame_length rack frame :
  rackFrame rack = Returns frame -> List.length frame = 7%nat.
Proof.
  unfold rackFrame, darkenColor, lightenColor. cbn [bind].
  intros H. injection H as <-. reflexivity.
Qed.

(** C7.  In the group that [renderRack] returns, the device elements
    come after the seven elements of the frame, three for each placed
    device whose type is found, in the order of [paintOrder]: a
    permutation of those devices by descending position.  The device
    at index [i] of that order has its side panel, its top panel and
    its front rectangle at the indices 3i, 3i + 1 and 3i + 2 of the
    device elements.  Whenever a drawn device [A] has a position below
    that of a drawn device [B], the three elements of [B] are appended
    before the first element of [A], so the lower device paints last.
    In the first version of the script the single view draws the
    sample devices by descending position as well, each as a group of
    three elements. *)
Theorem renderRack_paints_higher_first rack devs xOffset yOffset label :
  Forall (fun d => is_finite (position d) = true) (devices rack) ->
  (exists frame,
      rackFrame rack = Returns frame
      /\ List.length frame = 7%nat
      /\ renderRack rack devs xOffset yOffset label
         = Returns (Group [("transform", VTranslate xOffset yOffset)]
                          (frame ++ drawn rack devs ++ [viewLabel label])))
  /\ Permutation (map fst (paintOrder rack devs))
                 (filter (found devs) (devices rack))
  /\ (forall i A device,
         nth_error (paintOrder rack devs) i = Some (A, device) ->
         findDevice devs A = Some device
         /\ exists sidePanel topPanel deviceRect,
             deviceElements rack A device
             = Returns [sidePanel; topPanel; deviceRect]
             /\ tag sidePanel = "polygon" /\ tag topPanel = "polygon"
             /\ tag deviceRect = "rect"
             /\ nth_error (drawn rack devs) (3 * i) = Some sidePanel
             /\ nth_error (drawn rack devs) (3 * i + 1) = Some topPanel
             /\ nth_error (drawn rack devs) (3 * i + 2) = Some deviceRect)
  /\ (forall i j A B,
         nth_error (paintOrder rack devs) i = Some A ->
         nth_error (paintOrder rack devs) j = Some B ->
         lt (position (fst A)) (position (fst B)) = true ->
         (3 * j + 2 < 3 * i)%nat)
  /\ (forall COS_30 SIN_30,
        exists groups,
          HslPoc.singleViewDevices COS_30 SIN_30 = Returns groups
          /\ Forall2 (fun device g =>
                        HslPoc.createDevice COS_30 SIN_30 device
                          (mul HslPoc.RACK_U HslPoc.U_HEIGHT) = Returns g
                        /\ List.length (children g) = 3%nat)
                     HslPoc.sortedDevices groups
          /\ map HslPoc.uPosition HslPoc.sortedDevices
             = [11; 7; 5; 4; 3; 1]%num).
Proof.
  intros Hf. split.
  { destruct (renderRack_children rack devs xOffset yOffset label)
      as (frame & E & R).
    exists frame. split; [exact E|]. split; [|exact R].
    apply (rackFrame_length E). }
  split; [|split; [|split; [|apply singleView_descending]]].
  - unfold paintOrder. rewrite resolve_map_fst.
    apply filter_Permutation. apply sort_Permutation.
  - intros i A device Hi. split.
    + apply nth_error_In in Hi. apply resolve_In in Hi. apply Hi.
    + destruct (deviceElements_returns rack A device)
        as (sidePanel & topPanel & deviceRect & E & T1 & T2 & T3).
      exists sidePanel, topPanel, deviceRect.
      split; [exact E|]. do 3 (split; [assumption|]).
      apply chunk_nth_error. unfold drawn.
      rewrite (flat_map_chunk _ rack i Hi). unfold elementsOf.
      cbn [fst snd]. rewrite E. reflexivity.
  - intros i j [A dA] [B dB] Hi Hj Hlt. cbn [fst] in Hlt.
    assert (HA : In A (devices rack)).
    { apply nth_error_In, resolve_In in Hi. destruct Hi as [Hi _].
      eapply Permutation_in; [apply sort_Permutation | exact Hi]. }
    assert (HB : In B (devices rack)).
    { apply nth_error_In, resolve_In in Hj. destruct Hj as [Hj _].
      eapply Permutation_in; [apply sort_Permutation | exact Hj]. }
    rewrite Forall_forall in Hf.
    apply (finite_lt _ _ (Hf A HA) (Hf B HB)) in Hlt.
    pose proof (resolve_sorted devs (sortedDevices_sorted rack
                 (proj2 (Forall_forall _ _) Hf))) as Hs.
    destruct (Nat.lt_trichotomy i j) as [L | [E | L]].
    + exfalso.
      pose proof (StronglySorted_nth_error Hs L Hi Hj) as H.
      unfold above, paintKey in H. cbn [fst] in H.
      apply (Qlt_not_le _ _ Hlt H).
    + exfalso. subst j. unfold paintOrder in Hi, Hj.
      rewrite Hi in Hj. injection Hj as -> _.
      apply (Qlt_irrefl _ Hlt).
    + lia.
Qed.

(** The two UPS units of the test rack: the one at position 3 is
    twelfth in the paint order and the one at position 1 thirteenth, so
    the elements 33 to 35 of the higher unit are drawn before the
    elements 36 to 38 of the lower one. *)
Lemma renderRack_paints_higher_first_witness :
  let lower := (place "cyberpower-or1500" 1%num,
                mkDevice "cyberpower-or1500" "CyberPower OR1500" "power"
                         "#e74c3c" 2%num true) in
  let higher := (place "apc-smt1500rm" 3%num,
                 mkDevice "apc-smt1500rm" "APC SMT1500RM" "power"
                          "#e74c3c" 2%num true) in
  Forall (fun d => is_finite (position d) = true) (devices testRack)
  /\ nth_error (paintOrder testRack testDevices) 12 = Some lower
  /\ nth_error (paintOrder testRack testDevices) 11 = Some higher
  /\ lt (position (fst lower)) (position (fst higher)) = true
  /\ (3 * 11 + 2 < 3 * 12)%nat
  /\ (exists sidePanel topPanel deviceRect,
         deviceElements testRack (fst higher) (snd higher)
         = Returns [sidePanel; topPanel; deviceRect]
         /\ nth_error (drawn testRack testDevices) 33 = Some sidePanel
         /\ nth_error (drawn testRack testDevices) 34 = Some topPanel
         /\ nth_error (drawn testRack testDevices) 35 = Some deviceRect)
  /\ (exists sidePanel topPanel deviceRect,
         deviceElements testRack (fst lower) (snd lower)
         = Returns [sidePanel; topPanel; deviceRect]
         /\ nth_error (drawn testRack testDevices) 36 = Some sidePanel
         /\ nth_error (drawn testRack testDevices) 37 = Some topPanel
         /\ nth_error (drawn testRack testDevices) 38 = Some deviceRect).
Proof.
  intros lower higher.
  assert (Hf : Forall (fun d => is_finite (position d) = true)
                      (devices testRack)).
  { repeat constructor. }
  assert (Hl : nth_error (paintOrder testRack testDevices) 12 = Some lower)
    by reflexivity.
  assert (Hh : nth_error (paintOrder testRack testDevices) 11 = Some higher)
    by reflexivity.
  assert (Hp : lt (position (fst lower)) (position (fst higher)) = true)
    by reflexivity.
  repeat (split; [assumption|]).
  destruct (renderRack_paints_higher_first testRack testDevices
              0%num 0%num "FRONT" Hf) as (_ & _ & E & H & _).
  split; [exact (H 12%nat 11%nat lower higher Hl Hh Hp)|].
  split.
  - destruct (E 11%nat (fst higher) (snd higher) Hh)
      as (_ & a & b & c & Ed & _ & _ & _ & Na & Nb & Nc).
    exists a, b, c. split; [exact Ed|]. split; [exact Na|].
    split; [exact Nb | exact Nc].
  - destruct (E 12%nat (fst lower) (snd lower) Hl)
      as (_ & a & b & c & Ed & _ & _ & _ & Na & Nb & Nc).
    exists a, b, c. split; [exact Ed|]. split; [exact Na|].
    split; [exact Nb | exact Nc].
Defined.
End RenderRackFacts.

Section GeometryFacts.
Import JsNum Svg IsoPoc Scene.
Local Open Scope string_scope.
Local Open Scope Q_scope.

(** C2, as amended.  For a rack of height [h] and a device of height [u]
    placed at position [p], the front rectangle that [renderRack]
    draws has y = (h - p - u + 1) * U_HEIGHT + (RACK_PADDING +
    RAIL_WIDTH + 1), x = RAIL_WIDTH + 2 and width RACK_WIDTH - 2 *
    RAIL_WIDTH - 4 = 182: the interior width less an inset of two
    pixels on each side. *)
Theorem deviceRect_geometry rack placedDevice device (h p u : Q) :
  height rack = Fin h -> position placedDevice = Fin p ->
  u_height device = Fin u ->
  exists deviceRect y,
    frontFace rack placedDevice device = Some deviceRect
    /\ tag deviceRect = "rect"
    /\ attr "x" deviceRect = Some (VNum (RAIL_WIDTH + 2))
    /\ attr "y" deviceRect = Some (VNum (Fin y))
    /\ y == (h - p - u + 1) * val U_HEIGHT
            + (val RACK_PADDING + val RAIL_WIDTH + 1)
    /\ attr "width" deviceRect
       = Some (VNum (RACK_WIDTH - RAIL_WIDTH * 2 - 4))
    /\ (RACK_WIDTH - RAIL_WIDTH * 2 - 4)%num = 182%num.
Proof.
  intros Hh Hp Hu.
  assert (R : represents
                ((height rack - position placedDevice - u_height device + 1)
                 * U_HEIGHT + RACK_PADDING + RAIL_WIDTH + 1)%num
                ((h - p - u + 1) * val U_HEIGHT
                 + (val RACK_PADDING + val RAIL_WIDTH + 1))).
  { rewrite Hh, Hp, Hu.
    assert (E : (h - p - u + 1) * val U_HEIGHT
                + (val RACK_PADDING + val RAIL_WIDTH + 1)
                == (h - p - u + 1) * val U_HEIGHT
                   + val RACK_PADDING + val RAIL_WIDTH + 1) by ring.
    destruct (add_represents
                (add_represents
                   (add_represents
                      (mul_represents_pos
                         (add_represents
                            (sub_represents
                               (sub_represents (represents_Fin h)
                                               (represents_Fin p))
                               (represents_Fin u))
                            (represents_Fin 1))
                         (represents_Fin (val U_HEIGHT)) eq_refl)
                      (represents_Fin (val RACK_PADDING)))
                   (represents_Fin (val RAIL_WIDTH)))
                (represents_Fin 1)) as (r & Er & Hr).
    exists r. split; [exact Er|]. rewrite Hr. symmetry. exact E. }
  destruct R as (y & Ey & Hy).
  exists (Elem "rect"
            [("x", VNum (RAIL_WIDTH + 2)%num); ("y", VNum (Fin y));
             ("width", VNum (RACK_WIDTH - RAIL_WIDTH * 2 - 4)%num);
             ("height", VNum (u_height device * U_HEIGHT - 2)%num);
             ("fill", VStr match colour_override placedDevice with
                           | Some c => c
                           | None => colour device
                           end);
             ("rx", VStr "2")] None), y.
  split.
  - unfold frontFace, deviceElements, darkenColor, lightenColor.
    cbn [bind]. rewrite Ey. reflexivity.
  - repeat split; try reflexivity. exact Hy.
Qed.
End GeometryFacts.

Section BoundsFacts.
Import JsNum Svg IsoPoc Scene.
Local Open Scope string_scope.

(** The scenario: height 42, position 1, two units give
    y = (42 - 1 - 2 + 1) * 22 + 22 and width 182. *)
Lemma deviceRect_geometry_witness :
  exists deviceRect y,
    frontFace rack42 (place "ups" 1%num) ups2u = Some deviceRect
    /\ tag deviceRect = "rect"
    /\ attr "x" deviceRect = Some (VNum (RAIL_WIDTH + 2))
    /\ attr "y" deviceRect = Some (VNum (Fin y))
    /\ (y == (42 - 1 - 2 + 1) * val U_HEIGHT
            + (val RACK_PADDING + val RAIL_WIDTH + 1))%Q
    /\ attr "width" deviceRect
       = Some (VNum (RACK_WIDTH - RAIL_WIDTH * 2 - 4))
    /\ (RACK_WIDTH - RAIL_WIDTH * 2 - 4)%num = 182%num.
Proof.
  apply (@deviceRect_geometry rack42 (place "ups" 1%num) ups2u 42 1 2);
    reflexivity.
Defined.

(** C2 as stated fails on the width: in the scenario the front rectangle
    is 182 wide, not RACK_WIDTH - 2 * RAIL_WIDTH = 186. *)
Lemma deviceRect_width_not_interior :
  exists deviceRect,
    frontFace rack42 (place "ups" 1%num) ups2u = Some deviceRect
    /\ attr "width" deviceRect = Some (VNum 182)
    /\ (RACK_WIDTH - RAIL_WIDTH * 2)%num = 186%num
    /\ attr "width" deviceRect <> Some (VNum (RACK_WIDTH - RAIL_WIDTH * 2)).
Proof.
  eexists. split; [reflexivity|]. split; [reflexivity|].
  split; [reflexivity|]. vm_compute. discriminate.
Defined.

(** C5, as amended.  [renderRack] raises no error: for every rack and
    library it returns its group, whether or not a placement exceeds
    the height of the rack; and the rectangle of every placed device is
    drawn at the y of one and the same expression, which is not
    clamped to the rack. *)
Theorem renderRack_never_throws rack devs xOffset yOffset label :
  (exists g, renderRack rack devs xOffset yOffset label = Returns g)
  /\ forall placedDevice device,
      exists deviceRect,
        frontFace rack placedDevice device = Some deviceRect
        /\ attr "y" deviceRect
           = Some (VNum ((height rack - position placedDevice
                          - u_height device + 1) * U_HEIGHT
                         + RACK_PADDING + RAIL_WIDTH + 1)).
Proof.
  split.
  - destruct (renderRack_children rack devs xOffset yOffset label)
      as (frame & _ & E).
    eexists. exact E.
  - intros placedDevice device. eexists. split; reflexivity.
Qed.

(** C5 as stated fails: the device at position 24 of two units exceeds
    the rack of 24 units, and [renderRack] returns; the rectangle is
    drawn at y = 0, above the interior that starts at y = 21. *)
Lemma renderRack_out_of_bounds_returns :
  exceedsRack rack24 (place "ups" 24%num) ups2u = true
  /\ renderRack rack24 [ups2u] 0%num 0%num "FRONT" <> Throws OutOfBoundsError
  /\ exists deviceRect,
      frontFace rack24 (place "ups" 24%num) ups2u = Some deviceRect
      /\ attr "y" deviceRect = Some (VNum 0)
      /\ In deviceRect (drawn rack24 [ups2u]).
Proof.
  split; [reflexivity|]. split.
  - vm_compute. discriminate.
  - eexists. split; [reflexivity|]. split; [reflexivity|].
    vm_compute. right. right. left. reflexivity.
Defined.
End BoundsFacts.

(** ** The port layout *)

Section PortFacts.
Import JsNum PortLayout Ports.
Local Open Scope string_scope.

Lemma indexed_length (A : Type) (l : list A) start :
  List.length (indexed start l) = List.length l.
Proof.
  revert start. induction l as [|a l IH]; intros start; cbn [indexed List.length].
  - reflexivity.
  - rewrite IH. reflexivity.
Qed.

(** The three ways out of [calculatePortLayout]. *)
Lemma calculatePortLayout_cases deviceWidth deviceHeight interfaces zoom rackWidth :
  let portCount := of_nat (List.length interfaces) in
  (lt zoom (Fin (1 # 2)) = true
   /\ calculatePortLayout deviceWidth deviceHeight interfaces zoom rackWidth
      = Returns hidden)
  \/ (lt zoom (Fin (1 # 2)) = false
      /\ needsGrouping deviceWidth deviceHeight portCount zoom = true
      /\ exists groups,
          groupInterfacesByType interfaces = Returns groups
          /\ calculatePortLayout deviceWidth deviceHeight interfaces zoom rackWidth
             = Returns (grouped groups))
  \/ (lt zoom (Fin (1 # 2)) = false
      /\ needsGrouping deviceWidth deviceHeight portCount zoom = false
      /\ exists portRadius spacing positions,
          calculatePortLayout deviceWidth deviceHeight interfaces zoom rackWidth
          = Returns (individual
                       (optimalRows deviceWidth deviceHeight portCount)
                       (ceil (div portCount
                                  (optimalRows deviceWidth deviceHeight portCount)))
                       portRadius spacing positions)
          /\ (portRadius = PORT_RADIUS_DEFAULT \/ portRadius = PORT_RADIUS_MIN)
          /\ List.length positions = List.length interfaces).
Proof.
  intros portCount. unfold calculatePortLayout.
  destruct (lt zoom (Fin (1 # 2))) eqn:Z; [left; split; reflexivity|].
  right.
  fold portCount. fold (maxRows deviceHeight).
  fold (needsGrouping deviceWidth deviceHeight portCount zoom).
  destruct (needsGrouping deviceWidth deviceHeight portCount zoom) eqn:G.
  - left. split; [reflexivity|]. split; [reflexivity|].
    eexists. split; reflexivity.
  - right. split; [reflexivity|]. split; [reflexivity|].
    fold (optimalRows deviceWidth deviceHeight portCount).
    match goal with
    | |- context [if ?c then _ else _] => destruct c
    end; cbn [bind calculatePositions]; do 3 eexists;
      (split; [reflexivity|]); (split; [auto|]);
      rewrite length_map, indexed_length; reflexivity.
Qed.

Lemma mode_cases r :
  mode r = "hidden" \/ mode r = "grouped" \/ mode r = "individual".
Proof. destruct r; cbn [mode]; auto. Qed.

(** C6.  [calculatePortLayout] returns for every input, numbers that are
    NaN or infinite included, and never throws; its result is of exactly
    one of the three modes: hidden exactly when zoom < 0.5, grouped
    exactly when zoom is not below 0.5 and the grouping test of step 3
    holds, individual otherwise. *)
Theorem calculatePortLayout_total
        deviceWidth deviceHeight interfaces zoom rackWidth :
  exists r,
    calculatePortLayout deviceWidth deviceHeight interfaces zoom rackWidth
    = Returns r
    /\ (mode r = "hidden" \/ mode r = "grouped" \/ mode r = "individual")
    /\ (mode r = "hidden" <-> lt zoom (Fin (1 # 2)) = true)
    /\ (mode r = "grouped" <->
        lt zoom (Fin (1 # 2)) = false
        /\ needsGrouping deviceWidth deviceHeight
                         (of_nat (List.length interfaces)) zoom = true)
    /\ (mode r = "individual" <->
        lt zoom (Fin (1 # 2)) = false
        /\ needsGrouping deviceWidth deviceHeight
                         (of_nat (List.length interfaces)) zoom = false).
Proof.
  destruct (calculatePortLayout_cases deviceWidth deviceHeight interfaces
                                      zoom rackWidth)
    as [(Z & E) | [(Z & G & groups & _ & E) | (Z & G & pr & sp & ps & E & _)]];
    rewrite E, Z; try rewrite G; eexists; (split; [reflexivity|]);
    (split; [apply mode_cases|]); cbn [mode];
    repeat split; try discriminate; try reflexivity;
    try (intros [? ?]; discriminate).
Qed.

(** When the lesser of the fitting rows and three is two, two rows fit. *)
Lemma min_floor_three_is_two X : min (floor X) 3%num = 2%num -> floor X = 2%num.
Proof.
  destruct X as [| | | |q]; try (vm_compute; discriminate).
  cbn [floor]. unfold of_Z, min, cmp. cbn [val].
  match goal with
  | |- context [Qcompare ?a ?b] => destruct (Qcompare a b) eqn:C
  end.
  - apply Qeq_alt in C. unfold Qeq in C. cbn in C.
    assert (E : Qfloor q = 3%Z) by lia. rewrite E. vm_compute. discriminate.
  - cbn [norm]. intros H.
    assert (H' : Qred (inject_Z (Qfloor q)) = (2 # 1)%Q) by congruence.
    pose proof (Qred_correct (inject_Z (Qfloor q))) as R. rewrite H' in R.
    unfold Qeq in R. cbn in R.
    assert (E : Qfloor q = 2%Z) by lia. rewrite E. reflexivity.
  - vm_compute. discriminate.
Qed.

Lemma ports_length f n : List.length (ports f n) = n.
Proof. unfold ports. rewrite length_map, length_seq. reflexivity. Qed.

(** C3.  What the algorithm returns for 48 ports on a device 186 wide
    at zoom 1.2: badges for a device of one unit (22 high), three rows
    of sixteen for a device of two units (44 high), and for no height
    two rows. *)
Theorem calculatePortLayout_48_ports_never_two_rows
        (f : nat -> InterfaceTemplate) :
  (exists groups,
      calculatePortLayout 186%num 22%num (ports f 48) (Fin (6 # 5)) W19
      = Returns (grouped groups))
  /\ (exists spacing positions,
        calculatePortLayout 186%num 44%num (ports f 48) (Fin (6 # 5)) W19
        = Returns (individual 3%num 16%num 3%num spacing positions))
  /\ forall deviceHeight rows portsPerRow portRadius spacing positions,
      calculatePortLayout 186%num deviceHeight (ports f 48) (Fin (6 # 5)) W19
      = Returns (individual rows portsPerRow portRadius spacing positions) ->
      rows <> 2%num.
Proof.
  split; [|split].
  - destruct (calculatePortLayout_cases 186%num 22%num (ports f 48)
                                        (Fin (6 # 5)) W19)
      as [(Z & _) | [(_ & _ & groups & _ & E) | (_ & G & _)]].
    + vm_compute in Z; discriminate Z.
    + exists groups. exact E.
    + rewrite ports_length in G. vm_compute in G; discriminate G.
  - do 2 eexists. unfold calculatePortLayout. rewrite ports_length.
    vm_compute. reflexivity.
  - intros deviceHeight rows ppr pr sp ps H.
    destruct (calculatePortLayout_cases 186%num deviceHeight (ports f 48)
                                        (Fin (6 # 5)) W19)
      as [(_ & E) | [(_ & _ & groups & _ & E) | (_ & G & pr' & sp' & ps' & E & _)]];
      rewrite E in H; try discriminate H.
    injection H as <- _ _ _ _. rewrite ports_length in *.
    intros R. unfold optimalRows in R.
    change (ceil (div (of_nat 48) (floor (div 186%num 8%num)))) with 3%num in R.
    apply min_floor_three_is_two in R. fold (maxRows deviceHeight) in R.
    unfold needsGrouping in G. rewrite R in G. vm_compute in G; discriminate G.
Qed.

(** Further scenarios: below zoom 0.5 the ports are hidden whatever the
    other inputs; 48 ports on the 82 pixels of a 10 inch rack are
    grouped at zoom 1.2; and two rows of 24 at the reduced radius, with
    spacing 3.6, are what a device with room for two rows gets from
    zoom 1.5 on, where step 3 no longer groups. *)
Lemma calculatePortLayout_scenarios (f : nat -> InterfaceTemplate) :
  (forall deviceWidth deviceHeight interfaces rackWidth,
      calculatePortLayout deviceWidth deviceHeight interfaces
                          (Fin (3 # 10)) rackWidth = Returns hidden)
  /\ (exists groups,
        calculatePortLayout 82%num 22%num (ports f 48) (Fin (6 # 5)) W10
        = Returns (grouped groups))
  /\ (exists groups,
        calculatePortLayout 186%num 30%num (ports f 48) (Fin (6 # 5)) W19
        = Returns (grouped groups))
  /\ (exists positions,
        calculatePortLayout 186%num 30%num (ports f 48) (Fin (8 # 5)) W19
        = Returns (individual 2%num 24%num 2%num (Fin (18 # 5)) positions)).
Proof.
  split; [|split; [|split]].
  - intros. reflexivity.
  - eexists. unfold calculatePortLayout. rewrite ports_length.
    vm_compute. reflexivity.
  - eexists. unfold calculatePortLayout. rewrite ports_length.
    vm_compute. reflexivity.
  - eexists. unfold calculatePortLayout. rewrite ports_length.
    vm_compute. reflexivity.
Qed.

(** Two units at zoom 1.2: the result is individual, in three rows. *)
Lemma calculatePortLayout_48_ports_witness :
  exists spacing positions,
    calculatePortLayout 186%num 44%num (ports copper 48) (Fin (6 # 5)) W19
    = Returns (individual 3%num 16%num 3%num spacing positions)
    /\ 3%num <> 2%num.
Proof.
  destruct (calculatePortLayout_48_ports_never_two_rows copper)
    as (_ & (spacing & positions & E) & H).
  exists spacing, positions. split; [exact E|].
  exact (H 44%num 3%num 16%num 3%num spacing positions E).
Defined.
End PortFacts.

(** ** Identifiers *)

Section UuidFacts.
Import JsString DeviceUtils Uuid.
Local Open Scope string_scope.
Local Open Scope Z_scope.

(** What [is_uuid_v4] accepts and what it refuses: another version,
    another variant, upper case, a missing character. *)
Lemma is_uuid_v4_examples :
  is_uuid_v4 "123e4567-e89b-42d3-a456-426614174000" = true
  /\ is_uuid_v4 "123e4567-e89b-12d3-a456-426614174000" = false
  /\ is_uuid_v4 "123e4567-e89b-42d3-c456-426614174000" = false
  /\ is_uuid_v4 "123E4567-e89b-42d3-a456-426614174000" = false
  /\ is_uuid_v4 "123e4567-e89b-42d3-a456-42661417400" = false
  /\ is_uuid_v4 "123e4567e89b-42d3-a456-4266141740000" = false.
Proof. repeat split. Qed.

Lemma toUint8_range v : 0 <= toUint8 v < 256.
Proof. unfold toUint8. apply Z.mod_pos_bound. lia. Qed.

Lemma all_bytes_complete x : 0 <= x < 256 -> In x all_bytes.
Proof.
  intros H. unfold all_bytes. rewrite <- (Z2Nat.id x) by lia.
  apply in_map, in_seq. lia.
Qed.

Lemma byte_enum (P : Z -> bool) :
  forallb P all_bytes = true -> forall x, 0 <= x < 256 -> P x = true.
Proof.
  intros H x Hx. rewrite forallb_forall in H. apply H, all_bytes_complete, Hx.
Qed.








End UuidFacts.

(** ** Placement *)

Section PlacementFacts.
Import Placement.
Local Open Scope Q_scope.

Lemma Qmaxb_spec p q u : Qmaxb p q <= u <-> p <= u /\ q <= u.
Proof.
  unfold Qmaxb. destruct (Qle_bool p q) eqn:E.
  - apply Qle_bool_iff in E. split; [intros H; split; lra | intros [_ H]; exact H].
  - assert (L : q < p).
    { apply Qnot_le_lt. intro L. apply Qle_bool_iff in L. congruence. }
    split; [intros H; split; lra | intros [H _]; exact H].
Qed.

Lemma Qminb_spec p q u : u <= Qminb p q <-> u <= p /\ u <= q.
Proof.
  unfold Qminb. destruct (Qle_bool p q) eqn:E.
  - apply Qle_bool_iff in E. split; [intros H; split; lra | intros [H _]; exact H].
  - assert (L : q < p).
    { apply Qnot_le_lt. intro L. apply Qle_bool_iff in L. congruence. }
    split; [intros H; split; lra | intros [_ H]; exact H].
Qed.

Lemma rangesIntersect_spec a b : rangesIntersect a b = true <-> shareUnit a b.
Proof.
  unfold rangesIntersect, shareUnit. rewrite Qle_bool_iff. split.
  - intros H. exists (Qmaxb (bottom a) (bottom b)).
    pose proof (proj1 (Qmaxb_spec (bottom a) (bottom b) _) (Qle_refl _)) as [H1 H2].
    pose proof (proj1 (Qminb_spec (top a) (top b) _) H) as [H3 H4].
    repeat split; assumption.
  - intros (u & [H1 H2] & [H3 H4]).
    apply Qle_trans with u.
    + apply Qmaxb_spec. split; assumption.
    + apply Qminb_spec. split; assumption.
Qed.

Lemma Side_eqb_eq x y : Side_eqb x y = true <-> x = y.
Proof. destruct x, y; cbn; split; congruence. Qed.

Lemma facesIntersect_spec a b : facesIntersect a b = true <-> shareSide a b.
Proof.
  unfold facesIntersect, shareSide. rewrite existsb_exists. split.
  - intros (x & Hx & H). apply existsb_exists in H. destruct H as (y & Hy & E).
    apply Side_eqb_eq in E. subst y. exists x. split; assumption.
  - intros (x & Hx & Hy). exists x. split; [exact Hx|].
    apply existsb_exists. exists x. split; [exact Hy | apply Side_eqb_eq; reflexivity].
Qed.

Lemma collides_spec c d : collides c d = true <-> shareUnit c d /\ shareSide c d.
Proof.
  unfold collides. rewrite andb_true_iff, rangesIntersect_spec, facesIntersect_spec.
  reflexivity.
Qed.

Lemma validatePlacement_filter rack candidate :
  validatePlacement rack candidate
  = match filter (collides candidate) (devices rack) with
    | [] => Ok
    | cs => Conflict (map id cs)
    end.
Proof. reflexivity. Qed.

Lemma full_depth_sides d : is_full_depth d = true -> occupancy d = [Front; Rear].
Proof. unfold occupancy. intros ->. reflexivity. Qed.

Lemma occupancy_inhabited d : exists side, In side (occupancy d).
Proof.
  unfold occupancy. destruct (is_full_depth d); [|destruct (face d)];
    eexists; left; reflexivity.
Qed.

(** C1.  [validatePlacement] returns a conflict exactly when some
    existing placement shares a unit of the rack with the candidate and
    a side with it, a full-depth device occupying both sides and a
    half-depth device its own; the conflict lists the ids of those
    placements.  Two half-depth devices on opposite faces never
    conflict, whatever their positions; a full-depth device and any
    device that shares a unit with it conflict, whichever of them is
    the candidate. *)
Theorem validatePlacement_conflict_iff rack candidate :
  ((exists ids, validatePlacement rack candidate = Conflict ids) <->
   exists existing, In existing (devices rack)
                    /\ shareUnit candidate existing
                    /\ shareSide candidate existing)
  /\ (validatePlacement rack candidate = Ok \/
      validatePlacement rack candidate
      = Conflict (map id (filter (collides candidate) (devices rack))))
  /\ (forall a b,
        is_full_depth a = false -> is_full_depth b = false ->
        face a = front -> face b = rear ->
        validatePlacement {| height := height rack; devices := [a] |} b = Ok
        /\ validatePlacement {| height := height rack; devices := [b] |} a = Ok)
  /\ (forall a b,
        is_full_depth a = true -> shareUnit a b ->
        validatePlacement {| height := height rack; devices := [b] |} a
        = Conflict [id b]
        /\ validatePlacement {| height := height rack; devices := [a] |} b
           = Conflict [id a]).
Proof.
  split; [|split; [|split]].
  - rewrite validatePlacement_filter. split.
    + intros (ids & H).
      destruct (filter (collides candidate) (devices rack)) as [|d cs] eqn:F;
        [discriminate H|].
      assert (Hd : In d (filter (collides candidate) (devices rack))).
      { rewrite F. left. reflexivity. }
      apply filter_In in Hd. destruct Hd as [Hin Hc].
      apply collides_spec in Hc. exists d. tauto.
    + intros (d & Hin & Hu & Hs).
      assert (Hd : In d (filter (collides candidate) (devices rack))).
      { apply filter_In. split; [exact Hin|]. apply collides_spec. tauto. }
      destruct (filter (collides candidate) (devices rack)) as [|e cs];
        [destruct Hd|]. eexists. reflexivity.
  - rewrite validatePlacement_filter.
    destruct (filter (collides candidate) (devices rack)); [left | right];
      reflexivity.
  - intros a b Ha Hb Fa Fb.
    assert (N1 : facesIntersect b a = false).
    { unfold facesIntersect, occupancy. rewrite Ha, Hb, Fa, Fb. reflexivity. }
    assert (N2 : facesIntersect a b = false).
    { unfold facesIntersect, occupancy. rewrite Ha, Hb, Fa, Fb. reflexivity. }
    unfold validatePlacement, collides. cbn [devices filter].
    rewrite N1, N2, !andb_false_r. split; reflexivity.
  - intros a b Ha Hu.
    assert (C1 : collides a b = true).
    { apply collides_spec. split; [exact Hu|].
      destruct (occupancy_inhabited b) as (side & Hs). exists side.
      split; [|exact Hs]. rewrite (full_depth_sides a Ha).
      destruct side; [left | right; left]; reflexivity. }
    assert (C2 : collides b a = true).
    { apply collides_spec. split.
      - destruct Hu as (u & H1 & H2). exists u. split; assumption.
      - destruct (occupancy_inhabited b) as (side & Hs). exists side.
        split; [exact Hs|]. rewrite (full_depth_sides a Ha).
        destruct side; [left | right; left]; reflexivity. }
    unfold validatePlacement. cbn [devices filter]. rewrite C1, C2.
    split; reflexivity.
Qed.

(** Half-depth devices at position 1 on opposite faces are accepted;
    the full-depth device at position 1 and the half-depth device on
    the rear of the same unit conflict. *)
Lemma validatePlacement_conflict_iff_witness :
  (validatePlacement {| height := 42; devices := [halfFront] |} halfRear = Ok
   /\ validatePlacement {| height := 42; devices := [halfRear] |} halfFront = Ok)
  /\ (validatePlacement {| height := 42; devices := [halfRear] |} fullFront
      = Conflict ["second"%string]
      /\ validatePlacement {| height := 42; devices := [fullFront] |} halfRear
         = Conflict ["first"%string]).
Proof.
  destruct (validatePlacement_conflict_iff
              {| height := 42; devices := [] |} halfRear)
    as (_ & _ & H3 & H4).
  split.
  - apply (H3 halfFront halfRear); reflexivity.
  - apply (H4 fullFront halfRear); [reflexivity|].
    exists 1. repeat split; discriminate.
Defined.
End PlacementFacts.

(** ** Text fitting *)

Section TextFacts.
Import TextSizing.
Local Open Scope Q_scope.

Lemma step_positive (d step : Q) :
  0 <= d -> 1 <= d / step -> 0 < step.
Proof.
  intros Hd Hx. destruct (Qlt_le_dec 0 step) as [L | L]; [exact L|].
  exfalso. apply Qle_lteq in L. destruct L as [L | E].
  - assert (I : / step < 0).
    { destruct step as [[|p|p] q]; try discriminate L; reflexivity. }
    unfold Qdiv in Hx. nra.
  - unfold Qdiv in Hx. rewrite E in Hx. cbn in Hx. lra.
Qed.

Lemma candidate_in_range (step : Q) (o : FitOptions) (k : nat) :
  minFontSize o <= maxFontSize o ->
  (k <= Z.to_nat (Qfloor ((maxFontSize o - minFontSize o) / step)))%nat ->
  minFontSize o <= maxFontSize o - inject_Z (Z.of_nat k) * step
  /\ maxFontSize o - inject_Z (Z.of_nat k) * step <= maxFontSize o.
Proof.
  intros Hm Hk. destruct k as [|k].
  - cbn [Z.of_nat]. change (inject_Z 0) with 0. split; lra.
  - set (d := maxFontSize o - minFontSize o) in *.
    set (x := d / step) in *.
    assert (Hf : (Z.of_nat (S k) <= Qfloor x)%Z) by lia.
    assert (Hq : inject_Z (Z.of_nat (S k)) <= x).
    { apply Qle_trans with (inject_Z (Qfloor x)).
      - rewrite <- Zle_Qle. exact Hf.
      - apply Qfloor_le. }
    assert (H1 : 1 <= inject_Z (Z.of_nat (S k))).
    { change 1 with (inject_Z 1). rewrite <- Zle_Qle. lia. }
    assert (Hd : 0 <= d) by (unfold d; lra).
    assert (Hs : 0 < step).
    { apply (@step_positive d step Hd). fold x. lra. }
    assert (Hx : x * step == d).
    { unfold x. field. lra. }
    assert (Hks : inject_Z (Z.of_nat (S k)) * step <= d).
    { rewrite <- Hx. apply Qmult_le_compat_r; [exact Hq | lra]. }
    assert (Hk0 : 0 <= inject_Z (Z.of_nat (S k)) * step).
    { apply Qmult_le_0_compat; lra. }
    unfold d in Hks. split; lra.
Qed.

Lemma candidateSizes_in_range (step : Q) (o : FitOptions) (size : Q) :
  minFontSize o <= maxFontSize o ->
  In size (candidateSizes step o) ->
  minFontSize o <= size /\ size <= maxFontSize o.
Proof.
  intros Hm Hin. unfold candidateSizes in Hin. apply in_app_or in Hin.
  destruct Hin as [Hin | [<- | []]].
  - apply in_map_iff in Hin. destruct Hin as (k & <- & Hk).
    apply in_seq in Hk. apply candidate_in_range; [exact Hm | lia].
  - split; [apply Qle_refl | exact Hm].
Qed.

(** C4.  With [minFontSize <= maxFontSize], the font size that
    [fitTextToWidth] returns lies between the two, whatever the step of
    the search; and when [availableWidth <= 0] the result is the bare
    ellipsis at the minimum size. *)
Theorem fitTextToWidth_font_range (fontStep : Q) (t : text) (o : FitOptions) :
  minFontSize o <= maxFontSize o ->
  (minFontSize o <= fontSize (fitTextToWidth fontStep t o)
   /\ fontSize (fitTextToWidth fontStep t o) <= maxFontSize o)
  /\ (availableWidth o <= 0 ->
      fitTextToWidth fontStep t o
      = {| fitted := ELLIPSIS; fontSize := minFontSize o |}).
Proof.
  intros Hm. split.
  - unfold fitTextToWidth. destruct (Qle_bool (availableWidth o) 0).
    + cbn [fontSize]. split; [apply Qle_refl | exact Hm].
    + cbn [fontSize]. unfold calculateFontSize.
      destruct (find _ (candidateSizes fontStep o)) as [size|] eqn:F.
      * apply find_some in F.
        apply (@candidateSizes_in_range fontStep o size Hm (proj1 F)).
      * split; [apply Qle_refl | exact Hm].
  - intros Ha. unfold fitTextToWidth.
    apply Qle_bool_iff in Ha. rewrite Ha. reflexivity.
Qed.

(** "Server" between 9 and 13 with no width available. *)
Lemma fitTextToWidth_font_range_witness :
  let o := {| maxFontSize := 13; minFontSize := 9; availableWidth := 0 |} in
  minFontSize o <= maxFontSize o
  /\ availableWidth o <= 0
  /\ fitTextToWidth 1 (units "Server") o
     = {| fitted := ELLIPSIS; fontSize := 9 |}
  /\ 9 <= fontSize (fitTextToWidth 1 (units "Server") o) <= 13.
Proof.
  intros o.
  assert (Hm : minFontSize o <= maxFontSize o) by (cbn; discriminate).
  assert (Ha : availableWidth o <= 0) by (cbn; discriminate).
  destruct (@fitTextToWidth_font_range 1 (units "Server") o Hm) as [R E].
  split; [exact Hm|]. split; [exact Ha|]. split; [exact (E Ha) | exact R].
Defined.

(** The expectations of the tests of the sizing module, for a search in
    steps of one pixel. *)
Lemma text_sizing_tests :
  let defaultOptions :=
    {| maxFontSize := 13; minFontSize := 9; availableWidth := 150 |} in
  let narrow (w : Q) :=
    {| maxFontSize := 13; minFontSize := 9; availableWidth := w |} in
  let long :=
    units ("This is an extremely long device name "
           ++ "that will definitely need truncation") in
  calculateFontSize 1 (units "Server") defaultOptions = 13
  /\ calculateFontSize 1 [] defaultOptions = 13
  /\ calculateFontSize 1 (units "Short") (narrow 300) = 13
  /\ truncateWithEllipsis (units "Short") 100 13 = units "Short"
  /\ truncateWithEllipsis (units "Server") 10 13 = ELLIPSIS
  /\ truncateWithEllipsis [] 100 13 = []
  /\ fitTextToWidth 1 (units "Server") defaultOptions
     = {| fitted := units "Server"; fontSize := 13 |}
  /\ fitTextToWidth 1 [] defaultOptions = {| fitted := []; fontSize := 13 |}
  /\ fitTextToWidth 1 (units "Server") (narrow 0)
     = {| fitted := ELLIPSIS; fontSize := 9 |}
  /\ fitTextToWidth 1 (units "Server") (narrow (-100))
     = {| fitted := ELLIPSIS; fontSize := 9 |}
  /\ fitTextToWidth 1 (units "iiiiiiiiii") (narrow 100)
     = {| fitted := units "iiiiiiiiii"; fontSize := 13 |}
  /\ fontSize (fitTextToWidth 1 long (narrow 100)) = 9
  /\ In 8230%N (fitted (fitTextToWidth 1 long (narrow 100))).
Proof.
  cbv zeta. do 12 (split; [vm_compute; reflexivity|]).
  vm_compute. tauto.
Qed.
End TextFacts.

(** ** Finite values *)

Section ValueFacts.
Import JsNum Value.
Local Open Scope Q_scope.

Lemma evaluates_Fin q : evaluates (Fin q) q.
Proof. split; [reflexivity | apply Qeq_refl]. Qed.

Lemma evaluates_of_Z z : evaluates (of_Z z) (inject_Z z).
Proof. apply evaluates_Fin. Qed.

Lemma evaluates_eq a p q : evaluates a p -> p == q -> evaluates a q.
Proof. intros [F V] E. split; [exact F | rewrite V; exact E]. Qed.

Lemma evaluates_add a b p q :
  evaluates a p -> evaluates b q -> evaluates (add a b) (p + q).
Proof.
  intros [Fa Va] [Fb Vb]. destruct (finite_add a b Fa Fb) as [F V].
  split; [exact F | rewrite V, Va, Vb; reflexivity].
Qed.

Lemma evaluates_sub a b p q :
  evaluates a p -> evaluates b q -> evaluates (sub a b) (p - q).
Proof.
  intros [Fa Va] [Fb Vb]. destruct (finite_sub a b Fa Fb) as [F V].
  split; [exact F | rewrite V, Va, Vb; reflexivity].
Qed.

Lemma evaluates_neg a p : evaluates a p -> evaluates (neg a) (- p).
Proof.
  intros [Fa Va]. destruct (finite_neg a Fa) as [F V].
  split; [exact F | rewrite V, Va; reflexivity].
Qed.

Lemma evaluates_sfin s q : evaluates (sfin s q) q.
Proof.
  unfold sfin. destruct (Qeq_bool q 0) eqn:E.
  - apply Qeq_bool_iff in E. destruct s; (split; [reflexivity|]);
      cbn [zero val]; symmetry; exact E.
  - split; [reflexivity | apply Qred_correct].
Qed.

Lemma finite_flags a :
  is_finite a = true -> is_nan a = false /\ is_inf a = false.
Proof. destruct a; try discriminate; split; reflexivity. Qed.

Lemma evaluates_mul a b p q :
  evaluates a p -> evaluates b q -> evaluates (mul a b) (p * q).
Proof.
  intros [Fa Va] [Fb Vb]. unfold mul.
  destruct (finite_flags a Fa) as [-> ->].
  destruct (finite_flags b Fb) as [-> ->]. cbn [orb].
  apply evaluates_eq with (val a * val b); [apply evaluates_sfin|].
  rewrite Va, Vb. reflexivity.
Qed.

Lemma evaluates_is_zero a p : evaluates a p -> (is_zero a = true <-> p == 0).
Proof.
  intros [Fa Va]. destruct a as [| | | |r]; try discriminate; cbn [is_zero val] in *.
  - split; [intros _; symmetry; exact Va | reflexivity].
  - rewrite Qeq_bool_iff, Va. reflexivity.
Qed.

Lemma evaluates_div a b p q :
  evaluates a p -> evaluates b q -> ~ q == 0 -> evaluates (div a b) (p / q).
Proof.
  intros [Fa Va] [Fb Vb] Hq. unfold div.
  destruct (finite_flags a Fa) as [-> ->].
  destruct (finite_flags b Fb) as [-> ->]. cbn [orb].
  destruct (is_zero b) eqn:Z.
  - exfalso. apply Hq. apply (evaluates_is_zero (conj Fb Vb)). exact Z.
  - apply evaluates_eq with (val a / val b); [apply evaluates_sfin|].
    rewrite Va, Vb. reflexivity.
Qed.

Lemma evaluates_cmp a b p q :
  evaluates a p -> evaluates b q -> cmp a b = Some (p ?= q).
Proof.
  intros [Fa Va] [Fb Vb]. rewrite (finite_cmp a b Fa Fb).
  rewrite Va, Vb. reflexivity.
Qed.

Lemma evaluates_lt a b p q :
  evaluates a p -> evaluates b q -> (lt a b = true <-> p < q).
Proof.
  intros Ha Hb. unfold lt. rewrite (evaluates_cmp Ha Hb).
  rewrite Qlt_alt. destruct (p ?= q); split; congruence.
Qed.

Lemma evaluates_gt a b p q :
  evaluates a p -> evaluates b q -> (gt a b = true <-> q < p).
Proof.
  intros Ha Hb. unfold gt. rewrite (evaluates_cmp Ha Hb).
  rewrite Qgt_alt. destruct (p ?= q); split; congruence.
Qed.

Lemma evaluates_round a q :
  evaluates a q -> round a = IInt (Qfloor (q + (1 # 2))).
Proof.
  intros [Fa Va]. destruct a as [| | | |r]; try discriminate;
    cbn [round val] in *; rewrite <- Va; reflexivity.
Qed.

Lemma evaluates_floor a q :
  evaluates a q -> evaluates (floor a) (inject_Z (Qfloor q)).
Proof.
  intros [Fa Va]. destruct a as [| | | |r]; try discriminate;
    cbn [floor val] in *.
  - split; [reflexivity|]. rewrite <- Va. reflexivity.
  - rewrite <- Va. apply evaluates_of_Z.
Qed.

Lemma evaluates_ceil a q :
  evaluates a q -> evaluates (ceil a) (inject_Z (Qceiling q)).
Proof.
  intros [Fa Va]. destruct a as [| | | |r]; try discriminate;
    cbn [ceil val] in *.
  - split; [reflexivity|]. rewrite <- Va. reflexivity.
  - rewrite <- Va. destruct (Z.eqb (Qceiling r) 0 && Qltb r 0) eqn:E.
    + apply andb_true_iff in E. destruct E as [E _].
      apply Z.eqb_eq in E. rewrite E. split; reflexivity.
    + apply evaluates_of_Z.
Qed.

Lemma evaluates_norm a q : evaluates a q -> evaluates (norm a) q.
Proof.
  intros [Fa Va]. destruct a as [| | | |r]; try discriminate;
    cbn [norm val] in *; (split; [reflexivity|]); cbn [val];
    rewrite ?Qred_correct; exact Va.
Qed.

Lemma evaluates_min_l a b p q :
  evaluates a p -> evaluates b q -> p <= q -> evaluates (min a b) p.
Proof.
  intros Ha Hb L. unfold min. rewrite (evaluates_cmp Ha Hb).
  destruct (p ?= q) eqn:C.
  - apply Qeq_alt in C.
    destruct (is_neg a); apply evaluates_norm; [exact Ha|].
    apply (evaluates_eq Hb). symmetry. exact C.
  - apply evaluates_norm, Ha.
  - apply Qgt_alt in C. exfalso. apply (Qlt_not_le _ _ C L).
Qed.

Lemma evaluates_min_r a b p q :
  evaluates a p -> evaluates b q -> q <= p -> evaluates (min a b) q.
Proof.
  intros Ha Hb L. unfold min. rewrite (evaluates_cmp Ha Hb).
  destruct (p ?= q) eqn:C.
  - apply Qeq_alt in C.
    destruct (is_neg a); apply evaluates_norm; [|exact Hb].
    apply (evaluates_eq Ha). exact C.
  - apply Qlt_alt in C. exfalso. apply (Qlt_not_le _ _ C L).
  - apply evaluates_norm, Hb.
Qed.

Lemma evaluates_max_l a b p q :
  evaluates a p -> evaluates b q -> q <= p -> evaluates (max a b) p.
Proof.
  intros Ha Hb L. unfold max. rewrite (evaluates_cmp Ha Hb).
  destruct (p ?= q) eqn:C.
  - apply Qeq_alt in C.
    destruct (is_neg a); apply evaluates_norm; [|exact Ha].
    apply (evaluates_eq Hb). symmetry. exact C.
  - apply Qlt_alt in C. exfalso. apply (Qlt_not_le _ _ C L).
  - apply evaluates_norm, Ha.
Qed.

Lemma evaluates_max_r a b p q :
  evaluates a p -> evaluates b q -> p <= q -> evaluates (max a b) q.
Proof.
  intros Ha Hb L. unfold max. rewrite (evaluates_cmp Ha Hb).
  destruct (p ?= q) eqn:C.
  - apply Qeq_alt in C.
    destruct (is_neg a); apply evaluates_norm; [exact Hb|].
    apply (evaluates_eq Ha). exact C.
  - apply evaluates_norm, Hb.
  - apply Qgt_alt in C. exfalso. apply (Qlt_not_le _ _ C L).
Qed.

End ValueFacts.

(** ** More arithmetic *)

Ltac evaluate :=
  repeat first
    [ eassumption
    | eapply evaluates_sub
    | eapply evaluates_add
    | eapply evaluates_mul
    | eapply evaluates_neg
    | eapply evaluates_Fin ].

Section MoreNumFacts.
Import JsNum Value.
Local Open Scope Q_scope.

Lemma Qfloor_lt_Z x n : x < inject_Z n -> (Qfloor x < n)%Z.
Proof.
  intros H. rewrite Zlt_Qlt. apply Qle_lt_trans with x; [apply Qfloor_le | exact H].
Qed.

Lemma Qfloor_ge_Z x n : inject_Z n <= x -> (n <= Qfloor x)%Z.
Proof.
  intros H. rewrite <- (Qfloor_Z n). apply Qfloor_resp_le, H.
Qed.

Lemma Qfloor_div_Z i n :
  (0 < n)%Z -> Qfloor (inject_Z i / inject_Z n) = (i / n)%Z.
Proof.
  intros H. destruct n as [|n|n]; try discriminate H.
  unfold Qdiv, Qinv, Qmult, inject_Z, Qfloor. cbn [Qnum Qden].
  rewrite Z.mul_1_r, Pos.mul_1_l. reflexivity.
Qed.

Lemma Qtrunc_comp p q : p == q -> Qtrunc p = Qtrunc q.
Proof.
  intros E. unfold Qtrunc.
  assert (L : Qltb p 0 = Qltb q 0).
  { unfold Qltb. f_equal.
    destruct (Qle_bool 0 p) eqn:A, (Qle_bool 0 q) eqn:B; try reflexivity.
    - apply Qle_bool_iff in A. rewrite E in A. apply Qle_bool_iff in A. congruence.
    - apply Qle_bool_iff in B. rewrite <- E in B. apply Qle_bool_iff in B. congruence. }
  rewrite L. destruct (Qltb q 0).
  - apply Qceiling_comp, E.
  - apply Qfloor_comp, E.
Qed.

Lemma evaluates_rem a b p q :
  evaluates a p -> evaluates b q -> ~ q == 0 ->
  evaluates (rem a b) (p - q * inject_Z (Qtrunc (p / q))).
Proof.
  intros [Fa Va] [Fb Vb] Hq. unfold rem.
  destruct (finite_flags a Fa) as [-> ->].
  destruct (finite_flags b Fb) as [-> ->]. cbn [orb].
  destruct (is_zero b) eqn:Zb.
  { exfalso. apply Hq. apply (evaluates_is_zero (conj Fb Vb)). exact Zb. }
  cbn [orb].
  destruct (is_zero a) eqn:Za.
  - apply (evaluates_is_zero (conj Fa Va)) in Za.
    apply evaluates_norm. split; [exact Fa|].
    assert (T : Qtrunc (p / q) = 0%Z).
    { rewrite (@Qtrunc_comp (p / q) 0); [reflexivity|].
      rewrite Za. unfold Qdiv. ring. }
    rewrite T, Va, Za. ring.
  - eapply evaluates_eq; [apply evaluates_sfin|].
    rewrite (@Qtrunc_comp (val a / val b) (p / q)) by (rewrite Va, Vb; reflexivity).
    rewrite Va, Vb. reflexivity.
Qed.

Lemma evaluates_of_nat n : evaluates (of_nat n) (inject_Z (Z.of_nat n)).
Proof. apply evaluates_of_Z. Qed.

Lemma inject_Z_nonzero n : (0 < n)%Z -> ~ inject_Z n == 0.
Proof.
  intros H E. unfold Qeq in E. cbn in E. lia.
Qed.

(** [Math.floor(i / n)] and [i % n] on a natural index and a positive
    whole [n]. *)
Lemma evaluates_row_col i b n :
  evaluates b (inject_Z n) -> (0 < n)%Z ->
  evaluates (floor (div (of_nat i) b)) (inject_Z (Z.of_nat i / n))
  /\ evaluates (rem (of_nat i) b) (inject_Z (Z.of_nat i mod n)).
Proof.
  intros Hb Hn. pose proof (inject_Z_nonzero Hn) as Nz. split.
  - rewrite <- (Qfloor_div_Z (Z.of_nat i) Hn).
    apply evaluates_floor, evaluates_div; [apply evaluates_of_nat | exact Hb | exact Nz].
  - eapply evaluates_eq; [apply (evaluates_rem (evaluates_of_nat i) Hb Nz)|].
    assert (T : Qtrunc (inject_Z (Z.of_nat i) / inject_Z n) = (Z.of_nat i / n)%Z).
    { unfold Qtrunc. rewrite <- (Qfloor_div_Z (Z.of_nat i) Hn).
      assert (L : Qltb (inject_Z (Z.of_nat i) / inject_Z n) 0 = false).
      { apply Qltb_false. apply Qle_shift_div_l.
        - change 0 with (inject_Z 0). rewrite <- Zlt_Qlt. exact Hn.
        - rewrite Qmult_0_l. change 0 with (inject_Z 0). rewrite <- Zle_Qle. lia. }
      rewrite L. reflexivity. }
    rewrite T. rewrite (Z.mod_eq (Z.of_nat i) n) by lia.
    unfold Z.sub. rewrite inject_Z_plus, inject_Z_opp, inject_Z_mult. ring.
Qed.
End MoreNumFacts.

(** ** Shading in RGB *)

Section RgbShadingFacts.
Import JsNum JsString Colour Value Shade DeviceUtils Uuid.
Local Open Scope string_scope.

Lemma digit_range a : is_hex_digit a = true -> (0 <= digit a <= 15)%Z.
Proof.
  intros H. apply is_hex_digit_cases in H. cbn in H.
  repeat (destruct H as [<- | H]; [vm_compute; split; discriminate|]).
  destruct H.
Qed.

Lemma byteToHex_digits z :
  (0 <= z < 256)%Z ->
  exists c1 c2,
    byteToHex z = String c1 (String c2 "")
    /\ is_hex_digit c1 = true /\ is_hex_digit c2 = true
    /\ (16 * digit c1 + digit c2)%Z = z.
Proof.
  intros H.
  pose (P := fun b : Z =>
    match byteToHex b with
    | String c1 (String c2 EmptyString) =>
        is_hex_digit c1 && is_hex_digit c2
        && Z.eqb (16 * digit c1 + digit c2) b
    | _ => false
    end).
  assert (E : P z = true).
  { apply byte_enum; [vm_compute; reflexivity | exact H]. }
  unfold P in E.
  destruct (byteToHex z) as [|c1 [|c2 [|c3 r]]]; try discriminate E.
  apply andb_true_iff in E. destruct E as [E E3].
  apply andb_true_iff in E. destruct E as [E1 E2].
  apply Z.eqb_eq in E3. exists c1, c2. repeat split; assumption.
Qed.

Lemma hexOfChannels_channels zr zg zb :
  (0 <= zr < 256)%Z -> (0 <= zg < 256)%Z -> (0 <= zb < 256)%Z ->
  is_hex_colour (IsoPoc.hexOfChannels (IInt zr) (IInt zg) (IInt zb)) = true
  /\ red (IsoPoc.hexOfChannels (IInt zr) (IInt zg) (IInt zb)) = zr
  /\ green (IsoPoc.hexOfChannels (IInt zr) (IInt zg) (IInt zb)) = zg
  /\ blue (IsoPoc.hexOfChannels (IInt zr) (IInt zg) (IInt zb)) = zb.
Proof.
  intros Hr Hg Hb. unfold IsoPoc.hexOfChannels.
  change (padStart0 2 (toString16 (IInt zr))) with (byteToHex zr).
  change (padStart0 2 (toString16 (IInt zg))) with (byteToHex zg).
  change (padStart0 2 (toString16 (IInt zb))) with (byteToHex zb).
  destruct (byteToHex_digits Hr) as (a & b & -> & Ha & Hb' & <-).
  destruct (byteToHex_digits Hg) as (c & d & -> & Hc & Hd & <-).
  destruct (byteToHex_digits Hb) as (e & f & -> & He & Hf & <-).
  cbn. rewrite Ha, Hb', Hc, Hd, He, Hf. repeat split.
Qed.

Local Open Scope Q_scope.

Lemma inject_Z_bounds c lo hi :
  (lo <= c <= hi)%Z -> inject_Z lo <= inject_Z c <= inject_Z hi.
Proof. intros [L H]. split; rewrite <- Zle_Qle; assumption. Qed.

Lemma fraction_range p : 0 <= p <= 100 -> 0 <= p / 100 <= 1.
Proof.
  intros [H0 H1].
  assert (E : p / 100 == p * (1 # 100)) by reflexivity.
  rewrite E. split; lra.
Qed.

Lemma channel_range hex i :
  is_hex_colour hex = true -> is_channel i -> (0 <= channel i hex <= 255)%Z.
Proof.
  intros H Hi. destruct (is_hex_colour_inv hex H)
    as (a & b & c & d & e & f & -> & Ha & Hb & Hc & Hd & He & Hf).
  apply digit_range in Ha, Hb, Hc, Hd, He, Hf.
  destruct Hi as [-> | [-> | ->]]; cbn [channel get]; lia.
Qed.

(** What the second version computes, channel by channel. *)
Lemma rgb_shading hex percent p :
  is_hex_colour hex = true -> evaluates percent p ->
  IsoPoc.darkenColor hex percent
  = Returns (IsoPoc.hexOfChannels (IInt (darkened (red hex) p))
                                  (IInt (darkened (green hex) p))
                                  (IInt (darkened (blue hex) p)))
  /\ IsoPoc.lightenColor hex percent
     = Returns (IsoPoc.hexOfChannels (IInt (lightened (red hex) p))
                                     (IInt (lightened (green hex) p))
                                     (IInt (lightened (blue hex) p))).
Proof.
  intros H Hp. destruct (is_hex_colour_inv hex H)
    as (a & b & c & d & e & f & -> & Ha & Hb & Hc & Hd & He & Hf).
  unfold IsoPoc.darkenColor, IsoPoc.lightenColor.
  cbn [remove_first Ascii.eqb Bool.eqb slice substring Nat.sub].
  rewrite !parseInt16_two_digits by assumption.
  unfold red, green, blue. cbn [channel get].
  assert (F : evaluates (1 - percent / 100)%num (1 - p / 100)).
  { apply evaluates_sub; [apply (evaluates_of_Z 1)|].
    apply evaluates_div; [exact Hp | apply (evaluates_of_Z 100) | discriminate]. }
  assert (G : evaluates (percent / 100)%num (p / 100)).
  { apply evaluates_div; [exact Hp | apply (evaluates_of_Z 100) | discriminate]. }
  assert (D : forall z, round (of_Z z * (1 - percent / 100))%num
                        = IInt (darkened z p)).
  { intros z. apply evaluates_round, evaluates_mul; [apply evaluates_of_Z | exact F]. }
  assert (L : forall z, round (of_Z z + (255 - of_Z z) * (percent / 100))%num
                        = IInt (lightened z p)).
  { intros z. unfold lightened. apply evaluates_round.
    apply evaluates_add; [apply evaluates_of_Z|].
    apply evaluates_mul; [|exact G].
    apply evaluates_sub; [apply (evaluates_of_Z 255) | apply evaluates_of_Z]. }
  rewrite !D, !L. split; reflexivity.
Qed.

Lemma byteToHex_lower a b :
  is_hex_digit a = true -> is_hex_digit b = true ->
  byteToHex (16 * digit a + digit b) = String (lower a) (String (lower b) "").
Proof.
  intros Ha Hb. apply is_hex_digit_cases in Ha, Hb. cbn in Ha, Hb.
  repeat (destruct Ha as [<- | Ha]; [
    repeat (destruct Hb as [<- | Hb]; [reflexivity|]); destruct Hb |]).
  destruct Ha.
Qed.

Lemma darkened_zero c : darkened c 0 = c.
Proof.
  unfold darkened.
  assert (E : inject_Z c * (1 - 0 / 100) + (1 # 2) == inject_Z c + (1 # 2)) by field.
  rewrite E.
  assert (L : (c <= Qfloor (inject_Z c + (1 # 2)))%Z) by (apply Qfloor_ge_Z; lra).
  assert (U : (Qfloor (inject_Z c + (1 # 2)) < c + 1)%Z).
  { apply Qfloor_lt_Z. rewrite inject_Z_plus. change (inject_Z 1) with 1. lra. }
  lia.
Qed.

Lemma lightened_zero c : lightened c 0 = c.
Proof.
  unfold lightened.
  assert (E : inject_Z c + (255 - inject_Z c) * (0 / 100) + (1 # 2)
              == inject_Z c + (1 # 2)) by field.
  rewrite E.
  assert (L : (c <= Qfloor (inject_Z c + (1 # 2)))%Z) by (apply Qfloor_ge_Z; lra).
  assert (U : (Qfloor (inject_Z c + (1 # 2)) < c + 1)%Z).
  { apply Qfloor_lt_Z. rewrite inject_Z_plus. change (inject_Z 1) with 1. lra. }
  lia.
Qed.

Lemma darkened_full c : darkened c 100 = 0%Z.
Proof.
  unfold darkened.
  assert (E : inject_Z c * (1 - 100 / 100) + (1 # 2) == 1 # 2) by field.
  rewrite E. reflexivity.
Qed.

Lemma lightened_full c : lightened c 100 = 255%Z.
Proof.
  unfold lightened.
  assert (E : inject_Z c + (255 - inject_Z c) * (100 / 100) + (1 # 2)
              == 511 # 2) by field.
  rewrite E. reflexivity.
Qed.

(** X3.  At 100 percent [darkenColor] gives black and
    [lightenColor] gives white; at 0 percent both give the colour back,
    its digits in lower case. *)
Theorem rgb_shading_extremes hex :
  is_hex_colour hex = true ->
  IsoPoc.darkenColor hex 100%num = Returns "#000000"%string
  /\ IsoPoc.lightenColor hex 100%num = Returns "#ffffff"%string
  /\ IsoPoc.darkenColor hex 0%num = Returns (toLowerCase hex)
  /\ IsoPoc.lightenColor hex 0%num = Returns (toLowerCase hex).
Proof.
  intros H.
  destruct (@rgb_shading hex 100%num 100 H (evaluates_of_Z 100)) as [D1 L1].
  destruct (@rgb_shading hex 0%num 0 H (evaluates_of_Z 0)) as [D0 L0].
  rewrite D1, L1, D0, L0. rewrite !darkened_full, !lightened_full.
  rewrite !darkened_zero, !lightened_zero.
  split; [reflexivity|]. split; [reflexivity|].
  destruct (is_hex_colour_inv hex H)
    as (a & b & c & d & e & f & -> & Ha & Hb & Hc & Hd & He & Hf).
  unfold IsoPoc.hexOfChannels, red, green, blue. cbn [channel get].
  change (padStart0 2 (toString16 (IInt ?z))) with (byteToHex z).
  rewrite !byteToHex_lower by assumption.
  split; reflexivity.
Qed.

Lemma rgb_shading_extremes_witness :
  IsoPoc.darkenColor "#3498DB" 100%num = Returns "#000000"%string
  /\ IsoPoc.lightenColor "#3498DB" 100%num = Returns "#ffffff"%string
  /\ IsoPoc.darkenColor "#3498DB" 0%num = Returns (toLowerCase "#3498DB")
  /\ IsoPoc.lightenColor "#3498DB" 0%num = Returns (toLowerCase "#3498DB").
Proof. apply (@rgb_shading_extremes "#3498DB"). reflexivity. Defined.

Lemma hex_digit_not_hash a : is_hex_digit a = true -> Ascii.eqb a "#" = false.
Proof.
  intros H. apply is_hex_digit_cases in H. cbn in H.
  repeat (destruct H as [<- | H]; [reflexivity|]). destruct H.
Qed.

(** X4.  The leading [#] is optional for the second version:
    the six digits alone are shaded to the same result as the colour
    with its [#], whatever the percentage. *)
Theorem rgb_shading_hash_optional hex percent :
  is_hex_colour hex = true ->
  IsoPoc.darkenColor (slice_from 1 hex) percent
  = IsoPoc.darkenColor hex percent
  /\ IsoPoc.lightenColor (slice_from 1 hex) percent
     = IsoPoc.lightenColor hex percent.
Proof.
  intros H.
  destruct (is_hex_colour_inv hex H)
    as (a & b & c & d & e & f & -> & Ha & Hb & Hc & Hd & He & Hf).
  assert (E : remove_first "#" (slice_from 1
                (String "#" (String a (String b (String c (String d
                  (String e (String f ""))))))))
              = remove_first "#"
                  (String "#" (String a (String b (String c (String d
                    (String e (String f "")))))))).
  { cbn [slice_from String.length Nat.sub substring remove_first].
    rewrite !hex_digit_not_hash by assumption. reflexivity. }
  unfold IsoPoc.darkenColor, IsoPoc.lightenColor. rewrite E.
  split; reflexivity.
Qed.

Lemma rgb_shading_hash_optional_witness :
  IsoPoc.darkenColor (slice_from 1 "#3498db") 25%num
  = IsoPoc.darkenColor "#3498db" 25%num
  /\ IsoPoc.lightenColor (slice_from 1 "#3498db") 25%num
     = IsoPoc.lightenColor "#3498db" 25%num.
Proof. apply (@rgb_shading_hash_optional "#3498db" 25%num). reflexivity. Defined.

(** X5.  A byte printed by [toString(16).padStart(2, '0')] is two
    characters long and [parseInt(_, 16)] reads the byte back. *)
Theorem byteToHex_round_trip b :
  (0 <= b < 256)%Z ->
  String.length (byteToHex b) = 2%nat /\ parseInt16 (byteToHex b) = of_Z b.
Proof.
  intros H. destruct (byteToHex_digits H) as (c1 & c2 & -> & H1 & H2 & <-).
  split; [reflexivity|]. apply parseInt16_two_digits; assumption.
Qed.

Lemma byteToHex_round_trip_witness :
  String.length (byteToHex 10) = 2%nat
  /\ parseInt16 (byteToHex 10) = of_Z 10.
Proof. apply (@byteToHex_round_trip 10). split; [discriminate | reflexivity]. Defined.
End RgbShadingFacts.

(** ** Shading in binary64 *)

Section BinaryShadingFacts.
Import PrimFloat JsNum JsString Colour Shade Shade64 HslMath Uuid.
Local Open Scope string_scope.
Local Open Scope float_scope.

Lemma percentage_enum (P : Z -> bool) :
  forallb P percentages = true ->
  forall p, (0 <= p <= 100)%Z -> P p = true.
Proof.
  intros H p Hp. rewrite forallb_forall in H. apply H.
  unfold percentages. rewrite <- (Z2Nat.id p) by lia.
  apply in_map, in_seq. lia.
Qed.

Lemma all_shaded :
  forallb (fun p => forallb (fun c => shaded c p) all_bytes) percentages
  = true.
Proof. vm_compute. reflexivity. Qed.

Lemma nearestTo_hundredths (x : Q) (n a : Z) :
  (x == inject_Z a / 100)%Q -> (Z.abs (100 * n - a) <= 50)%Z ->
  nearestTo x n.
Proof.
  intros E H. unfold nearestTo.
  assert (D : (inject_Z n - x == inject_Z (100 * n - a) / 100)%Q).
  { rewrite E. unfold Z.sub.
    rewrite inject_Z_plus, inject_Z_mult, inject_Z_opp. field. }
  rewrite D. apply Qabs_Qle_condition.
  assert (L : (- 50 <= 100 * n - a <= 50)%Z) by lia.
  destruct L as [L U]. rewrite Zle_Qle in L, U.
  set (t := inject_Z (100 * n - a)) in *.
  change (inject_Z (-50)) with (-50)%Q in L.
  change (inject_Z 50) with 50%Q in U.
  assert (T : (t / 100 == t * (1 # 100))%Q) by reflexivity.
  rewrite T. split; lra.
Qed.

(** The channels of the second version, for every byte and every whole
    percentage. *)
Lemma shaded_channel c p :
  (0 <= c < 256)%Z -> (0 <= p <= 100)%Z ->
  exists d l,
    darkened c p = IInt d /\ lightened c p = IInt l
    /\ (0 <= d <= c)%Z /\ (c <= l <= 255)%Z
    /\ nearestTo (inject_Z c * (1 - inject_Z p / 100)) d
    /\ nearestTo (inject_Z c + (255 - inject_Z c) * (inject_Z p / 100)) l.
Proof.
  intros Hc Hp.
  pose proof (percentage_enum _ all_shaded Hp) as A. cbv beta in A.
  pose proof (byte_enum _ A Hc) as E. cbv beta in E. clear A.
  unfold shaded in E.
  destruct (darkened c p) as [| |d]; try discriminate E.
  destruct (lightened c p) as [| |l]; try discriminate E.
  repeat (apply andb_true_iff in E; destruct E as [E ?]).
  repeat match goal with
  | H : (_ <=? _)%Z = true |- _ => apply Z.leb_le in H
  end.
  exists d, l. split; [reflexivity|]. split; [reflexivity|].
  split; [lia|]. split; [lia|]. split.
  - apply nearestTo_hundredths with (c * (100 - p))%Z; [|assumption].
    unfold Z.sub. rewrite inject_Z_mult, inject_Z_plus, inject_Z_opp. field.
  - apply nearestTo_hundredths with (100 * c + (255 - c) * p)%Z; [|assumption].
    unfold Z.sub.
    rewrite inject_Z_plus, !inject_Z_mult, inject_Z_plus, inject_Z_opp.
    field.
Qed.

(** What the second version computes, channel by channel. *)
Lemma rgb_shading64 hex p :
  is_hex_colour hex = true ->
  IsoPoc64.darkenColor hex (Binary64.of_Z p)
  = Returns (IsoPoc.hexOfChannels (darkened (red hex) p)
                                  (darkened (green hex) p)
                                  (darkened (blue hex) p))
  /\ IsoPoc64.lightenColor hex (Binary64.of_Z p)
     = Returns (IsoPoc.hexOfChannels (lightened (red hex) p)
                                     (lightened (green hex) p)
                                     (lightened (blue hex) p)).
Proof.
  intros H. destruct (is_hex_colour_inv hex H)
    as (a & b & c & d & e & f & -> & Ha & Hb & Hc & Hd & He & Hf).
  unfold IsoPoc64.darkenColor, IsoPoc64.lightenColor.
  cbn [remove_first Ascii.eqb Bool.eqb slice substring Nat.sub].
  rewrite !parseInt16_two_digits by assumption.
  unfold red, green, blue. cbn [channel get].
  split; reflexivity.
Qed.

(** A well-formed colour shaded by a whole percentage: the results and
    their channels. *)
Lemma rgb_shading_channels hex p :
  is_hex_colour hex = true -> (0 <= p <= 100)%Z ->
  exists darker lighter,
    IsoPoc64.darkenColor hex (Binary64.of_Z p) = Returns darker
    /\ IsoPoc64.lightenColor hex (Binary64.of_Z p) = Returns lighter
    /\ is_hex_colour darker = true /\ is_hex_colour lighter = true
    /\ forall i, is_channel i ->
         (0 <= channel i hex < 256)%Z
         /\ darkened (channel i hex) p = IInt (channel i darker)
         /\ lightened (channel i hex) p = IInt (channel i lighter).
Proof.
  intros H Hp. destruct (@rgb_shading64 hex p H) as [D L].
  assert (C : forall i, is_channel i -> (0 <= channel i hex < 256)%Z).
  { intros i Hi. pose proof (@channel_range hex i H Hi). lia. }
  assert (Cr := C 0%nat (or_introl eq_refl)).
  assert (Cg := C 2%nat (or_intror (or_introl eq_refl))).
  assert (Cb := C 4%nat (or_intror (or_intror eq_refl))).
  fold (red hex) in Cr. fold (green hex) in Cg. fold (blue hex) in Cb.
  destruct (shaded_channel Cr Hp) as (dr & lr & Dr & Lr & Br & Ur & _).
  destruct (shaded_channel Cg Hp) as (dg & lg & Dg & Lg & Bg & Ug & _).
  destruct (shaded_channel Cb Hp) as (db & lb & Db & Lb & Bb & Ub & _).
  rewrite Dr, Dg, Db in D. rewrite Lr, Lg, Lb in L.
  destruct (@hexOfChannels_channels dr dg db) as (Wd & Kr & Kg & Kb);
    try lia.
  destruct (@hexOfChannels_channels lr lg lb) as (Wl & Mr & Mg & Mb);
    try lia.
  do 2 eexists. split; [exact D|]. split; [exact L|].
  split; [exact Wd|]. split; [exact Wl|].
  intros i Hi. split; [exact (C i Hi)|].
  unfold red, green, blue in *.
  destruct Hi as [-> | [-> | ->]].
  - rewrite Kr, Mr. split; assumption.
  - rewrite Kg, Mg. split; assumption.
  - rewrite Kb, Mb. split; assumption.
Qed.

(** X1.  On a well-formed colour and a whole percentage from 0 to
    100 the [darkenColor] and [lightenColor] of the second version,
    computed in binary64, return, and what they return is again a
    well-formed colour: [#] and six hexadecimal digits. *)
Theorem rgb_shading_well_formed hex p :
  is_hex_colour hex = true -> (0 <= p <= 100)%Z ->
  exists darker lighter,
    IsoPoc64.darkenColor hex (Binary64.of_Z p) = Returns darker
    /\ IsoPoc64.lightenColor hex (Binary64.of_Z p) = Returns lighter
    /\ is_hex_colour darker = true /\ is_hex_colour lighter = true.
Proof.
  intros H Hp.
  destruct (@rgb_shading_channels hex p H Hp) as (darker & lighter & D & L & Wd & Wl & _).
  exists darker, lighter. repeat split; assumption.
Qed.

Lemma rgb_shading_well_formed_witness :
  exists darker lighter,
    IsoPoc64.darkenColor "#2d2d2d" (Binary64.of_Z 30) = Returns darker
    /\ IsoPoc64.lightenColor "#2d2d2d" (Binary64.of_Z 30) = Returns lighter
    /\ is_hex_colour darker = true /\ is_hex_colour lighter = true.
Proof.
  apply (@rgb_shading_well_formed "#2d2d2d" 30); [reflexivity | lia].
Defined.

(** X2.  For a well-formed colour and a whole percentage from 0 to
    100, computed in binary64, no channel of the darkened colour is
    above the channel of the colour, and no channel of the lightened
    colour is below it; all of them stay within 0 .. 255. *)
Theorem rgb_shading_monotone hex p darker lighter i :
  is_hex_colour hex = true -> (0 <= p <= 100)%Z ->
  IsoPoc64.darkenColor hex (Binary64.of_Z p) = Returns darker ->
  IsoPoc64.lightenColor hex (Binary64.of_Z p) = Returns lighter ->
  is_channel i ->
  (0 <= channel i darker <= channel i hex)%Z
  /\ (channel i hex <= channel i lighter <= 255)%Z.
Proof.
  intros H Hp D L Hi.
  destruct (@rgb_shading_channels hex p H Hp)
    as (darker' & lighter' & D' & L' & _ & _ & K).
  rewrite D in D'. injection D' as <-. rewrite L in L'. injection L' as <-.
  destruct (K i Hi) as (C & Kd & Kl).
  destruct (shaded_channel C Hp) as (d & l & Ed & El & Bd & Bl & _).
  rewrite Kd in Ed. injection Ed as ->. rewrite Kl in El. injection El as ->.
  split; assumption.
Qed.

Lemma rgb_shading_monotone_witness :
  (0 <= channel 2 "#1f1f1f" <= channel 2 "#2d2d2d")%Z
  /\ (channel 2 "#2d2d2d" <= channel 2 "#6c6c6c" <= 255)%Z.
Proof.
  apply (@rgb_shading_monotone "#2d2d2d" 30 "#1f1f1f" "#6c6c6c" 2%nat);
    [reflexivity | lia | vm_compute; reflexivity | vm_compute; reflexivity
    | right; left; reflexivity].
Defined.




End BinaryShadingFacts.

(** ** The rack view: geometry and counts *)

Section BoxFacts.
Import JsNum JsArray Svg IsoPoc Scene Value Box.
Local Open Scope string_scope.
Local Open Scope Q_scope.

Lemma frontFace_edges rack placedDevice device h p u :
  evaluates (height rack) h -> evaluates (position placedDevice) p ->
  evaluates (u_height device) u ->
  exists rect,
    frontFace rack placedDevice device = Some rect
    /\ leftEdge rect == 19 /\ rightEdge rect == 201
    /\ topEdge rect == (h - p - u + 1) * 22 + 22
    /\ bottomEdge rect == (h - p + 1) * 22 + 20.
Proof.
  intros Hh Hp Hu. eexists. split; [reflexivity|].
  unfold leftEdge, rightEdge, topEdge, bottomEdge, numAttr. cbn [attr attrs lookup_attr String.eqb Ascii.eqb Bool.eqb].
  assert (Y : evaluates
                ((height rack - position placedDevice - u_height device + 1)
                 * U_HEIGHT + RACK_PADDING + RAIL_WIDTH + 1)%num
                ((h - p - u + 1) * 22 + 4 + 17 + 1)) by evaluate.
  assert (Hgt : evaluates (u_height device * U_HEIGHT - 2)%num (u * 22 - 2))
    by evaluate.
  destruct Y as [_ Y]. destruct Hgt as [_ Hgt].
  split; [reflexivity|]. split; [reflexivity|].
  rewrite Y, Hgt. split; ring.
Qed.

Lemma interior_edges rack h :
  evaluates (height rack) h ->
  exists box,
    interior rack = Some box
    /\ leftEdge box == 17 /\ rightEdge box == 203
    /\ topEdge box == 21 /\ bottomEdge box == 21 + h * 22.
Proof.
  intros Hh. eexists. split; [reflexivity|].
  unfold leftEdge, rightEdge, topEdge, bottomEdge, numAttr. cbn [attr attrs lookup_attr String.eqb Ascii.eqb Bool.eqb].
  assert (Hgt : evaluates (height rack * U_HEIGHT)%num (h * 22)) by evaluate.
  destruct Hgt as [_ Hgt].
  split; [reflexivity|]. split; [reflexivity|]. split; [reflexivity|].
  rewrite Hgt. reflexivity.
Qed.

(** X8.  The front rectangle of a placed device lies two pixels
    inside the rack interior on the left and on the right, whatever the
    placement; it lies inside the interior vertically, one pixel from
    its top and bottom edges at least, exactly when the units of the
    placement are within the rack: 1 <= position and
    position + u_height - 1 <= height. *)
Theorem deviceRect_inside_interior rack placedDevice device h p u :
  evaluates (height rack) h -> evaluates (position placedDevice) p ->
  evaluates (u_height device) u ->
  exists rect box,
    frontFace rack placedDevice device = Some rect
    /\ interior rack = Some box
    /\ leftEdge box + 2 == leftEdge rect /\ rightEdge rect + 2 == rightEdge box
    /\ (withinRack h p u
        <-> topEdge box + 1 <= topEdge rect /\ bottomEdge rect + 1 <= bottomEdge box).
Proof.
  intros Hh Hp Hu.
  destruct (frontFace_edges rack placedDevice device Hh Hp Hu)
    as (rect & Er & Lr & Rr & Tr & Br).
  destruct (interior_edges rack Hh) as (box & Eb & Lb & Rb & Tb & Bb).
  exists rect, box. split; [exact Er|]. split; [exact Eb|].
  rewrite Lr, Rr, Tr, Br, Lb, Rb, Tb, Bb. unfold withinRack.
  split; [reflexivity|]. split; [reflexivity|].
  split; intros [A B]; split; lra.
Qed.

Lemma deviceRect_inside_interior_witness :
  exists rect box,
    frontFace rack42 (place "ups" 1%num) ups2u = Some rect
    /\ interior rack42 = Some box
    /\ leftEdge box + 2 == leftEdge rect /\ rightEdge rect + 2 == rightEdge box
    /\ (withinRack 42 1 2
        <-> topEdge box + 1 <= topEdge rect /\ bottomEdge rect + 1 <= bottomEdge box).
Proof.
  apply (@deviceRect_inside_interior rack42 (place "ups" 1%num) ups2u 42 1 2);
    split; reflexivity.
Defined.

(** X9.  Two devices of one rack: the upper one starts at or above
    the unit where the lower one ends (q + v <= p) exactly when the
    bottom edge of its front rectangle is two pixels or more above the
    top edge of the rectangle of the lower one.  Placements that share
    no unit are drawn apart. *)
Theorem stacked_devices_apart rack upper lower upperType lowerType h p u q v :
  evaluates (height rack) h ->
  evaluates (position upper) p -> evaluates (u_height upperType) u ->
  evaluates (position lower) q -> evaluates (u_height lowerType) v ->
  exists upperRect lowerRect,
    frontFace rack upper upperType = Some upperRect
    /\ frontFace rack lower lowerType = Some lowerRect
    /\ (q + v <= p <-> bottomEdge upperRect + 2 <= topEdge lowerRect).
Proof.
  intros Hh Hp Hu Hq Hv.
  destruct (frontFace_edges rack upper upperType Hh Hp Hu)
    as (r1 & E1 & _ & _ & _ & B1).
  destruct (frontFace_edges rack lower lowerType Hh Hq Hv)
    as (r2 & E2 & _ & _ & T2 & _).
  exists r1, r2. split; [exact E1|]. split; [exact E2|].
  rewrite B1, T2. split; intros A; lra.
Qed.

Lemma stacked_devices_apart_witness :
  exists upperRect lowerRect,
    frontFace rack42 (place "ups" 3%num) ups2u = Some upperRect
    /\ frontFace rack42 (place "ups" 1%num) ups2u = Some lowerRect
    /\ (1 + 2 <= 3 <-> bottomEdge upperRect + 2 <= topEdge lowerRect).
Proof.
  apply (@stacked_devices_apart rack42 (place "ups" 3%num) (place "ups" 1%num)
           ups2u ups2u 42 3 2 1 2); split; reflexivity.
Defined.

Lemma resolve_length devs l :
  List.length (resolve devs l) = List.length (filter (found devs) l).
Proof.
  induction l as [|pd l IH]; [reflexivity|].
  cbn [resolve filter]. unfold found at 1.
  destruct (findDevice devs pd); cbn [List.length]; congruence.
Qed.

Lemma flat_map_length3 rack l :
  List.length (flat_map (elementsOf rack) l) = (3 * List.length l)%nat.
Proof.
  induction l as [|e l IH]; [reflexivity|].
  cbn [flat_map]. rewrite length_app, elementsOf_length, IH.
  cbn [List.length]. lia.
Qed.

(** X10.  The group of [renderRack] has eight elements for the
    frame and the label and three for every placed device whose type
    is in the library; a placed device of an unknown type adds
    nothing. *)
Theorem renderRack_child_count rack devs xOffset yOffset label :
  exists g,
    renderRack rack devs xOffset yOffset label = Returns g
    /\ List.length (children g)
       = (8 + 3 * List.length (filter (found devs) (devices rack)))%nat.
Proof.
  destruct (renderRack_children rack devs xOffset yOffset label)
    as (frame & Ef & E).
  eexists. split; [exact E|]. cbn [children].
  assert (Lf : List.length frame = 7%nat).
  { unfold rackFrame, darkenColor, lightenColor in Ef. cbn [bind] in Ef.
    injection Ef as <-. reflexivity. }
  rewrite !length_app, Lf. unfold drawn, paintOrder.
  rewrite flat_map_length3, resolve_length. unfold sortedDevices.
  rewrite (Permutation_length
             (filter_Permutation (found devs)
                (sort_Permutation (fun a b => sub (position b) (position a))
                                  (devices rack)))).
  cbn [List.length]. lia.
Qed.
End BoxFacts.

(** ** The port grid *)

Section GridFacts.
Import JsNum PortLayout Ports Value Grid.
Local Open Scope string_scope.
Local Open Scope Q_scope.

Lemma nth_error_indexed (A : Type) (l : list A) start i :
  nth_error (indexed start l) i
  = option_map (fun a => (a, (start + i)%nat)) (nth_error l i).
Proof.
  revert start i. induction l as [|a l IH]; intros start [|i]; cbn [indexed nth_error option_map];
    try reflexivity.
  - rewrite Nat.add_0_r. reflexivity.
  - rewrite IH. rewrite Nat.add_succ_comm. reflexivity.
Qed.

(** The port of index [i] sits in row [i / n] and column [i mod n] of a
    grid of cells [2r + s] wide and [2r + 2] high. *)
Lemma calculatePositions_grid interfaces rows portsPerRow spacing rad
      positions n s r i pos :
  calculatePositions interfaces rows portsPerRow spacing rad
  = Returns positions ->
  evaluates portsPerRow (inject_Z n) -> (0 < n)%Z ->
  evaluates spacing s -> evaluates rad r ->
  nth_error positions i = Some pos ->
  nth_error interfaces i = Some (interface pos)
  /\ radius pos = rad
  /\ evaluates (x pos)
       (s + inject_Z (Z.of_nat i mod n) * (r * 2 + s) + r)
  /\ evaluates (y pos) (inject_Z (Z.of_nat i / n) * (r * 2 + 2) + r).
Proof.
  intros E Hn Pn Hs Hr Hi. unfold calculatePositions in E.
  injection E as <-. rewrite nth_error_map, nth_error_indexed in Hi.
  destruct (nth_error interfaces i) as [iface|]; [|discriminate Hi].
  cbn [option_map] in Hi. injection Hi as <-. cbn [interface radius x y].
  destruct (evaluates_row_col i Hn Pn) as [Row Col]. cbn [Nat.add].
  split; [reflexivity|]. split; [reflexivity|].
  split; evaluate.
Qed.

Lemma square_nonneg (a : Q) : 0 <= a * a.
Proof. nra. Qed.

Lemma apart_by_cell a b c :
  a <> b -> 0 <= c ->
  c * c <= ((inject_Z a - inject_Z b) * c) * ((inject_Z a - inject_Z b) * c).
Proof.
  intros N C.
  assert (D : 1 <= (inject_Z a - inject_Z b) * (inject_Z a - inject_Z b)).
  { assert (Z : (1 <= (a - b) * (a - b))%Z) by nia.
    rewrite Zle_Qle in Z. rewrite inject_Z_mult in Z.
    unfold Z.sub in Z. rewrite inject_Z_plus, inject_Z_opp in Z. exact Z. }
  pose proof (square_nonneg c) as S.
  setoid_replace ((inject_Z a - inject_Z b) * c * ((inject_Z a - inject_Z b) * c))
    with ((inject_Z a - inject_Z b) * (inject_Z a - inject_Z b) * (c * c)) by ring.
  nra.
Qed.

(** X14.  For a positive whole number of ports per row, a spacing
    and a radius that are not negative, the circles that
    [calculatePositions] gives to two different interfaces do not
    overlap: their centres are at least a diameter apart. *)
Theorem calculatePositions_no_overlap interfaces rows portsPerRow spacing rad
        positions n s r i j a b :
  calculatePositions interfaces rows portsPerRow spacing rad
  = Returns positions ->
  evaluates portsPerRow (inject_Z n) -> (0 < n)%Z ->
  evaluates spacing s -> evaluates rad r -> 0 <= s -> 0 <= r ->
  nth_error positions i = Some a -> nth_error positions j = Some b ->
  i <> j ->
  (2 * r) * (2 * r) <= distance2 a b.
Proof.
  intros E Hn Pn Hs Hr S0 R0 Ha Hb Nij.
  destruct (@calculatePositions_grid interfaces rows portsPerRow spacing rad
              positions n s r i a E Hn Pn Hs Hr Ha)
    as (_ & _ & [_ Xa] & [_ Ya]).
  destruct (@calculatePositions_grid interfaces rows portsPerRow spacing rad
              positions n s r j b E Hn Pn Hs Hr Hb)
    as (_ & _ & [_ Xb] & [_ Yb]).
  unfold distance2. rewrite Xa, Xb, Ya, Yb.
  set (ci := (Z.of_nat i mod n)%Z). set (cj := (Z.of_nat j mod n)%Z).
  set (ri := (Z.of_nat i / n)%Z). set (rj := (Z.of_nat j / n)%Z).
  assert (Cases : ri <> rj \/ ci <> cj).
  { destruct (Z.eq_dec ri rj) as [Er|Nr]; [|left; exact Nr].
    right. intros Ec. apply Nij. apply Nat2Z.inj.
    rewrite (Z.div_mod (Z.of_nat i) n), (Z.div_mod (Z.of_nat j) n) by lia.
    fold ci cj ri rj. congruence. }
  setoid_replace (s + inject_Z ci * (r * 2 + s) + r
                  - (s + inject_Z cj * (r * 2 + s) + r))
    with ((inject_Z ci - inject_Z cj) * (r * 2 + s)) by ring.
  setoid_replace (inject_Z ri * (r * 2 + 2) + r
                  - (inject_Z rj * (r * 2 + 2) + r))
    with ((inject_Z ri - inject_Z rj) * (r * 2 + 2)) by ring.
  pose proof (square_nonneg ((inject_Z ci - inject_Z cj) * (r * 2 + s))) as SX.
  pose proof (square_nonneg ((inject_Z ri - inject_Z rj) * (r * 2 + 2))) as SY.
  destruct Cases as [Nr | Nc].
  - assert (C : 0 <= r * 2 + 2) by lra.
    pose proof (apart_by_cell Nr C) as A.
    assert (B : 2 * r * (2 * r) <= (r * 2 + 2) * (r * 2 + 2)) by nra.
    lra.
  - assert (C : 0 <= r * 2 + s) by lra.
    pose proof (apart_by_cell Nc C) as A.
    assert (B : 2 * r * (2 * r) <= (r * 2 + s) * (r * 2 + s)) by nra.
    lra.
Qed.

Lemma calculatePositions_no_overlap_witness :
  exists positions a b,
    calculatePositions (ports copper 48) 2%num 24%num 2%num 3%num
    = Returns positions
    /\ nth_error positions 5 = Some a /\ nth_error positions 29 = Some b
    /\ (2 * 3) * (2 * 3) <= distance2 a b.
Proof.
  do 3 eexists. split; [reflexivity|]. split; [reflexivity|].
  split; [reflexivity|].
  apply (@calculatePositions_no_overlap (ports copper 48) 2%num 24%num 2%num
           3%num _ 24%Z 2 3 5 29 _ _ eq_refl);
    try (split; reflexivity); try discriminate; try reflexivity; lia.
Defined.

Lemma Qdiv_ge_1 a c : 0 < c -> c <= a -> 1 <= a / c.
Proof.
  intros C H. apply Qle_shift_div_l; [exact C|]. rewrite Qmult_1_l. exact H.
Qed.

Lemma Qdiv_pos a c : 0 < c -> 0 < a -> 0 < a / c.
Proof.
  intros C H. apply Qlt_shift_div_l; [exact C|]. rewrite Qmult_0_l. exact H.
Qed.

Lemma Qceiling_pos x : 0 < x -> (1 <= Qceiling x)%Z.
Proof.
  intros H. assert (L : (0 < Qceiling x)%Z); [|lia].
  rewrite Zlt_Qlt. apply Qlt_le_trans with x; [exact H | apply Qle_ceiling].
Qed.

Lemma inject_Z_pos n : (1 <= n)%Z -> 0 < inject_Z n.
Proof. intros H. change 0 with (inject_Z 0). rewrite <- Zlt_Qlt. lia. Qed.

(** Capacity: [ceil(n / r)] slots in each of [r] rows hold [n]. *)
Lemma Qceiling_capacity n r :
  (1 <= r)%Z -> (n <= Qceiling (inject_Z n / inject_Z r) * r)%Z.
Proof.
  intros Hr. pose proof (inject_Z_pos Hr) as Rp.
  pose proof (Qle_ceiling (inject_Z n / inject_Z r)) as L.
  rewrite Zle_Qle, inject_Z_mult.
  apply Qle_trans with (inject_Z n / inject_Z r * inject_Z r).
  - assert (E : inject_Z n / inject_Z r * inject_Z r == inject_Z n).
    { field. intros Z. rewrite Z in Rp. discriminate Rp. }
    rewrite E. apply Qle_refl.
  - apply Qmult_le_compat_r; [exact L | apply Qlt_le_weak, Rp].
Qed.

(** The numbers of steps 2, 4 and 5 for a device at least one row high
    and one cell wide. *)
Lemma layout_numbers W H w h N :
  evaluates W w -> evaluates H h -> 8 <= w -> 16 <= h -> (1 <= N)%nat ->
  exists R P : Z,
    (1 <= R)%Z /\ inject_Z R * 8 <= h - 8 /\ (1 <= P)%Z
    /\ (Z.of_nat N <= P * R)%Z
    /\ evaluates (optimalRows W H (of_nat N)) (inject_Z R)
    /\ evaluates (ceil (div (of_nat N) (optimalRows W H (of_nat N))))
                 (inject_Z P).
Proof.
  intros HW HH Hw Hh HN. unfold optimalRows, maxRows.
  assert (E8 : ~ 3 * 2 + 2 == 0) by (intros Z; vm_compute in Z; discriminate Z).
  assert (A : evaluates ((H - PORT_Y_OFFSET) / (PORT_RADIUS_DEFAULT * 2 + 2))%num
                        ((h - 8) / (3 * 2 + 2))).
  { apply evaluates_div; [evaluate | evaluate | exact E8]. }
  apply evaluates_floor in A.
  set (M := Qfloor ((h - 8) / (3 * 2 + 2))) in *.
  assert (M1 : (1 <= M)%Z).
  { apply Qfloor_ge_Z. apply Qdiv_ge_1; [reflexivity|].
    setoid_replace (3 * 2 + 2) with 8 by reflexivity. lra. }
  assert (M8 : inject_Z M * 8 <= h - 8).
  { pose proof (Qfloor_le ((h - 8) / (3 * 2 + 2))) as L. fold M in L.
    assert (E : (h - 8) / (3 * 2 + 2) * 8 == h - 8) by field.
    rewrite <- E. apply Qmult_le_compat_r; [exact L | discriminate]. }
  assert (B : evaluates (W / 8)%num (w / 8)).
  { apply evaluates_div; [exact HW | evaluate | discriminate]. }
  apply evaluates_floor in B.
  set (K := Qfloor (w / 8)) in *.
  assert (K1 : (1 <= K)%Z).
  { apply Qfloor_ge_Z. apply Qdiv_ge_1; [reflexivity | exact Hw]. }
  assert (Np : 0 < inject_Z (Z.of_nat N)) by (apply inject_Z_pos; lia).
  assert (C : evaluates (of_nat N / floor (W / 8))%num
                        (inject_Z (Z.of_nat N) / inject_Z K)).
  { apply evaluates_div; [apply evaluates_of_nat | exact B|].
    apply inject_Z_nonzero. lia. }
  apply evaluates_ceil in C.
  set (Cc := Qceiling (inject_Z (Z.of_nat N) / inject_Z K)) in *.
  assert (C1 : (1 <= Cc)%Z).
  { apply Qceiling_pos, Qdiv_pos; [apply inject_Z_pos, K1 | exact Np]. }
  assert (Rw : exists R, (1 <= R <= M)%Z
            /\ evaluates (min (floor ((H - PORT_Y_OFFSET)
                                      / (PORT_RADIUS_DEFAULT * 2 + 2)))
                              (ceil (of_nat N / floor (W / 8))))%num
                         (inject_Z R)).
  { destruct (Z_le_gt_dec M Cc) as [L | G].
    - exists M. split; [lia|]. apply (evaluates_min_l A C).
      rewrite <- Zle_Qle. exact L.
    - exists Cc. split; [lia|]. apply (evaluates_min_r A C).
      rewrite <- Zle_Qle. lia. }
  destruct Rw as (R & [R1 RM] & HR).
  assert (D : evaluates (of_nat N
                / min (floor ((H - PORT_Y_OFFSET)
                              / (PORT_RADIUS_DEFAULT * 2 + 2)))
                      (ceil (of_nat N / floor (W / 8))))%num
              (inject_Z (Z.of_nat N) / inject_Z R)).
  { apply evaluates_div; [apply evaluates_of_nat | exact HR|].
    apply inject_Z_nonzero. lia. }
  apply evaluates_ceil in D.
  exists R, (Qceiling (inject_Z (Z.of_nat N) / inject_Z R)).
  split; [exact R1|]. split.
  { apply Qle_trans with (inject_Z M * 8); [|exact M8].
    apply Qmult_le_compat_r; [|discriminate]. rewrite <- Zle_Qle. exact RM. }
  split.
  { apply Qceiling_pos, Qdiv_pos; [apply inject_Z_pos, R1 | exact Np]. }
  split; [apply Qceiling_capacity, R1|].
  split; [exact HR | exact D].
Qed.

(** What an individual result is made of. *)
Lemma calculatePortLayout_individual_inv W H interfaces zoom rackWidth
      rows portsPerRow rad sp positions :
  calculatePortLayout W H interfaces zoom rackWidth
  = Returns (individual rows portsPerRow rad sp positions) ->
  rows = optimalRows W H (of_nat (List.length interfaces))
  /\ portsPerRow = ceil (div (of_nat (List.length interfaces)) rows)
  /\ ((rad = PORT_RADIUS_DEFAULT
       /\ lt ((W - portsPerRow * PORT_RADIUS_DEFAULT * 2)
              / (portsPerRow + 1))%num PORT_SPACING_MIN = false)
      \/ (rad = PORT_RADIUS_MIN
          /\ lt ((W - portsPerRow * PORT_RADIUS_DEFAULT * 2)
                 / (portsPerRow + 1))%num PORT_SPACING_MIN = true))
  /\ sp = ((W - portsPerRow * rad * 2) / (portsPerRow + 1))%num
  /\ calculatePositions interfaces rows portsPerRow sp rad
     = Returns positions.
Proof.
  unfold calculatePortLayout.
  destruct (lt zoom (Fin (1 # 2))); [discriminate|].
  match goal with
  | |- context [if ?c then _ else _] => destruct c
  end; [cbn [bind groupInterfacesByType]; discriminate|].
  fold (maxRows H).
  fold (optimalRows W H (of_nat (List.length interfaces))).
  match goal with
  | |- context [if ?c then _ else _] => destruct c eqn:S6
  end; cbn [bind calculatePositions]; intros E; injection E as <- <- <- <- <-;
    (split; [reflexivity|]); (split; [reflexivity|]);
    (split; [auto|]); split; reflexivity.
Qed.

Lemma inject_Z_mod_bounds i n :
  (0 < n)%Z ->
  0 <= inject_Z (Z.of_nat i mod n)
  /\ inject_Z (Z.of_nat i mod n) + 1 <= inject_Z n.
Proof.
  intros H. pose proof (Z.mod_pos_bound (Z.of_nat i) n H) as [L U]. split.
  - change 0 with (inject_Z 0). rewrite <- Zle_Qle. exact L.
  - change 1 with (inject_Z 1). rewrite <- inject_Z_plus, <- Zle_Qle. lia.
Qed.

Lemma inject_Z_div_bounds i n c r :
  (0 < n)%Z -> (Z.of_nat i < Z.of_nat c)%Z -> (Z.of_nat c <= n * r)%Z ->
  0 <= inject_Z (Z.of_nat i / n)
  /\ inject_Z (Z.of_nat i / n) + 1 <= inject_Z r.
Proof.
  intros H I C. split.
  - change 0 with (inject_Z 0). rewrite <- Zle_Qle.
    apply Z.div_pos; lia.
  - change 1 with (inject_Z 1). rewrite <- inject_Z_plus, <- Zle_Qle.
    assert (Z.of_nat i / n < r)%Z; [|lia].
    apply Z.div_lt_upper_bound; lia.
Qed.

(** X15.  For a device a whole number of pixels wide, at least 8,
    and at least 16 high, every port of an individual result keeps its
    interface and its circle fits the height left under the offset:
    0 <= y - r and y + r <= deviceHeight - 8.  The radius is 3 with a
    spacing of 2 or more, or else 2; and when the spacing is not
    negative the circle lies within the width of the device:
    0 <= x - r and x + r <= deviceWidth. *)
Theorem individual_ports_inside_device W H interfaces zoom rackWidth
        (deviceWidth : Z) h rows portsPerRow rad sp positions i pos :
  evaluates W (inject_Z deviceWidth) -> evaluates H h ->
  (8 <= deviceWidth)%Z -> 16 <= h ->
  calculatePortLayout W H interfaces zoom rackWidth
  = Returns (individual rows portsPerRow rad sp positions) ->
  nth_error positions i = Some pos ->
  exists cx cy r s,
    evaluates (x pos) cx /\ evaluates (y pos) cy
    /\ evaluates (radius pos) r /\ evaluates sp s
    /\ nth_error interfaces i = Some (interface pos)
    /\ (r == 3 /\ 2 <= s \/ r == 2)
    /\ 0 <= cy - r /\ cy + r <= h - 8
    /\ (0 <= s -> 0 <= cx - r /\ cx + r <= inject_Z deviceWidth).
Proof.
  intros HW HH Hwz Hh E Hi.
  set (w := inject_Z deviceWidth) in *.
  assert (Hw : 8 <= w).
  { unfold w. change 8 with (inject_Z 8). rewrite <- Zle_Qle. exact Hwz. }
  destruct (calculatePortLayout_individual_inv _ _ _ _ _ E)
    as (Erows & Eppr & Erad & Esp & Epos).
  assert (Len : (i < List.length interfaces)%nat).
  { apply nth_error_Some. unfold calculatePositions in Epos.
    injection Epos as <-. rewrite nth_error_map, nth_error_indexed in Hi.
    destruct (nth_error interfaces i); [discriminate | discriminate Hi]. }
  assert (N1 : (1 <= List.length interfaces)%nat) by lia.
  destruct (layout_numbers HW HH Hw Hh N1)
    as (R & P & R1 & R8 & P1 & Cap & HR & HP).
  rewrite <- Erows in HP. rewrite <- Eppr in HP.
  assert (Pp : 0 < inject_Z P) by (apply inject_Z_pos, P1).
  assert (Radius : exists r, evaluates rad r /\ (r = 3 \/ r = 2)
            /\ (r = 3 -> lt ((W - portsPerRow * PORT_RADIUS_DEFAULT * 2)
                             / (portsPerRow + 1))%num PORT_SPACING_MIN = false)).
  { destruct Erad as [[-> L] | [-> L]].
    - exists 3. split; [apply evaluates_Fin|]. split; [left; reflexivity|].
      intros _. exact L.
    - exists 2. split; [apply evaluates_Fin|]. split; [right; reflexivity|].
      intros D. discriminate D. }
  destruct Radius as (r & Hr & Rcase & Rlt).
  assert (Nz : ~ inject_Z P + 1 == 0).
  { intros Z. lra. }
  assert (Hs : evaluates sp ((w - inject_Z P * r * 2) / (inject_Z P + 1))).
  { rewrite Esp. apply evaluates_div; [evaluate | evaluate | exact Nz]. }
  set (s := (w - inject_Z P * r * 2) / (inject_Z P + 1)) in *.
  assert (Seq : s * (inject_Z P + 1) == w - inject_Z P * r * 2).
  { unfold s. field. exact Nz. }
  destruct (@calculatePositions_grid interfaces rows portsPerRow sp rad
              positions P s r i pos Epos HP) as (Ei & Er & Hx & Hy);
    [lia | exact Hs | exact Hr | exact Hi |].
  destruct (@inject_Z_mod_bounds i P) as [C0 C1]; [lia|].
  destruct (@inject_Z_div_bounds i P (List.length interfaces) R)
    as [D0 D1]; [lia | lia | exact Cap |].
  set (c := inject_Z (Z.of_nat i mod P)) in *.
  set (d := inject_Z (Z.of_nat i / P)) in *.
  exists (s + c * (r * 2 + s) + r), (d * (r * 2 + 2) + r), r, s.
  split; [exact Hx|]. split; [exact Hy|].
  split; [rewrite Er; exact Hr|]. split; [exact Hs|]. split; [exact Ei|].
  split.
  { destruct Rcase as [-> | ->]; [left | right; reflexivity].
    split; [reflexivity|].
    assert (L := Rlt eq_refl).
    assert (Hs3 : evaluates ((W - portsPerRow * PORT_RADIUS_DEFAULT * 2)
                             / (portsPerRow + 1))%num s).
    { unfold s. apply evaluates_div; [evaluate | evaluate | exact Nz]. }
    destruct (Qlt_le_dec s 2) as [Lt | Ge]; [|exact Ge].
    apply (evaluates_lt Hs3 (evaluates_Fin 2)) in Lt.
    unfold PORT_SPACING_MIN in L. congruence. }
  assert (Rpos : 0 < r) by (destruct Rcase as [-> | ->]; reflexivity).
  assert (Rle : r <= 3) by (destruct Rcase as [-> | ->]; discriminate).
  split.
  { assert (0 <= d * (r * 2 + 2)) by (apply Qmult_le_0_compat; lra). lra. }
  split.
  { assert (T : d * (r * 2 + 2) <= (inject_Z R - 1) * 8).
    { apply Qle_trans with ((inject_Z R - 1) * (r * 2 + 2)).
      - apply Qmult_le_compat_r; lra.
      - rewrite !(Qmult_comm (inject_Z R - 1)).
        apply Qmult_le_compat_r; lra. }
    lra. }
  intros S0.
  assert (T1 : 0 <= c * (r * 2 + s)) by (apply Qmult_le_0_compat; lra).
  assert (T2 : 0 <= (inject_Z P - c - 1) * (r * 2 + s))
    by (apply Qmult_le_0_compat; lra).
  split; [lra|]. apply Qle_trans with (w - s); [|lra].
  assert (T3 : (inject_Z P - c - 1) * (r * 2 + s)
               == w - s - (s + c * (r * 2 + s) + r + r)).
  { setoid_replace (w - s - (s + c * (r * 2 + s) + r + r))
      with (s * (inject_Z P + 1) + inject_Z P * r * 2 - s
            - (s + c * (r * 2 + s) + r + r)) by (rewrite Seq; ring).
    ring. }
  rewrite T3 in T2. lra.
Qed.

Lemma individual_ports_inside_device_witness :
  exists rows portsPerRow rad sp positions pos,
    calculatePortLayout 186%num 22%num (ports copper 12) 1%num W19
    = Returns (individual rows portsPerRow rad sp positions)
    /\ nth_error positions 5 = Some pos
    /\ exists cx cy r s,
        evaluates (x pos) cx /\ evaluates (y pos) cy
        /\ evaluates (radius pos) r /\ evaluates sp s
        /\ nth_error (ports copper 12) 5 = Some (interface pos)
        /\ (r == 3 /\ 2 <= s \/ r == 2)
        /\ 0 <= cy - r /\ cy + r <= 22 - 8
        /\ (0 <= s -> 0 <= cx - r /\ cx + r <= inject_Z 186).
Proof.
  do 6 eexists. split; [vm_compute; reflexivity|].
  split; [reflexivity|].
  eapply (@individual_ports_inside_device 186%num 22%num (ports copper 12)
            1%num W19 186%Z 22 _ _ _ _ _ 5 _);
    [split; reflexivity | split; reflexivity | lia | discriminate
    | vm_compute; reflexivity | reflexivity].
Defined.

Ltac compare_cases :=
  repeat match goal with
  | H : context [Qcompare ?a ?b] |- _ =>
      let C := fresh "C" in
      destruct (Qcompare a b) eqn:C;
        [apply Qeq_alt in C | apply Qlt_alt in C | apply Qgt_alt in C]
  | |- context [Qcompare ?a ?b] =>
      let C := fresh "C" in
      destruct (Qcompare a b) eqn:C;
        [apply Qeq_alt in C | apply Qlt_alt in C | apply Qgt_alt in C]
  end.

(** [a <= b] and [b < c] give [a < c], whatever the numbers. *)
Lemma le_lt_trans a b c : le a b = true -> lt b c = true -> lt a c = true.
Proof.
  destruct a as [| | | |p], b as [| | | |q], c as [| | | |t];
    unfold le, lt, cmp; cbn [val]; intros H1 H2;
    try discriminate H1; try discriminate H2; try reflexivity;
    compare_cases; try discriminate; try reflexivity; exfalso; lra.
Qed.

Lemma calculatePortLayout_same_individual W H interfaces z z' rackWidth rackWidth' :
  lt z (Fin (1 # 2)) = false -> lt z' (Fin (1 # 2)) = false ->
  needsGrouping W H (of_nat (List.length interfaces)) z = false ->
  needsGrouping W H (of_nat (List.length interfaces)) z' = false ->
  calculatePortLayout W H interfaces z' rackWidth'
  = calculatePortLayout W H interfaces z rackWidth.
Proof.
  intros Z Z' G G'. unfold calculatePortLayout. cbv zeta. rewrite Z, Z'.
  unfold needsGrouping, maxRows in G, G'.
  match goal with
  | |- (if ?c then _ else _) = (if ?d then _ else _) =>
      replace c with false by (symmetry; exact G');
      replace d with false by (symmetry; exact G)
  end.
  reflexivity.
Qed.

(** X13.  Zooming in never loses detail: for z <= z' the result
    at z' shows at least as much as the result at z (hidden, then
    grouped, then individual), and once the ports are individual the
    result no longer changes with the zoom nor with the rack width. *)
Theorem calculatePortLayout_zoom_monotone W H interfaces z z'
        rackWidth rackWidth' r r' :
  le z z' = true ->
  calculatePortLayout W H interfaces z rackWidth = Returns r ->
  calculatePortLayout W H interfaces z' rackWidth' = Returns r' ->
  (detail r <= detail r')%nat /\ (detail r = 2%nat -> r' = r).
Proof.
  intros L E E'.
  assert (Half : lt z' (Fin (1 # 2)) = true -> lt z (Fin (1 # 2)) = true)
    by apply (le_lt_trans _ _ _ L).
  assert (Detail : lt z' (Fin (3 # 2)) = true -> lt z (Fin (3 # 2)) = true)
    by apply (le_lt_trans _ _ _ L).
  destruct (calculatePortLayout_cases W H interfaces z rackWidth)
    as [(Z & F) | [(Z & G & groups & _ & F) | (Z & G & pr & sp & ps & F & _)]];
    rewrite F in E; injection E as <-; cbn [detail].
  - split; [lia | discriminate].
  - split; [|discriminate].
    destruct (calculatePortLayout_cases W H interfaces z' rackWidth')
      as [(Z' & F') | [(Z' & G' & groups' & _ & F')
                      | (Z' & G' & pr' & sp' & ps' & F' & _)]];
      rewrite F' in E'; injection E' as <-; cbn [detail]; try lia.
    rewrite (Half Z') in Z. discriminate Z.
  - assert (Z' : lt z' (Fin (1 # 2)) = false).
    { destruct (lt z' (Fin (1 # 2))); [|reflexivity].
      rewrite (Half eq_refl) in Z. discriminate Z. }
    assert (G' : needsGrouping W H (of_nat (List.length interfaces)) z' = false).
    { unfold needsGrouping in *. apply andb_false_iff in G.
      apply andb_false_iff. destruct G as [G | G]; [left; exact G | right].
      destruct (lt z' (Fin (3 # 2))); [|reflexivity].
      rewrite (Detail eq_refl) in G. discriminate G. }
    rewrite (@calculatePortLayout_same_individual W H interfaces z z'
               rackWidth rackWidth' Z Z' G G') in E'.
    rewrite F in E'. injection E' as <-. cbn [detail].
    split; [lia | reflexivity].
Qed.

Lemma calculatePortLayout_zoom_monotone_witness :
  exists r r',
    calculatePortLayout 186%num 22%num (ports copper 24) 1%num W19
    = Returns r
    /\ calculatePortLayout 186%num 22%num (ports copper 24) 2%num W19
       = Returns r'
    /\ (detail r <= detail r')%nat /\ (detail r = 2%nat -> r' = r).
Proof.
  do 2 eexists. split; [vm_compute; reflexivity|].
  split; [vm_compute; reflexivity|].
  eapply (@calculatePortLayout_zoom_monotone 186%num 22%num (ports copper 24)
            1%num 2%num W19 W19 _ _);
    [reflexivity | vm_compute; reflexivity | vm_compute; reflexivity].
Defined.
End GridFacts.

(** ** Options A and B of the port layout *)

Section PortOptionFacts.
Import JsNum Value PortOptions.
Local Open Scope Q_scope.

Lemma Qceiling_le_Z x n : x <= inject_Z n -> (Qceiling x <= n)%Z.
Proof.
  intros H. rewrite <- (Qceiling_Z n). apply Qceiling_resp_le, H.
Qed.

(** X16.  Option A, for one port or more and a device on which one
    row fits: the rows and the ports per row are positive whole
    numbers, the rows hold all ports, no row is empty
    ((rows - 1) * portsPerRow < portCount <= rows * portsPerRow), and
    the rows fit the height. *)
Theorem calculateLayout_rows config (n : nat) h r :
  portCount config = of_nat n -> (1 <= n)%nat ->
  evaluates (deviceHeight config) h -> evaluates (portRadius config) r ->
  0 < r -> r * 2 + 2 <= h - 8 ->
  exists R P : Z,
    evaluates (rows (calculateLayout config)) (inject_Z R)
    /\ evaluates (portsPerRow (calculateLayout config)) (inject_Z P)
    /\ (1 <= R)%Z /\ (1 <= P)%Z
    /\ ((R - 1) * P < Z.of_nat n <= R * P)%Z
    /\ inject_Z R * (r * 2 + 2) <= h - 8.
Proof.
  intros En Hn Hh Hr Rp Fit. unfold calculateLayout. cbn [rows portsPerRow].
  rewrite En.
  assert (Cp : 0 < r * 2 + 2) by lra.
  assert (Cz : ~ r * 2 + 2 == 0) by (intros Z; lra).
  assert (A : evaluates ((deviceHeight config - 8) / (portRadius config * 2 + 2))%num
                        ((h - 8) / (r * 2 + 2))).
  { apply evaluates_div; [evaluate | evaluate | exact Cz]. }
  apply evaluates_floor in A.
  set (M := Qfloor ((h - 8) / (r * 2 + 2))) in *.
  assert (M1 : (1 <= M)%Z).
  { apply Qfloor_ge_Z. apply Qdiv_ge_1; assumption. }
  assert (Mh : inject_Z M * (r * 2 + 2) <= h - 8).
  { pose proof (Qfloor_le ((h - 8) / (r * 2 + 2))) as L. fold M in L.
    assert (E : (h - 8) / (r * 2 + 2) * (r * 2 + 2) == h - 8)
      by (field; exact Cz).
    rewrite <- E. apply Qmult_le_compat_r; [exact L | lra]. }
  assert (Np : 0 < inject_Z (Z.of_nat n)) by (apply inject_Z_pos; lia).
  pose proof (inject_Z_pos M1) as Mp.
  assert (B : evaluates (of_nat n / floor ((deviceHeight config - 8)
                                           / (portRadius config * 2 + 2)))%num
                        (inject_Z (Z.of_nat n) / inject_Z M)).
  { apply evaluates_div; [apply evaluates_of_nat | exact A|].
    apply inject_Z_nonzero. lia. }
  apply evaluates_ceil in B.
  set (P := Qceiling (inject_Z (Z.of_nat n) / inject_Z M)) in *.
  assert (P1 : (1 <= P)%Z) by (apply Qceiling_pos, Qdiv_pos; assumption).
  assert (PM : (Z.of_nat n <= P * M)%Z) by (apply Qceiling_capacity, M1).
  pose proof (inject_Z_pos P1) as Pp.
  assert (C : evaluates
                (of_nat n / ceil (of_nat n
                   / floor ((deviceHeight config - 8)
                            / (portRadius config * 2 + 2))))%num
                (inject_Z (Z.of_nat n) / inject_Z P)).
  { apply evaluates_div; [apply evaluates_of_nat | exact B|].
    apply inject_Z_nonzero. lia. }
  apply evaluates_ceil in C.
  set (R := Qceiling (inject_Z (Z.of_nat n) / inject_Z P)) in *.
  assert (R1 : (1 <= R)%Z) by (apply Qceiling_pos, Qdiv_pos; assumption).
  assert (RP : (Z.of_nat n <= R * P)%Z) by (apply Qceiling_capacity, P1).
  assert (RM : (R <= M)%Z).
  { apply Qceiling_le_Z. apply Qle_shift_div_r; [exact Pp|].
    rewrite <- inject_Z_mult, <- Zle_Qle. lia. }
  assert (Tight : ((R - 1) * P < Z.of_nat n)%Z).
  { pose proof (Qceiling_lt (inject_Z (Z.of_nat n) / inject_Z P)) as L.
    fold R in L.
    assert (E : inject_Z (Z.of_nat n) / inject_Z P * inject_Z P
                == inject_Z (Z.of_nat n)) by (field; intros Z; lra).
    assert (L2 : inject_Z (R - 1) * inject_Z P < inject_Z (Z.of_nat n)).
    { rewrite <- E. apply Qmult_lt_compat_r; [exact Pp | exact L]. }
    rewrite <- inject_Z_mult, <- Zlt_Qlt in L2. exact L2. }
  exists R, P. split; [exact C|]. split; [exact B|].
  split; [exact R1|]. split; [exact P1|]. split; [lia|].
  apply Qle_trans with (inject_Z M * (r * 2 + 2)); [|exact Mh].
  apply Qmult_le_compat_r; [|lra]. rewrite <- Zle_Qle. exact RM.
Qed.

Lemma calculateLayout_rows_witness :
  exists R P : Z,
    evaluates (rows (calculateLayout
                       {| deviceWidth := 186%num; deviceHeight := 44%num;
                          portCount := of_nat 48; portRadius := 3%num |}))
              (inject_Z R)
    /\ evaluates (portsPerRow (calculateLayout
                       {| deviceWidth := 186%num; deviceHeight := 44%num;
                          portCount := of_nat 48; portRadius := 3%num |}))
                 (inject_Z P)
    /\ (1 <= R)%Z /\ (1 <= P)%Z
    /\ ((R - 1) * P < Z.of_nat 48 <= R * P)%Z
    /\ inject_Z R * (3 * 2 + 2) <= 44 - 8.
Proof.
  apply (@calculateLayout_rows
           {| deviceWidth := 186%num; deviceHeight := 44%num;
              portCount := of_nat 48; portRadius := 3%num |} 48 44 3);
    [reflexivity | lia | split; reflexivity | split; reflexivity
    | reflexivity | discriminate].
Defined.

Lemma gt_lt a b : gt a b = lt b a.
Proof.
  destruct a as [| | | |p], b as [| | | |q]; try reflexivity;
    unfold gt, lt, cmp; cbn [val];
    match goal with
    | |- context [Qcompare ?x ?y] =>
        rewrite <- (Qcompare_antisym y x); destruct (Qcompare y x); reflexivity
    end.
Qed.

(** X17.  Option B, for a device width that is not negative:
    zooming in never loses detail, from hidden to grouped to
    individual. *)
Theorem determineRenderMode_zoom_monotone portCount deviceWidth z z' w q q' :
  evaluates deviceWidth w -> 0 <= w ->
  evaluates z q -> evaluates z' q' -> q <= q' ->
  (detail (determineRenderMode portCount deviceWidth z)
   <= detail (determineRenderMode portCount deviceWidth z'))%nat.
Proof.
  intros HW W0 Hz Hz' L. unfold determineRenderMode.
  assert (E : evaluates (deviceWidth * z)%num (w * q)) by evaluate.
  assert (E' : evaluates (deviceWidth * z')%num (w * q')) by evaluate.
  assert (M : w * q <= w * q').
  { rewrite !(Qmult_comm w). apply Qmult_le_compat_r; assumption. }
  assert (Le : le (deviceWidth * z)%num (deviceWidth * z')%num = true).
  { unfold le. rewrite (evaluates_cmp E E').
    destruct (w * q ?= w * q') eqn:C; try reflexivity.
    apply Qgt_alt in C. exfalso. lra. }
  assert (Le2 : le (deviceWidth * z * 2)%num (deviceWidth * z' * 2)%num = true).
  { assert (F : evaluates (deviceWidth * z * 2)%num (w * q * 2)) by evaluate.
    assert (F' : evaluates (deviceWidth * z' * 2)%num (w * q' * 2)) by evaluate.
    unfold le. rewrite (evaluates_cmp F F').
    destruct (w * q * 2 ?= w * q' * 2) eqn:C; try reflexivity.
    apply Qgt_alt in C. exfalso. lra. }
  destruct (lt (deviceWidth * z')%num 50%num) eqn:H'.
  - rewrite (le_lt_trans _ _ _ Le H'). cbn [detail]. lia.
  - destruct (lt (deviceWidth * z)%num 50%num); [cbn [detail]; lia|].
    destruct (gt (portCount * (6 + 4))%num (deviceWidth * z' * 2)%num) eqn:G'.
    + rewrite gt_lt in G'. rewrite gt_lt, (le_lt_trans _ _ _ Le2 G').
      cbn [detail]. lia.
    + destruct (gt (portCount * (6 + 4))%num (deviceWidth * z * 2)%num);
        cbn [detail]; lia.
Qed.

Lemma determineRenderMode_zoom_monotone_witness :
  (detail (determineRenderMode 48%num 186%num 1%num)
   <= detail (determineRenderMode 48%num 186%num 2%num))%nat.
Proof.
  apply (@determineRenderMode_zoom_monotone 48%num 186%num 1%num 2%num
           186 1 2);
    [split; reflexivity | discriminate | split; reflexivity
    | split; reflexivity | discriminate].
Defined.
End PortOptionFacts.

(** ** Display names and the bits of an identifier *)

Section DisplayNameFacts.
Import DisplayName.
Local Open Scope string_scope.

Lemma truthy_text s : truthy s = true -> s = Some (text s) /\ text s <> "".
Proof.
  destruct s as [[|c r]|]; try discriminate. intros _.
  split; [reflexivity | discriminate].
Qed.

(** X18.  The display name is one of the name of the placement,
    the model or the manufacturer of a library entry of its type, and
    the slug of its type.  It is not empty when the slug is not empty;
    it is the name of the placement when that is a non-empty string;
    and it is the slug when there is no such name and no library entry
    of the type. *)
Theorem getDeviceDisplayName_shown placed deviceLibrary :
  candidate placed deviceLibrary (getDeviceDisplayName placed deviceLibrary)
  /\ (device_type placed <> "" ->
      getDeviceDisplayName placed deviceLibrary <> "")
  /\ (truthy (name placed) = true ->
      Some (getDeviceDisplayName placed deviceLibrary) = name placed)
  /\ (truthy (name placed) = false ->
      (forall d, In d deviceLibrary -> slug d <> device_type placed) ->
      getDeviceDisplayName placed deviceLibrary = device_type placed).
Proof.
  unfold getDeviceDisplayName, candidate.
  destruct (truthy (name placed)) eqn:Tn.
  { destruct (truthy_text _ Tn) as [E Ne].
    split; [left; exact E|]. split; [intros _; exact Ne|].
    split; [intros _; symmetry; exact E | discriminate]. }
  destruct (JsArray.find _ deviceLibrary) as [d|] eqn:F.
  - unfold JsArray.find in F. apply find_some in F. destruct F as [Hin Hs].
    apply String.eqb_eq in Hs.
    destruct (truthy (model d)) eqn:Tm.
    { destruct (truthy_text _ Tm) as [E Ne].
      split; [right; left; exists d; auto|]. split; [intros _; exact Ne|].
      split; [discriminate|]. intros _ No. exfalso. apply (No d Hin Hs). }
    destruct (truthy (manufacturer d)) eqn:Tf.
    { destruct (truthy_text _ Tf) as [E Ne].
      split; [right; left; exists d; auto|]. split; [intros _; exact Ne|].
      split; [discriminate|]. intros _ No. exfalso. apply (No d Hin Hs). }
    split; [right; right; reflexivity|]. split; [auto|].
    split; [discriminate | reflexivity].
  - split; [right; right; reflexivity|]. split; [auto|].
    split; [discriminate | reflexivity].
Qed.
End DisplayNameFacts.

Section UuidBitsFacts.
Import JsString DeviceUtils Uuid UuidBits Colour.
Local Open Scope string_scope.
Local Open Scope Z_scope.

Lemma generateId_fallback c :
  randomUUID c = None ->
  generateId (Some c) = Returns (print (finalBytes c)).
Proof. intros N. unfold generateId. rewrite N. reflexivity. Qed.

Lemma finalBytes_range c : Forall (fun b => 0 <= b < 256) (finalBytes c).
Proof.
  unfold finalBytes, getRandomValues. cbn [List.seq map]. cbn [store load nth].
  repeat constructor; apply toUint8_range.
Qed.

Lemma finalBytes_length c : List.length (finalBytes c) = 16%nat.
Proof. reflexivity. Qed.

(** Sixteen bytes are read back from the identifier they are printed
    in. *)
Lemma idBytes_print l :
  List.length l = 16%nat -> Forall (fun b => 0 <= b < 256) l ->
  idBytes (print l) = l.
Proof.
  intros Len R. unfold print.
  do 16 (destruct l as [|? l]; [discriminate Len|]).
  destruct l; [|discriminate Len]. clear Len.
  repeat match goal with
  | H : Forall _ (_ :: _) |- _ => inversion H; subst; clear H
  end.
  cbn [map].
  repeat match goal with
  | H : 0 <= ?b < 256 |- context [byteToHex ?b] =>
      let c1 := fresh "c" in let c2 := fresh "c" in
      let E := fresh "E" in
      destruct (byteToHex_digits H) as (c1 & c2 & E & _ & _ & <-);
      rewrite E; clear E
  end.
  reflexivity.
Qed.

Lemma toUint8_land b : toUint8 b = Z.land b 255.
Proof.
  unfold toUint8. change 255 with (Z.ones 8). rewrite Z.land_ones by lia.
  reflexivity.
Qed.

Lemma version_bits b :
  toUint8 (Z.lor (Z.land (toUint8 b) 15) 64) = Z.lor (Z.land b 15) 64.
Proof.
  assert (E : Z.land (toUint8 b) 15 = Z.land b 15).
  { rewrite toUint8_land, <- Z.land_assoc. reflexivity. }
  rewrite <- E.
  apply Z.eqb_eq.
  apply (byte_enum (fun t => Z.eqb (toUint8 (Z.lor (Z.land t 15) 64))
                                   (Z.lor (Z.land t 15) 64)));
    [vm_compute; reflexivity | apply toUint8_range].
Qed.

Lemma variant_bits b :
  toUint8 (Z.lor (Z.land (toUint8 b) 63) 128) = Z.lor (Z.land b 63) 128.
Proof.
  assert (E : Z.land (toUint8 b) 63 = Z.land b 63).
  { rewrite toUint8_land, <- Z.land_assoc. reflexivity. }
  rewrite <- E.
  apply Z.eqb_eq.
  apply (byte_enum (fun t => Z.eqb (toUint8 (Z.lor (Z.land t 63) 128))
                                   (Z.lor (Z.land t 63) 128)));
    [vm_compute; reflexivity | apply toUint8_range].
Qed.

Lemma lor_version_inj x y :
  Z.lor (Z.land x 15) 64 = Z.lor (Z.land y 15) 64 -> Z.land x 15 = Z.land y 15.
Proof.
  intros H.
  assert (K : forall z, Z.land (Z.lor (Z.land z 15) 64) 15 = Z.land z 15).
  { intros z. rewrite Z.land_lor_distr_l, <- Z.land_assoc.
    change (Z.land 15 15) with 15. change (Z.land 64 15) with 0.
    apply Z.lor_0_r. }
  rewrite <- (K x), <- (K y), H. reflexivity.
Qed.

Lemma lor_variant_inj x y :
  Z.lor (Z.land x 63) 128 = Z.lor (Z.land y 63) 128 -> Z.land x 63 = Z.land y 63.
Proof.
  intros H.
  assert (K : forall z, Z.land (Z.lor (Z.land z 63) 128) 63 = Z.land z 63).
  { intros z. rewrite Z.land_lor_distr_l, <- Z.land_assoc.
    change (Z.land 63 63) with 63. change (Z.land 128 63) with 0.
    apply Z.lor_0_r. }
  rewrite <- (K x), <- (K y), H. reflexivity.
Qed.

(** The final bytes in terms of the bits that are kept. *)
Lemma finalBytes_bits c :
  finalBytes c
  = [randomBits c 0; randomBits c 1; randomBits c 2; randomBits c 3;
     randomBits c 4; randomBits c 5; Z.lor (randomBits c 6) 64;
     randomBits c 7; Z.lor (randomBits c 8) 128; randomBits c 9;
     randomBits c 10; randomBits c 11; randomBits c 12; randomBits c 13;
     randomBits c 14; randomBits c 15].
Proof.
  unfold finalBytes, getRandomValues. cbn [List.seq map]. cbn [store load nth].
  rewrite version_bits, variant_bits. rewrite !toUint8_land. reflexivity.
Qed.

Lemma finalBytes_eq_iff c c' :
  finalBytes c = finalBytes c'
  <-> forall i, (i < 16)%nat -> randomBits c i = randomBits c' i.
Proof.
  rewrite !finalBytes_bits. split.
  - intros H i Hi. injection H as H0 H1 H2 H3 H4 H5 H6 H7 H8 H9 H10 H11 H12 H13 H14 H15.
    apply lor_version_inj in H6. apply lor_variant_inj in H8.
    do 16 (destruct i as [|i]; [assumption|]). lia.
  - intros H.
    rewrite (H 0%nat), (H 1%nat), (H 2%nat), (H 3%nat), (H 4%nat),
      (H 5%nat), (H 6%nat), (H 7%nat), (H 8%nat), (H 9%nat), (H 10%nat),
      (H 11%nat), (H 12%nat), (H 13%nat), (H 14%nat), (H 15%nat) by lia.
    reflexivity.
Qed.

(** X19.  On the fallback path two runs of [generateId] give the
    same identifier exactly when their random bytes agree on the bits
    that are kept: the low four of byte 6, the low six of byte 8 and
    all eight of every other byte.  The identifier holds all 122
    random bits and nothing else of the bytes. *)
Theorem generateId_keeps_random_bits c c' id :
  randomUUID c = None -> randomUUID c' = None ->
  generateId (Some c) = Returns id ->
  (generateId (Some c') = Returns id
   <-> forall i, (i < 16)%nat -> randomBits c i = randomBits c' i).
Proof.
  intros N N' E. rewrite <- finalBytes_eq_iff.
  rewrite (generateId_fallback c N) in E.
  rewrite (generateId_fallback c' N'). split.
  - intros E'.
    assert (P : print (finalBytes c) = print (finalBytes c')) by congruence.
    rewrite <- (idBytes_print (finalBytes_length c) (finalBytes_range c)).
    rewrite <- (idBytes_print (finalBytes_length c') (finalBytes_range c')).
    rewrite P. reflexivity.
  - intros F. rewrite <- F. exact E.
Qed.

Lemma generateId_keeps_random_bits_witness :
  generateId (Some (constantCrypto 44))
  = Returns "2c2c2c2c-2c2c-4c2c-ac2c-2c2c2c2c2c2c"
  <-> forall i, (i < 16)%nat ->
        randomBits (constantCrypto 300) i = randomBits (constantCrypto 44) i.
Proof.
  apply (@generateId_keeps_random_bits (constantCrypto 300) (constantCrypto 44)
           "2c2c2c2c-2c2c-4c2c-ac2c-2c2c2c2c2c2c");
    reflexivity.
Defined.
End UuidBitsFacts.

(** ** Build time and the placement store *)

Section BuildTimeFacts.
Import JsNum Value BuildTime.
Local Open Scope string_scope.
Local Open Scope Q_scope.

Lemma Qfloor_ge_iff x n : (n <= Qfloor x)%Z <-> inject_Z n <= x.
Proof.
  split; [|apply Qfloor_ge_Z].
  intros H. apply Qle_trans with (inject_Z (Qfloor x)); [|apply Qfloor_le].
  rewrite <- Zle_Qle. exact H.
Qed.

Lemma Qle_div_iff a b c : 0 < c -> (a <= b / c <-> a * c <= b).
Proof.
  intros C. split; intros H.
  - assert (E : b / c * c == b) by (field; intros Z; lra).
    rewrite <- E. apply Qmult_le_compat_r; [exact H | lra].
  - apply Qle_shift_div_l; assumption.
Qed.

(** The floor of a floor divided by a positive whole number. *)
Lemma Qfloor_nested x a b :
  (0 < a)%Z -> (0 < b)%Z ->
  Qfloor (inject_Z (Qfloor (x / inject_Z a)) / inject_Z b)
  = Qfloor (x / inject_Z (a * b)).
Proof.
  intros Ha Hb.
  pose proof (inject_Z_pos (n := a) ltac:(lia)) as Pa.
  pose proof (inject_Z_pos (n := b) ltac:(lia)) as Pb.
  assert (Pab : 0 < inject_Z (a * b)) by (apply inject_Z_pos; nia).
  assert (K : forall n, (n <= Qfloor (inject_Z (Qfloor (x / inject_Z a)) / inject_Z b))%Z
                        <-> (n <= Qfloor (x / inject_Z (a * b)))%Z).
  { intros n. rewrite !Qfloor_ge_iff.
    rewrite (Qle_div_iff _ _ Pb), (Qle_div_iff _ _ Pab).
    rewrite <- inject_Z_mult, <- Zle_Qle, Qfloor_ge_iff.
    rewrite (Qle_div_iff _ _ Pa). rewrite !inject_Z_mult.
    assert (E : inject_Z n * inject_Z b * inject_Z a
                == inject_Z n * (inject_Z a * inject_Z b)) by ring.
    rewrite E. reflexivity. }
  apply Z.le_antisymm; apply K; apply Z.le_refl.
Qed.

Lemma units_nested d a b c :
  (0 < a)%Z -> (0 < b)%Z -> c = (a * b)%Z ->
  Qfloor (inject_Z (units a d) / inject_Z b) = units c d.
Proof. intros Ha Hb ->. apply Qfloor_nested; assumption. Qed.

Lemma units_ge_iff ms d k :
  (0 < ms)%Z -> ((k <= units ms d)%Z <-> inject_Z k * inject_Z ms <= d).
Proof.
  intros H. unfold units. rewrite Qfloor_ge_iff.
  apply Qle_div_iff. apply inject_Z_pos. lia.
Qed.

Lemma units_lt_iff ms d k :
  (0 < ms)%Z -> ((units ms d < k)%Z <-> d < inject_Z k * inject_Z ms).
Proof.
  intros H. pose proof (units_ge_iff d k H) as G. split; intros L.
  - apply Qnot_le_lt. intros A. apply G in A. lia.
  - apply Z.nle_gt. intros A. apply G in A. lra.
Qed.

Lemma toString_floor a q :
  evaluates a q ->
  toString (floor a) = NilZero.string_of_int (Z.to_int (Qfloor q)).
Proof.
  intros [F V]. destruct a as [| | | |r]; try discriminate;
    cbn [floor val toString of_Z] in *.
  - rewrite <- (Qfloor_comp _ _ V). reflexivity.
  - rewrite Qfloor_Z, (Qfloor_comp _ _ V). reflexivity.
Qed.

(** The four counts that [formatRelativeTime] computes, as whole
    numbers of seconds, minutes, hours and days in the difference. *)
Lemma relative_counts diffMs d :
  evaluates diffMs d ->
  let seconds := floor (diffMs / 1000)%num in
  let minutes := floor (seconds / 60)%num in
  let hours := floor (minutes / 60)%num in
  let days := floor (hours / 24)%num in
  (evaluates seconds (inject_Z (units 1000 d))
   /\ toString seconds = NilZero.string_of_int (Z.to_int (units 1000 d)))
  /\ (evaluates minutes (inject_Z (units 60000 d))
      /\ toString minutes = NilZero.string_of_int (Z.to_int (units 60000 d)))
  /\ (evaluates hours (inject_Z (units 3600000 d))
      /\ toString hours = NilZero.string_of_int (Z.to_int (units 3600000 d)))
  /\ (evaluates days (inject_Z (units 86400000 d))
      /\ toString days = NilZero.string_of_int (Z.to_int (units 86400000 d))).
Proof.
  intros Hd. cbv zeta.
  assert (S0 : evaluates (diffMs / 1000)%num (d / inject_Z 1000)).
  { apply evaluates_div; [exact Hd | apply evaluates_Fin | discriminate]. }
  assert (S1 := evaluates_floor S0). fold (units 1000 d) in S1.
  assert (M0 : evaluates (floor (diffMs / 1000) / 60)%num
                         (inject_Z (units 1000 d) / inject_Z 60)).
  { apply evaluates_div; [exact S1 | apply evaluates_Fin | discriminate]. }
  assert (M1 := evaluates_floor M0).
  rewrite (@units_nested d 1000 60 60000) in M1 by lia.
  assert (H0 : evaluates (floor (floor (diffMs / 1000) / 60) / 60)%num
                         (inject_Z (units 60000 d) / inject_Z 60)).
  { apply evaluates_div; [exact M1 | apply evaluates_Fin | discriminate]. }
  assert (H1 := evaluates_floor H0).
  rewrite (@units_nested d 60000 60 3600000) in H1 by lia.
  assert (D0 : evaluates
                 (floor (floor (floor (diffMs / 1000) / 60) / 60) / 24)%num
                 (inject_Z (units 3600000 d) / inject_Z 24)).
  { apply evaluates_div; [exact H1 | apply evaluates_Fin | discriminate]. }
  assert (D1 := evaluates_floor D0).
  rewrite (@units_nested d 3600000 24 86400000) in D1 by lia.
  rewrite (toString_floor S0), (toString_floor M0), (toString_floor H0),
    (toString_floor D0).
  rewrite (@units_nested d 1000 60 60000) by lia.
  rewrite (@units_nested d 60000 60 3600000) by lia.
  rewrite (@units_nested d 3600000 24 86400000) by lia.
  split; [split; [exact S1 | reflexivity]|].
  split; [split; [exact M1 | reflexivity]|].
  split; [split; [exact H1 | reflexivity]|].
  split; [exact D1 | reflexivity].
Qed.

(** The five ways out of [formatRelativeTime] on two valid dates. *)
Lemma formatRelativeTime_cases buildDate now b n :
  evaluates buildDate b -> evaluates now n ->
  let d := n - b in
  (d < 0 /\ formatRelativeTime buildDate now = "0s")
  \/ (0 <= d < 60000
      /\ (0 <= units 1000 d <= 59)%Z
      /\ formatRelativeTime buildDate now = shown (units 1000 d) "s")
  \/ (60000 <= d < 3600000
      /\ (1 <= units 60000 d <= 59)%Z
      /\ formatRelativeTime buildDate now = shown (units 60000 d) "m")
  \/ (3600000 <= d < 86400000
      /\ (1 <= units 3600000 d <= 23)%Z
      /\ formatRelativeTime buildDate now = shown (units 3600000 d) "h")
  \/ (86400000 <= d
      /\ (1 <= units 86400000 d)%Z
      /\ formatRelativeTime buildDate now = shown (units 86400000 d) "d").
Proof.
  intros Hb Hn d.
  assert (Hd : evaluates (now - buildDate)%num d) by (apply evaluates_sub; assumption).
  unfold formatRelativeTime.
  destruct (lt (now - buildDate)%num 0%num) eqn:Neg.
  { left. split; [|reflexivity].
    apply (evaluates_lt Hd (evaluates_Fin 0)). exact Neg. }
  assert (D0 : 0 <= d).
  { destruct (Qlt_le_dec d 0) as [L | G]; [|exact G].
    apply (evaluates_lt Hd (evaluates_Fin 0)) in L. congruence. }
  right.
  destruct (relative_counts Hd)
    as ((Es & Ts) & (Em & Tm) & (Eh & Th) & (Ed & Td)).
  cbv zeta in Es, Ts, Em, Tm, Eh, Th, Ed, Td.
  rewrite Ts, Tm, Th, Td.
  set (seconds := floor ((now - buildDate) / 1000)%num) in *.
  set (minutes := floor (seconds / 60)%num) in *.
  set (hours := floor (minutes / 60)%num) in *.
  set (days := floor (hours / 24)%num) in *.
  assert (Pos : forall a k, evaluates a (inject_Z k) ->
                 (gt a 0%num = true <-> (1 <= k)%Z)).
  { intros a k E. rewrite (evaluates_gt E (evaluates_Fin 0)).
    change 0 with (inject_Z 0). rewrite <- Zlt_Qlt. lia. }
  pose proof (@units_ge_iff 1000 d) as Gs.
  pose proof (@units_ge_iff 60000 d) as Gm.
  pose proof (@units_ge_iff 3600000 d) as Gh.
  pose proof (@units_ge_iff 86400000 d) as Gd.
  pose proof (@units_lt_iff 1000 d) as Ls.
  pose proof (@units_lt_iff 60000 d) as Lm.
  pose proof (@units_lt_iff 3600000 d) as Lh.
  destruct (gt days 0%num) eqn:Cd.
  { apply (Pos _ _ Ed) in Cd. do 3 right.
    split; [|split; [exact Cd | reflexivity]].
    apply (Gd 1%Z) in Cd; [|lia]. change (inject_Z 1 * inject_Z 86400000) with 86400000 in Cd.
    exact Cd. }
  assert (Nd : d < 86400000).
  { apply Qnot_le_lt. intros A.
    assert (K : (1 <= units 86400000 d)%Z) by (apply Gd; [lia | exact A]).
    apply (Pos _ _ Ed) in K. congruence. }
  destruct (gt hours 0%num) eqn:Ch.
  { apply (Pos _ _ Eh) in Ch. do 2 right. left.
    assert (A : 3600000 <= d) by (apply (Gh 1%Z) in Ch; [exact Ch | lia]).
    split; [split; assumption|]. split; [|reflexivity].
    split; [exact Ch|].
    assert ((units 3600000 d < 24)%Z); [|lia].
    apply Lh; [lia | exact Nd]. }
  assert (Nh : d < 3600000).
  { apply Qnot_le_lt. intros A.
    assert (K : (1 <= units 3600000 d)%Z) by (apply Gh; [lia | exact A]).
    apply (Pos _ _ Eh) in K. congruence. }
  destruct (gt minutes 0%num) eqn:Cm.
  { apply (Pos _ _ Em) in Cm. right. left.
    assert (A : 60000 <= d) by (apply (Gm 1%Z) in Cm; [exact Cm | lia]).
    split; [split; assumption|]. split; [|reflexivity].
    split; [exact Cm|].
    assert ((units 60000 d < 60)%Z); [|lia].
    apply Lm; [lia | exact Nh]. }
  assert (Nm : d < 60000).
  { apply Qnot_le_lt. intros A.
    assert (K : (1 <= units 60000 d)%Z) by (apply Gm; [lia | exact A]).
    apply (Pos _ _ Em) in K. congruence. }
  left. split; [split; assumption|]. split; [|reflexivity].
  split.
  - apply Gs; [lia|]. exact D0.
  - assert ((units 1000 d < 60)%Z); [|lia].
    apply Ls; [lia | exact Nm].
Qed.

Lemma append_last_inj s s' c c' :
  s ++ String c "" = s' ++ String c' "" -> c = c'.
Proof.
  revert s'. induction s as [|a r IH]; intros [|a' r'] H; cbn in H.
  - congruence.
  - injection H as _ H. destruct r'; discriminate H.
  - injection H as _ H. destruct r; discriminate H.
  - injection H as _ H. apply (IH r' H).
Qed.

Lemma shown_unit_inj k k' c c' :
  shown k (String c "") = shown k' (String c' "") -> c = c'.
Proof. unfold shown. apply append_last_inj. Qed.

Lemma units_whole ms (z : Z) d :
  (0 < ms)%Z -> d == inject_Z z -> units ms d = (z / ms)%Z.
Proof.
  intros H E. unfold units.
  rewrite <- (Qfloor_div_Z z H). apply Qfloor_comp. rewrite E. reflexivity.
Qed.

(** X20.  For two valid dates no more than 2^53 milliseconds apart,
    so that the difference of their time values is exact,
    [formatRelativeTime] shows a whole count and one unit
    letter: 0 seconds for a build in the future, and otherwise seconds
    from 0 to 59, minutes from 1 to 59, hours from 1 to 23 or days
    from 1, the count being the whole number of that unit in the
    difference. *)
Theorem formatRelativeTime_largest_unit buildDate now (b n : Z) :
  timeValue b -> timeValue n -> (Z.abs (n - b) <= 2 ^ 53)%Z ->
  evaluates buildDate (inject_Z b) -> evaluates now (inject_Z n) ->
  exists k unit,
    formatRelativeTime buildDate now = shown k unit
    /\ ((unit = "s" /\ (n < b)%Z /\ k = 0%Z)
        \/ (unit = "s" /\ (b <= n)%Z /\ (0 <= k <= 59)%Z
            /\ k = ((n - b) / 1000)%Z)
        \/ (unit = "m" /\ (1 <= k <= 59)%Z /\ k = ((n - b) / 60000)%Z)
        \/ (unit = "h" /\ (1 <= k <= 23)%Z /\ k = ((n - b) / 3600000)%Z)
        \/ (unit = "d" /\ (1 <= k)%Z /\ k = ((n - b) / 86400000)%Z)).
Proof.
  intros _ _ _ Hb Hn.
  assert (D : inject_Z n - inject_Z b == inject_Z (n - b)).
  { unfold Z.sub. rewrite inject_Z_plus, inject_Z_opp. reflexivity. }
  assert (U : forall ms, (0 < ms)%Z ->
                units ms (inject_Z n - inject_Z b) = ((n - b) / ms)%Z).
  { intros ms H. apply (units_whole H D). }
  destruct (formatRelativeTime_cases Hb Hn)
    as [(L & E) | [(R & K & E) | [(R & K & E) | [(R & K & E) | (R & K & E)]]]];
    rewrite E; rewrite ?U in * by lia.
  - exists 0%Z, "s". split; [reflexivity|]. left.
    split; [reflexivity|]. split; [|reflexivity].
    rewrite D in L. change 0 with (inject_Z 0) in L.
    rewrite <- Zlt_Qlt in L. lia.
  - exists ((n - b) / 1000)%Z, "s". split; [reflexivity|]. right. left.
    split; [reflexivity|]. split; [|split; [exact K | reflexivity]].
    destruct R as [R _]. rewrite D in R. change 0 with (inject_Z 0) in R.
    rewrite <- Zle_Qle in R. lia.
  - exists ((n - b) / 60000)%Z, "m". split; [reflexivity|].
    do 2 right. left. auto.
  - exists ((n - b) / 3600000)%Z, "h". split; [reflexivity|].
    do 3 right. left. auto.
  - exists ((n - b) / 86400000)%Z, "d". split; [reflexivity|].
    do 4 right. auto.
Qed.

Lemma formatRelativeTime_largest_unit_witness :
  (exists k unit,
      formatRelativeTime 1000%num 7501000%num = shown k unit
      /\ ((unit = "s" /\ (7501000 < 1000)%Z /\ k = 0%Z)
          \/ (unit = "s" /\ (1000 <= 7501000)%Z /\ (0 <= k <= 59)%Z
              /\ k = ((7501000 - 1000) / 1000)%Z)
          \/ (unit = "m" /\ (1 <= k <= 59)%Z
              /\ k = ((7501000 - 1000) / 60000)%Z)
          \/ (unit = "h" /\ (1 <= k <= 23)%Z
              /\ k = ((7501000 - 1000) / 3600000)%Z)
          \/ (unit = "d" /\ (1 <= k)%Z
              /\ k = ((7501000 - 1000) / 86400000)%Z)))
  /\ formatRelativeTime 1000%num 7501000%num = "2h"
  /\ formatRelativeTime 7501000%num 1000%num = "0s".
Proof.
  split; [|split; reflexivity].
  apply (@formatRelativeTime_largest_unit 1000%num 7501000%num 1000 7501000);
    [vm_compute; discriminate | vm_compute; discriminate
    | vm_compute; discriminate | split; reflexivity | split; reflexivity].
Defined.

(** X21.  With the default threshold of one hour a build is stale
    exactly when [formatRelativeTime] shows hours or days. *)
Theorem isBuildStale_iff_hours_shown buildDate now b n :
  evaluates buildDate b -> evaluates now n ->
  (isBuildStale buildDate now STALE_THRESHOLD_MS = true
   <-> exists k,
        formatRelativeTime buildDate now = shown k "h"
        \/ formatRelativeTime buildDate now = shown k "d").
Proof.
  intros Hb Hn.
  assert (Hd : evaluates (now - buildDate)%num (n - b))
    by (apply evaluates_sub; assumption).
  assert (S : isBuildStale buildDate now STALE_THRESHOLD_MS = true
              <-> 3600000 <= n - b).
  { unfold isBuildStale, le.
    rewrite (@evaluates_cmp STALE_THRESHOLD_MS (now - buildDate)%num
               3600000 (n - b)); [|split; reflexivity | exact Hd].
    destruct (3600000 ?= n - b) eqn:C.
    - apply Qeq_alt in C. split; [intros _; lra | reflexivity].
    - apply Qlt_alt in C. split; [intros _; lra | reflexivity].
    - apply Qgt_alt in C. split; [discriminate | intros A; exfalso; lra]. }
  rewrite S.
  destruct (formatRelativeTime_cases Hb Hn)
    as [(L & E) | [(R & K & E) | [(R & K & E) | [(R & K & E) | (R & K & E)]]]];
    rewrite E.
  - change "0s" with (shown 0 "s").
    split; [intros A; exfalso; lra|].
    intros (k & [A | A]); apply shown_unit_inj in A; discriminate A.
  - split; [intros A; exfalso; lra|].
    intros (k & [A | A]); apply shown_unit_inj in A; discriminate A.
  - split; [intros A; exfalso; lra|].
    intros (k & [A | A]); apply shown_unit_inj in A; discriminate A.
  - split; [|intros _; lra]. intros _. eexists. left. reflexivity.
  - split; [|intros _; lra]. intros _. eexists. right. reflexivity.
Qed.

Lemma isBuildStale_iff_hours_shown_witness :
  isBuildStale 1000%num 7501000%num STALE_THRESHOLD_MS = true
  <-> exists k,
       formatRelativeTime 1000%num 7501000%num = shown k "h"
       \/ formatRelativeTime 1000%num 7501000%num = shown k "d".
Proof.
  apply (@isBuildStale_iff_hours_shown 1000%num 7501000%num 1000 7501000);
    split; reflexivity.
Defined.
End BuildTimeFacts.

Section PlacementStoreFacts.
Import PlacementStore.

Variable DeviceType : Type.

Lemma step_consistent (s : State DeviceType) c :
  consistent s -> consistent (step s c).
Proof.
  unfold consistent. intros [A B].
  destruct c; cbn [step startPlacement cancelPlacement completePlacement
                   setTargetFace resetPlacementStore isPlacing pendingDevice];
    try (split; [split; [discriminate | intros H; exfalso; apply H; reflexivity] | reflexivity]).
  - split; [split; [discriminate | reflexivity] | discriminate].
  - split; assumption.
Qed.

Lemma fold_consistent calls (s : State DeviceType) :
  consistent s -> consistent (fold_left (@step DeviceType) calls s).
Proof.
  revert s. induction calls as [|c calls IH]; intros s H; cbn [fold_left].
  - exact H.
  - apply IH, step_consistent, H.
Qed.

(** X22.  After any sequence of calls of the functions of the
    placement store, from its initial state, the store is placing
    exactly when it holds a pending device. *)
Theorem placement_store_consistent (calls : list (call DeviceType)) :
  (isPlacing (run calls) = true <-> pendingDevice (run calls) <> None)
  /\ (isPlacing (run calls) = false -> pendingDevice (run calls) = None).
Proof.
  apply (fold_consistent calls).
  split; [split; [discriminate | intros H; exfalso; apply H; reflexivity]
         | reflexivity].
Qed.
End PlacementStoreFacts.

(** ** The legend *)

Section LegendFacts.
Import JsNum JsArray Svg IsoPoc Scene Value Box IsoLegend.
Local Open Scope string_scope.

Lemma existsb_eqb_In x l : existsb (String.eqb x) l = true <-> In x l.
Proof.
  rewrite existsb_exists. split.
  - intros (y & H & E). apply String.eqb_eq in E. subst. exact H.
  - intros H. exists x. split; [exact H | apply String.eqb_refl].
Qed.

Lemma distinct_In seen l x :
  In x (distinct seen l) <-> In x l /\ ~ In x seen.
Proof.
  revert seen. induction l as [|y l IH]; intros seen; cbn [distinct].
  - cbn. tauto.
  - destruct (existsb (String.eqb y) seen) eqn:E.
    + apply existsb_eqb_In in E. rewrite IH. cbn [In]. split.
      * intros [H N]. auto.
      * intros [[-> | H] N]; [contradiction | auto].
    + assert (Ny : ~ In y seen).
      { intros H. apply existsb_eqb_In in H. congruence. }
      cbn [In]. rewrite IH. cbn [In]. split.
      * intros [-> | [H N]]; [auto|]. split; [auto|]. intros K. apply N. auto.
      * intros [[-> | H] N]; [auto|].
        destruct (string_dec y x) as [-> | D]; [auto|].
        right. split; [exact H|]. intros [K | K]; [exact (D K) | exact (N K)].
Qed.

Lemma distinct_NoDup seen l : NoDup (distinct seen l).
Proof.
  revert seen. induction l as [|y l IH]; intros seen; cbn [distinct].
  - constructor.
  - destruct (existsb (String.eqb y) seen); [apply IH|].
    constructor; [|apply IH].
    rewrite distinct_In. intros [_ N]. apply N. left. reflexivity.
Qed.

Lemma defined_In (A : Type) (l : list (option A)) a :
  In a (defined l) <-> In (Some a) l.
Proof.
  induction l as [|[b|] l IH]; cbn [defined In].
  - tauto.
  - rewrite IH. split; intros [H | H]; auto; left; congruence.
  - rewrite IH. split; [auto|]. intros [H | H]; [discriminate H | exact H].
Qed.

Lemma In_resolve devs l pd dev :
  In pd l -> findDevice devs pd = Some dev -> In (pd, dev) (resolve devs l).
Proof.
  induction l as [|x l IH]; cbn [resolve In]; [tauto|].
  intros [-> | H] F.
  - rewrite F. left. reflexivity.
  - destruct (findDevice devs x); [right|]; apply IH; assumption.
Qed.

Lemma usedDevices_slugs rack devs :
  map slug (usedDevices rack devs)
  = filter (fun s => match find (fun d => String.eqb (slug d) s) devs with
                     | Some _ => true
                     | None => false
                     end) (usedSlugs rack).
Proof.
  unfold usedDevices. induction (usedSlugs rack) as [|s l IH];
    cbn [map defined filter]; [reflexivity|].
  destruct (find (fun d => String.eqb (slug d) s) devs) as [d|] eqn:F;
    cbn [map defined]; [|exact IH].
  unfold find in F. apply find_some in F. destruct F as [_ E].
  apply String.eqb_eq in E. rewrite E, IH. reflexivity.
Qed.

(** X11.  The device types of the legend are exactly the device
    types that [renderRack] draws for the same rack and library, and
    no slug is listed twice, however many times it is placed. *)
Theorem legend_lists_drawn_types rack devs :
  NoDup (map slug (usedDevices rack devs))
  /\ forall d,
      In d (usedDevices rack devs)
      <-> exists placedDevice, In (placedDevice, d) (paintOrder rack devs).
Proof.
  split.
  - rewrite usedDevices_slugs. apply NoDup_filter, distinct_NoDup.
  - intros d. unfold usedDevices, usedSlugs, paintOrder.
    rewrite defined_In, in_map_iff. split.
    + intros (s & F & H). apply distinct_In in H. destruct H as [H _].
      apply in_map_iff in H. destruct H as (pd & <- & Hpd).
      exists pd. apply In_resolve; [|exact F].
      apply (Permutation_in _ (Permutation_sym (sort_Permutation _ _))), Hpd.
    + intros (pd & H). apply resolve_In in H. destruct H as [Hpd F].
      exists (device_type pd). split; [exact F|].
      apply distinct_In. split; [|intros []].
      apply in_map.
      apply (Permutation_in _
               (sort_Permutation (fun a b => sub (position b) (position a))
                                 (devices rack))), Hpd.
Qed.

Section Items.
Variable toString : num -> string.
Local Open Scope Q_scope.

Lemma legendItems_swatch ds itemY y0 k d :
  evaluates itemY y0 -> nth_error ds k = Some d ->
  exists swatch,
    nth_error (filter (fun e => String.eqb (tag e) "rect")
                      (legendItems toString ds itemY)) k = Some swatch
    /\ attr "fill" swatch = Some (VStr (colour d))
    /\ evaluates (numAttr "y" swatch) (y0 + 32 * inject_Z (Z.of_nat k)).
Proof.
  revert itemY y0 k. induction ds as [|d0 ds IH]; intros itemY y0 k Hy Hk.
  - destruct k; discriminate Hk.
  - cbn [legendItems]. rewrite filter_app.
    assert (F : filter (fun e => String.eqb (tag e) "rect")
                       (legendItem toString d0 itemY)
                = [Elem "rect"
                     [("x", VStr "0"); ("y", VNum itemY); ("width", VStr "16");
                      ("height", VStr "16"); ("fill", VStr (colour d0));
                      ("rx", VStr "2")] None]).
    { unfold legendItem. destruct (is_full_depth d0); reflexivity. }
    rewrite F. destruct k as [|k].
    + injection Hk as <-. eexists. split; [reflexivity|].
      split; [reflexivity|]. unfold numAttr. cbn.
      eapply evaluates_eq; [exact Hy|]. ring.
    + cbn [nth_error] in Hk. cbn [app nth_error].
      assert (Hy' : evaluates (itemY + (LEGEND_ITEM_HEIGHT + 8))%num
                              (y0 + (24 + 8))) by evaluate.
      destruct (IH _ _ _ Hy' Hk) as (swatch & E & Fl & Y).
      exists swatch. split; [exact E|]. split; [exact Fl|].
      eapply evaluates_eq; [exact Y|].
      rewrite Nat2Z.inj_succ. unfold Z.succ. rewrite inject_Z_plus. ring.
Qed.

(** X12.  [renderLegend] draws one swatch for each used device,
    in their order; the [k]-th swatch has the colour of the [k]-th
    device and sits at y = 35 + 32 k. *)
Theorem renderLegend_swatches x y rack devs :
  List.length (swatches (renderLegend toString x y rack devs))
  = List.length (usedDevices rack devs)
  /\ forall k d,
      nth_error (usedDevices rack devs) k = Some d ->
      exists swatch,
        nth_error (swatches (renderLegend toString x y rack devs)) k
        = Some swatch
        /\ attr "fill" swatch = Some (VStr (colour d))
        /\ evaluates (numAttr "y" swatch) (35 + 32 * inject_Z (Z.of_nat k)).
Proof.
  unfold swatches, renderLegend. cbn [children filter tag String.eqb Ascii.eqb Bool.eqb].
  split.
  - generalize 35%num. induction (usedDevices rack devs) as [|d0 ds IH];
      intros itemY; [reflexivity|].
    cbn [legendItems]. rewrite filter_app, length_app, IH.
    unfold legendItem. destruct (is_full_depth d0); reflexivity.
  - intros k d Hk.
    apply (@legendItems_swatch _ 35%num 35 k d (evaluates_Fin 35) Hk).
Qed.
End Items.
End LegendFacts.

(** ** Shading in HSL *)

Section HslFacts.
Import JsNum JsString Colour Value Shade HslPoc.
Local Open Scope string_scope.
Local Open Scope Q_scope.

Lemma evaluates_abs a p : evaluates a p -> evaluates (abs a) (Qabs p).
Proof.
  intros [F V]. destruct a as [| | | |r]; try discriminate; cbn [abs val] in *.
  - split; [reflexivity|]. cbn [val]. rewrite <- V. reflexivity.
  - split; [reflexivity|]. cbn [fin val]. rewrite Qred_correct, V. reflexivity.
Qed.

Lemma Qabs_cases q : (0 <= q /\ Qabs q == q) \/ (q < 0 /\ Qabs q == - q).
Proof.
  destruct (Qlt_le_dec q 0) as [L | G].
  - right. split; [exact L|]. apply Qabs_neg. lra.
  - left. split; [exact G|]. apply Qabs_pos, G.
Qed.

Lemma evaluates_seq a b p q :
  evaluates a p -> evaluates b q -> (seq a b = true <-> p == q).
Proof.
  intros Ha Hb. unfold seq. rewrite (evaluates_cmp Ha Hb).
  rewrite Qeq_alt. destruct (p ?= q); split; congruence.
Qed.

Lemma max_cases a b p q :
  evaluates a p -> evaluates b q ->
  exists m, evaluates (max a b) m /\ (m = p \/ m = q) /\ p <= m /\ q <= m.
Proof.
  intros Ha Hb. destruct (Qlt_le_dec p q) as [L | G].
  - exists q. split; [apply (evaluates_max_r Ha Hb); lra|].
    split; [auto|]. split; lra.
  - exists p. split; [apply (evaluates_max_l Ha Hb); lra|].
    split; [auto|]. split; lra.
Qed.

Lemma min_cases a b p q :
  evaluates a p -> evaluates b q ->
  exists m, evaluates (min a b) m /\ (m = p \/ m = q) /\ m <= p /\ m <= q.
Proof.
  intros Ha Hb. destruct (Qlt_le_dec p q) as [L | G].
  - exists p. split; [apply (evaluates_min_l Ha Hb); lra|].
    split; [auto|]. split; lra.
  - exists q. split; [apply (evaluates_min_r Ha Hb); lra|].
    split; [auto|]. split; lra.
Qed.

Lemma max3_cases a b c p q t :
  evaluates a p -> evaluates b q -> evaluates c t ->
  exists m, evaluates (max3 a b c) m /\ (m = p \/ m = q \/ m = t)
            /\ p <= m /\ q <= m /\ t <= m.
Proof.
  intros Ha Hb Hc. unfold max3.
  destruct (max_cases Ha Hb) as (m1 & H1 & C1 & L1 & L2).
  destruct (max_cases H1 Hc) as (m & H & C & L3 & L4).
  exists m. split; [exact H|]. split.
  - destruct C as [-> | ->]; [destruct C1 as [-> | ->]|]; auto.
  - repeat split; lra.
Qed.

Lemma min3_cases a b c p q t :
  evaluates a p -> evaluates b q -> evaluates c t ->
  exists m, evaluates (min3 a b c) m /\ (m = p \/ m = q \/ m = t)
            /\ m <= p /\ m <= q /\ m <= t.
Proof.
  intros Ha Hb Hc. unfold min3.
  destruct (min_cases Ha Hb) as (m1 & H1 & C1 & L1 & L2).
  destruct (min_cases H1 Hc) as (m & H & C & L3 & L4).
  exists m. split; [exact H|]. split.
  - destruct C as [-> | ->]; [destruct C1 as [-> | ->]|]; auto.
  - repeat split; lra.
Qed.

(** A channel as a fraction of 255. *)
Lemma channel_fraction z :
  (0 <= z <= 255)%Z ->
  evaluates (of_Z z / 255)%num (inject_Z z / 255)
  /\ 0 <= inject_Z z / 255 <= 1.
Proof.
  intros Hz. split.
  - apply evaluates_div; [apply evaluates_of_Z | apply evaluates_Fin | discriminate].
  - destruct (inject_Z_bounds Hz) as [L U].
    change (inject_Z 0) with 0 in L. change (inject_Z 255) with 255 in U.
    assert (E : inject_Z z / 255 == inject_Z z * (1 # 255)) by reflexivity.
    rewrite E. split; lra.
Qed.

Lemma ratio_bounds x d : 0 < d -> - d <= x <= d -> -1 <= x / d <= 1.
Proof.
  intros D [L U]. split.
  - apply Qle_shift_div_l; [exact D | lra].
  - apply Qle_shift_div_r; [exact D | lra].
Qed.

Lemma ratio_neg x d : 0 < d -> x < 0 -> x / d < 0.
Proof.
  intros D L. apply Qlt_shift_div_r; [exact D | lra].
Qed.

Lemma ratio_nonneg x d : 0 < d -> 0 <= x -> 0 <= x / d.
Proof.
  intros D L. apply Qle_shift_div_l; [exact D | lra].
Qed.

Lemma sixth_bounds t lo hi :
  lo <= t <= hi -> lo * (1 # 6) <= t / 6 <= hi * (1 # 6).
Proof.
  intros [L U]. assert (E : t / 6 == t * (1 # 6)) by reflexivity.
  rewrite E. split; lra.
Qed.

Lemma sixth_lt t hi : t < hi -> t / 6 < hi * (1 # 6).
Proof.
  intros U. assert (E : t / 6 == t * (1 # 6)) by reflexivity.
  rewrite E. lra.
Qed.

(** The hue, the saturation and the lightness of a well-formed
    colour. *)
Lemma hexToHsl_bounds hex :
  is_hex_colour hex = true ->
  exists c hq sq lq,
    hexToHsl hex = Returns c
    /\ evaluates (h c) hq /\ evaluates (s c) sq /\ evaluates (l c) lq
    /\ 0 <= hq < 360 /\ 0 <= sq <= 100 /\ 0 <= lq <= 100
    /\ (sq == 0 <-> red hex = green hex /\ green hex = blue hex)
    /\ (sq == 0 -> hq == 0).
Proof.
  intros H.
  destruct (is_hex_colour_inv hex H)
    as (a & b & c & d & e & f & -> & Ha & Hb & Hc & Hd & He & Hf).
  unfold hexToHsl, red, green, blue.
  cbn [slice substring Nat.sub channel get].
  rewrite !parseInt16_two_digits by assumption.
  pose proof (digit_range _ Ha). pose proof (digit_range _ Hb).
  pose proof (digit_range _ Hc). pose proof (digit_range _ Hd).
  pose proof (digit_range _ He). pose proof (digit_range _ Hf).
  destruct (@channel_fraction (16 * digit a + digit b)) as [Er Br]; [lia|].
  destruct (@channel_fraction (16 * digit c + digit d)) as [Eg Bg]; [lia|].
  destruct (@channel_fraction (16 * digit e + digit f)) as [Eb Bb]; [lia|].
  assert (Same : forall x y : Z, inject_Z x / 255 == inject_Z y / 255 <-> x = y).
  { intros x y. split; [|intros ->; reflexivity]. intros E.
    assert (E1 : inject_Z x / 255 == inject_Z x * (1 # 255)) by reflexivity.
    assert (E2 : inject_Z y / 255 == inject_Z y * (1 # 255)) by reflexivity.
    rewrite E1, E2 in E.
    assert (E3 : inject_Z x == inject_Z y) by lra.
    unfold Qeq in E3. cbn in E3. lia. }
  set (R := (16 * digit a + digit b)%Z) in *.
  set (G := (16 * digit c + digit d)%Z) in *.
  set (B := (16 * digit e + digit f)%Z) in *.
  assert (Srg := Same R G). assert (Sgb := Same G B). clear Same.
  set (r := (of_Z R / 255)%num) in *.
  set (g := (of_Z G / 255)%num) in *.
  set (bl := (of_Z B / 255)%num) in *.
  set (pr := inject_Z R / 255) in *.
  set (pg := inject_Z G / 255) in *.
  set (pb := inject_Z B / 255) in *.
  clearbody r g bl pr pg pb R G B.
  clear H H0 H1 H2 H3 H4 H5 Ha Hb Hc Hd He Hf a b c d e f.
  destruct (max3_cases Er Eg Eb) as (qmx & Emx & Cmx & Mr & Mg & Mb).
  destruct (min3_cases Er Eg Eb) as (qmn & Emn & Cmn & Nr & Ng & Nb).
  set (mx := max3 r g bl) in *. set (mn := min3 r g bl) in *.
  clearbody mx mn.
  assert (Bmx : qmx <= 1) by (destruct Cmx as [-> | [-> | ->]]; lra).
  assert (Bmn : 0 <= qmn) by (destruct Cmn as [-> | [-> | ->]]; lra).
  assert (El : evaluates ((mx + mn) / 2 * 100)%num ((qmx + qmn) / 2 * 100)).
  { apply evaluates_mul; [|apply evaluates_Fin].
    apply evaluates_div; [evaluate | apply evaluates_Fin | discriminate]. }
  assert (Bl : 0 <= (qmx + qmn) / 2 * 100 <= 100).
  { assert (E : (qmx + qmn) / 2 * 100 == (qmx + qmn) * 50) by field.
    rewrite E. split; lra. }
  unfold sneq. destruct (seq mx mn) eqn:Ne; cbn [negb].
  - apply (evaluates_seq Emx Emn) in Ne.
    eexists. exists (0 * 360), (0 * 100), ((qmx + qmn) / 2 * 100).
    split; [reflexivity|]. cbn [h s l].
    split; [evaluate|]. split; [evaluate|]. split; [exact El|].
    split; [split; [discriminate | reflexivity]|].
    split; [split; discriminate|]. split; [exact Bl|].
    split; [|reflexivity]. split; [|reflexivity]. intros _.
    split; [apply Srg | apply Sgb]; lra.
  - assert (Dp : 0 < qmx - qmn).
    { destruct (Qlt_le_dec qmn qmx) as [L | G']; [lra|].
      assert (E : qmx == qmn) by lra.
      apply (evaluates_seq Emx Emn) in E. congruence. }
    assert (Dz : ~ qmx - qmn == 0) by (intros Z; lra).
    assert (Ed : evaluates (mx - mn)%num (qmx - qmn)) by evaluate.
    assert (Hs : exists sq0,
               evaluates (if gt ((mx + mn) / 2)%num (Fin (1 # 2))
                          then ((mx - mn) / (2 - mx - mn))%num
                          else ((mx - mn) / (mx + mn))%num) sq0
               /\ 0 < sq0 <= 1).
    { assert (Eh : evaluates ((mx + mn) / 2)%num ((qmx + qmn) / 2)).
      { apply evaluates_div; [evaluate | apply evaluates_Fin | discriminate]. }
      assert (E2 : (qmx + qmn) / 2 == (qmx + qmn) * (1 # 2)) by reflexivity.
      destruct (gt ((mx + mn) / 2)%num (Fin (1 # 2))) eqn:Gt.
      + exists ((qmx - qmn) / (2 - qmx - qmn)).
        assert (Den : 0 < 2 - qmx - qmn) by lra.
        split; [apply evaluates_div; [exact Ed | evaluate | intros Z; lra]|].
        split; [apply Qdiv_pos; assumption|].
        apply Qle_shift_div_r; [exact Den | lra].
      + exists ((qmx - qmn) / (qmx + qmn)).
        assert (Den : 0 < qmx + qmn) by lra.
        split; [apply evaluates_div; [exact Ed | evaluate | intros Z; lra]|].
        split; [apply Qdiv_pos; assumption|].
        apply Qle_shift_div_r; [exact Den | lra]. }
    assert (Ratio : forall u v pu pv,
               evaluates u pu -> evaluates v pv ->
               qmn <= pu <= qmx -> qmn <= pv <= qmx ->
               evaluates ((u - v) / (mx - mn))%num ((pu - pv) / (qmx - qmn))
               /\ -1 <= (pu - pv) / (qmx - qmn) <= 1).
    { intros u v pu pv Eu Ev Bu Bv. split.
      - apply evaluates_div; [evaluate | exact Ed | exact Dz].
      - apply ratio_bounds; [exact Dp | split; lra]. }
    assert (Hh : exists hq0,
               evaluates
                 (if seq mx r
                  then (((g - bl) / (mx - mn) + (if lt g bl then 6 else 0)) / 6)%num
                  else if seq mx g
                       then (((bl - r) / (mx - mn) + 2) / 6)%num
                       else if seq mx bl
                            then (((r - g) / (mx - mn) + 4) / 6)%num
                            else 0%num) hq0
               /\ 0 <= hq0 < 1).
    { destruct (seq mx r); [|destruct (seq mx g); [|destruct (seq mx bl)]].
      - destruct (@Ratio g bl pg pb Eg Eb) as [E Bd]; [lra | lra |].
        destruct (lt g bl) eqn:Lt.
        + apply (evaluates_lt Eg Eb) in Lt.
          assert (Ng' : (pg - pb) / (qmx - qmn) < 0) by (apply ratio_neg; lra).
          exists (((pg - pb) / (qmx - qmn) + 6) / 6).
          split; [apply evaluates_div; [evaluate | apply evaluates_Fin | discriminate]|].
          pose proof (@sixth_bounds ((pg - pb) / (qmx - qmn) + 6) 5 6).
          pose proof (@sixth_lt ((pg - pb) / (qmx - qmn) + 6) 6).
          split; lra.
        + assert (Ge : pb <= pg).
          { destruct (Qlt_le_dec pg pb) as [L | G']; [|exact G'].
            apply (evaluates_lt Eg Eb) in L. congruence. }
          assert (Ng' : 0 <= (pg - pb) / (qmx - qmn)) by (apply ratio_nonneg; lra).
          exists (((pg - pb) / (qmx - qmn) + 0) / 6).
          split; [apply evaluates_div; [evaluate | apply evaluates_Fin | discriminate]|].
          pose proof (@sixth_bounds ((pg - pb) / (qmx - qmn) + 0) 0 1).
          split; lra.
      - destruct (@Ratio bl r pb pr Eb Er) as [E Bd]; [lra | lra |].
        exists (((pb - pr) / (qmx - qmn) + 2) / 6).
        split; [apply evaluates_div; [evaluate | apply evaluates_Fin | discriminate]|].
        pose proof (@sixth_bounds ((pb - pr) / (qmx - qmn) + 2) 1 3).
        split; lra.
      - destruct (@Ratio r g pr pg Er Eg) as [E Bd]; [lra | lra |].
        exists (((pr - pg) / (qmx - qmn) + 4) / 6).
        split; [apply evaluates_div; [evaluate | apply evaluates_Fin | discriminate]|].
        pose proof (@sixth_bounds ((pr - pg) / (qmx - qmn) + 4) 3 5).
        split; lra.
      - exists 0. split; [apply evaluates_Fin | split; [discriminate | reflexivity]]. }
    destruct Hs as (sq0 & Es & Bs). destruct Hh as (hq0 & Eh & Bh).
    eexists. exists (hq0 * 360), (sq0 * 100), ((qmx + qmn) / 2 * 100).
    split; [reflexivity|]. cbn [h s l].
    split; [evaluate|]. split; [evaluate|]. split; [exact El|].
    split; [split; lra|]. split; [split; lra|]. split; [exact Bl|].
    split; [|intros Z; exfalso; lra].
    split; [intros Z; exfalso; lra|].
    intros [E1 E2]. exfalso.
    apply Srg in E1. apply Sgb in E2.
    destruct Cmx as [-> | [-> | ->]], Cmn as [-> | [-> | ->]]; lra.
Qed.

(** X6.  On a well-formed colour [hexToHsl] returns finite numbers:
    a hue in [0, 360), a saturation and a lightness in [0, 100].  The
    saturation is 0 exactly for the greys (red = green = blue), and
    then the hue is 0 as well. *)
Theorem hexToHsl_range hex :
  is_hex_colour hex = true ->
  exists c,
    hexToHsl hex = Returns c
    /\ is_finite (h c) = true /\ is_finite (s c) = true
    /\ is_finite (l c) = true
    /\ 0 <= val (h c) < 360 /\ 0 <= val (s c) <= 100
    /\ 0 <= val (l c) <= 100
    /\ (val (s c) == 0 <-> red hex = green hex /\ green hex = blue hex)
    /\ (val (s c) == 0 -> val (h c) == 0).
Proof.
  intros H.
  destruct (hexToHsl_bounds hex H)
    as (c & hq & sq & lq & E & [Fh Vh] & [Fs Vs] & [Fl Vl] & Bh & Bs & Bl
        & G & Z).
  exists c. rewrite Vh, Vs, Vl. repeat split; try assumption; tauto.
Qed.

Lemma hexToHsl_range_witness :
  exists c,
    hexToHsl "#50fa7b" = Returns c
    /\ is_finite (h c) = true /\ is_finite (s c) = true
    /\ is_finite (l c) = true
    /\ 0 <= val (h c) < 360 /\ 0 <= val (s c) <= 100
    /\ 0 <= val (l c) <= 100
    /\ (val (s c) == 0 <-> red "#50fa7b" = green "#50fa7b"
                           /\ green "#50fa7b" = blue "#50fa7b")
    /\ (val (s c) == 0 -> val (h c) == 0).
Proof. apply (@hexToHsl_range "#50fa7b"). reflexivity. Defined.
End HslFacts.

(** ** The round trip through HSL *)

Section RoundTripFacts.
Import JsNum JsString Colour Value Shade Hue HslPoc DeviceUtils.
Local Open Scope string_scope.
Local Open Scope Q_scope.

Lemma lt_Qltb a p k : evaluates a p -> lt a (Fin k) = Qltb p k.
Proof.
  intros E. pose proof (evaluates_lt E (evaluates_Fin k)) as L.
  destruct (Qltb p k) eqn:Q.
  - apply L, Qltb_true, Q.
  - destruct (lt a (Fin k)); [|reflexivity].
    apply Qltb_false in Q. assert (p < k) by (apply L; reflexivity). lra.
Qed.

Lemma Qtrunc_half p k :
  0 <= p -> inject_Z k * 2 <= p -> p < inject_Z k * 2 + 2 ->
  Qtrunc (p / 2) = k.
Proof.
  intros P L U. assert (E : p / 2 == p * (1 # 2)) by reflexivity.
  unfold Qtrunc.
  assert (N : Qltb (p / 2) 0 = false) by (apply Qltb_false; rewrite E; lra).
  rewrite N. apply Z.le_antisymm.
  - assert (Qfloor (p / 2) < k + 1)%Z; [|lia].
    apply Qfloor_lt_Z. rewrite inject_Z_plus. change (inject_Z 1) with 1.
    rewrite E. lra.
  - apply Qfloor_ge_Z. rewrite E. lra.
Qed.

Lemma hslToHex_sector hn sn ln hq sq lq v1 v2 v3 :
  evaluates hn hq -> evaluates sn sq -> evaluates ln lq ->
  0 <= hq < 360 ->
  sectorChannels hq ((1 - Qabs (2 * (lq / 100) - 1)) * (sq / 100))
  = (v1, v2, v3) ->
  hslToHex hn sn ln
  = Returns
      (IsoPoc.hexOfChannels
         (IInt (rounded v1 (lq / 100
                 - (1 - Qabs (2 * (lq / 100) - 1)) * (sq / 100) / 2)))
         (IInt (rounded v2 (lq / 100
                 - (1 - Qabs (2 * (lq / 100) - 1)) * (sq / 100) / 2)))
         (IInt (rounded v3 (lq / 100
                 - (1 - Qabs (2 * (lq / 100) - 1)) * (sq / 100) / 2)))).
Proof.
  intros Eh Es El [H0 H1] Sec. unfold hslToHex.
  unfold sectorChannels in Sec.
  assert (NZ100 : ~ 100 == 0) by discriminate.
  assert (ES : evaluates (sn / 100)%num (sq / 100))
    by (apply evaluates_div; [exact Es | apply evaluates_Fin | exact NZ100]).
  assert (EL : evaluates (ln / 100)%num (lq / 100))
    by (apply evaluates_div; [exact El | apply evaluates_Fin | exact NZ100]).
  set (S := (sn / 100)%num) in *. set (L := (ln / 100)%num) in *.
  set (Sq := sq / 100) in *. set (Lq := lq / 100) in *.
  clearbody S L Sq Lq.
  assert (EC : evaluates ((1 - abs (2 * L - 1)) * S)%num
                         ((1 - Qabs (2 * Lq - 1)) * Sq)).
  { apply evaluates_mul; [|exact ES].
    apply evaluates_sub; [apply evaluates_Fin|]. apply evaluates_abs. evaluate. }
  set (C := ((1 - abs (2 * L - 1)) * S)%num) in *.
  set (cq := (1 - Qabs (2 * Lq - 1)) * Sq) in *. clearbody C cq.
  assert (EP : evaluates (hn / 60)%num (hq / 60))
    by (apply evaluates_div; [exact Eh | apply evaluates_Fin | discriminate]).
  assert (PE : hq / 60 == hq * (1 # 60)) by reflexivity.
  assert (P0 : 0 <= hq / 60 /\ hq / 60 < 6) by (rewrite PE; split; lra).
  assert (PK : forall k : Q, (hq < 60 * k <-> hq / 60 < k)
                             /\ (60 * k <= hq <-> k <= hq / 60)).
  { intros k. rewrite PE. repeat split; intros; lra. }
  set (P := hq / 60) in *.
  assert (ET : evaluates ((hn / 60) %% 2)%num
                 (P - 2 * inject_Z (Qtrunc (P / 2)))).
  { apply evaluates_rem; [exact EP | apply evaluates_Fin | discriminate]. }
  assert (EX : evaluates (C * (1 - abs ((hn / 60) %% 2 - 1)))%num
                 (cq * (1 - Qabs (P - 2 * inject_Z (Qtrunc (P / 2)) - 1)))).
  { apply evaluates_mul; [exact EC|].
    apply evaluates_sub; [apply evaluates_Fin|]. apply evaluates_abs. evaluate. }
  set (X := (C * (1 - abs ((hn / 60) %% 2 - 1)))%num) in *.
  assert (EM : evaluates (L - C / 2)%num (Lq - cq / 2)).
  { apply evaluates_sub; [exact EL|].
    apply evaluates_div; [exact EC | apply evaluates_Fin | discriminate]. }
  set (M := (L - C / 2)%num) in *.
  set (mq := Lq - cq / 2) in *.
  clearbody M mq X.
  assert (EZ : evaluates 0%num 0) by apply evaluates_Fin.
  rewrite !(lt_Qltb _ Eh).
  assert (Out : forall n1 n2 n3 q1 q2 q3,
             evaluates n1 q1 -> evaluates n2 q2 -> evaluates n3 q3 ->
             ("#" ++ padStart0 2 (toString16 (round ((n1 + M) * 255)%num))
                  ++ padStart0 2 (toString16 (round ((n2 + M) * 255)%num))
                  ++ padStart0 2 (toString16 (round ((n3 + M) * 255)%num)))%string
             = IsoPoc.hexOfChannels (IInt (rounded q1 mq)) (IInt (rounded q2 mq))
                                    (IInt (rounded q3 mq))).
  { intros n1 n2 n3 q1 q2 q3 E1 E2 E3. unfold IsoPoc.hexOfChannels, rounded.
    assert (R : forall n q, evaluates n q ->
                 round ((n + M) * 255)%num
                 = IInt (Qfloor ((q + mq) * 255 + (1 # 2)))).
    { intros n q E. apply evaluates_round. evaluate. }
    rewrite (R _ _ E1), (R _ _ E2), (R _ _ E3). reflexivity. }
  assert (Closed : forall (k : Z) (sign : bool) (closed : Q),
             inject_Z k * 2 <= P -> P < inject_Z k * 2 + 2 ->
             (if sign then 1 <= P - 2 * inject_Z k else P - 2 * inject_Z k <= 1) ->
             closed == (if sign then cq * (2 + 2 * inject_Z k - P)
                        else cq * (P - 2 * inject_Z k)) ->
             evaluates X closed).
  { intros k sign closed L1 L2 Sg Cl.
    apply (evaluates_eq EX). rewrite (@Qtrunc_half P k) by lra.
    assert (F : 1 - Qabs (P - 2 * inject_Z k - 1)
                == (if sign then 2 + 2 * inject_Z k - P
                    else P - 2 * inject_Z k)).
    { destruct (Qabs_cases (P - 2 * inject_Z k - 1)) as [[G E] | [G E]];
        rewrite E; destruct sign; lra. }
    rewrite F, Cl. destruct sign; reflexivity. }
  clearbody P.
  assert (B1 := PK 1). assert (B2 := PK 2). assert (B3 := PK 3).
  assert (B4 := PK 4). assert (B5 := PK 5).
  change (60 * 1) with 60 in B1. change (60 * 2) with 120 in B2.
  change (60 * 3) with 180 in B3. change (60 * 4) with 240 in B4.
  change (60 * 5) with 300 in B5.
  destruct (Qltb hq 60) eqn:S1.
  { apply Qltb_true in S1. injection Sec as <- <- <-. f_equal.
    apply (Out _ _ _ _ _ _ EC); [|exact EZ].
    apply (Closed 0%Z false); unfold inject_Z; cbv beta iota;
      [lra | apply B1 in S1; lra | apply B1 in S1; lra | ring]. }
  apply Qltb_false in S1.
  destruct (Qltb hq 120) eqn:S2.
  { apply Qltb_true in S2. injection Sec as <- <- <-. f_equal.
    apply (fun e => Out _ _ _ _ _ _ e EC EZ).
    apply (Closed 0%Z true); unfold inject_Z; cbv beta iota;
      [lra | apply B2 in S2; lra | apply B1 in S1; lra | ring]. }
  apply Qltb_false in S2.
  destruct (Qltb hq 180) eqn:S3.
  { apply Qltb_true in S3. injection Sec as <- <- <-. f_equal.
    apply (Out _ _ _ _ _ _ EZ EC).
    apply (Closed 1%Z false); unfold inject_Z; cbv beta iota;
      [apply B2 in S2; lra | apply B3 in S3; lra | apply B3 in S3; lra | ring]. }
  apply Qltb_false in S3.
  destruct (Qltb hq 240) eqn:S4.
  { apply Qltb_true in S4. injection Sec as <- <- <-. f_equal.
    apply (fun e => Out _ _ _ _ _ _ EZ e EC).
    apply (Closed 1%Z true); unfold inject_Z; cbv beta iota;
      [apply B3 in S3; lra | apply B4 in S4; lra | apply B3 in S3; lra | ring]. }
  apply Qltb_false in S4.
  destruct (Qltb hq 300) eqn:S5.
  { apply Qltb_true in S5. injection Sec as <- <- <-. f_equal.
    apply (fun e => Out _ _ _ _ _ _ e EZ EC).
    apply (Closed 2%Z false); unfold inject_Z; cbv beta iota;
      [apply B4 in S4; lra | apply B5 in S5; lra | apply B5 in S5; lra | ring]. }
  apply Qltb_false in S5.
  injection Sec as <- <- <-. f_equal.
  apply (Out _ _ _ _ _ _ EC EZ).
  apply (Closed 2%Z true); unfold inject_Z; cbv beta iota;
    [apply B5 in S5; lra | lra | apply B5 in S5; lra | ring].
Qed.

(** What [hexToHsl] returns, exactly. *)
Lemma hexToHsl_exact hex :
  is_hex_colour hex = true ->
  exists c hq sq lq mx mn,
    hexToHsl hex = Returns c
    /\ evaluates (h c) hq /\ evaluates (s c) sq /\ evaluates (l c) lq
    /\ (mx = inject_Z (red hex) / 255 \/ mx = inject_Z (green hex) / 255
        \/ mx = inject_Z (blue hex) / 255)
    /\ (mn = inject_Z (red hex) / 255 \/ mn = inject_Z (green hex) / 255
        \/ mn = inject_Z (blue hex) / 255)
    /\ (inject_Z (red hex) / 255 <= mx /\ inject_Z (green hex) / 255 <= mx
        /\ inject_Z (blue hex) / 255 <= mx)
    /\ (mn <= inject_Z (red hex) / 255 /\ mn <= inject_Z (green hex) / 255
        /\ mn <= inject_Z (blue hex) / 255)
    /\ (1 - Qabs (2 * (lq / 100) - 1)) * (sq / 100) == mx - mn
    /\ lq / 100 == (mx + mn) * (1 # 2)
    /\ hueCase (inject_Z (red hex) / 255) (inject_Z (green hex) / 255)
               (inject_Z (blue hex) / 255) mx mn hq.
Proof.
  intros H.
  destruct (is_hex_colour_inv hex H)
    as (a & b & c & d & e & f & -> & Ha & Hb & Hc & Hd & He & Hf).
  unfold hexToHsl, red, green, blue.
  cbn [slice substring Nat.sub channel get].
  rewrite !parseInt16_two_digits by assumption.
  pose proof (digit_range _ Ha). pose proof (digit_range _ Hb).
  pose proof (digit_range _ Hc). pose proof (digit_range _ Hd).
  pose proof (digit_range _ He). pose proof (digit_range _ Hf).
  destruct (@channel_fraction (16 * digit a + digit b)) as [Er Br]; [lia|].
  destruct (@channel_fraction (16 * digit c + digit d)) as [Eg Bg]; [lia|].
  destruct (@channel_fraction (16 * digit e + digit f)) as [Eb Bb]; [lia|].
  set (r := (of_Z (16 * digit a + digit b) / 255)%num) in *.
  set (g := (of_Z (16 * digit c + digit d) / 255)%num) in *.
  set (bl := (of_Z (16 * digit e + digit f) / 255)%num) in *.
  set (pr := inject_Z (16 * digit a + digit b) / 255) in *.
  set (pg := inject_Z (16 * digit c + digit d) / 255) in *.
  set (pb := inject_Z (16 * digit e + digit f) / 255) in *.
  clearbody r g bl pr pg pb.
  clear H H0 H1 H2 H3 H4 H5 Ha Hb Hc Hd He Hf a b c d e f.
  destruct (max3_cases Er Eg Eb) as (qmx & Emx & Cmx & Mr & Mg & Mb).
  destruct (min3_cases Er Eg Eb) as (qmn & Emn & Cmn & Nr & Ng & Nb).
  set (mx := max3 r g bl) in *. set (mn := min3 r g bl) in *.
  clearbody mx mn.
  assert (Bmx : qmx <= 1) by (destruct Cmx as [-> | [-> | ->]]; lra).
  assert (Bmn : 0 <= qmn) by (destruct Cmn as [-> | [-> | ->]]; lra).
  assert (El : evaluates ((mx + mn) / 2 * 100)%num ((qmx + qmn) / 2 * 100)).
  { apply evaluates_mul; [|apply evaluates_Fin].
    apply evaluates_div; [evaluate | apply evaluates_Fin | discriminate]. }
  assert (Lq : (qmx + qmn) / 2 * 100 / 100 == (qmx + qmn) * (1 # 2)) by field.
  assert (Ab : Qabs (2 * ((qmx + qmn) * (1 # 2)) - 1) == Qabs (qmx + qmn - 1)).
  { apply Qabs_wd. ring. }
  unfold sneq. destruct (seq mx mn) eqn:Ne; cbn [negb].
  - apply (evaluates_seq Emx Emn) in Ne.
    eexists. exists (0 * 360), (0 * 100), ((qmx + qmn) / 2 * 100), qmx, qmn.
    split; [reflexivity|]. cbn [h s l].
    split; [evaluate|]. split; [evaluate|]. split; [exact El|].
    split; [exact Cmx|]. split; [exact Cmn|].
    split; [auto|]. split; [auto|].
    split; [rewrite Ne; field|]. split; [exact Lq|].
    left. split; [exact Ne | reflexivity].
  - assert (Dp : 0 < qmx - qmn).
    { destruct (Qlt_le_dec qmn qmx) as [L | G']; [lra|].
      assert (E : qmx == qmn) by lra.
      apply (evaluates_seq Emx Emn) in E. congruence. }
    assert (Dz : ~ qmx - qmn == 0) by (intros Z; lra).
    assert (Ed : evaluates (mx - mn)%num (qmx - qmn)) by evaluate.
    assert (Hs : exists sq0,
               evaluates (if gt ((mx + mn) / 2)%num (Fin (1 # 2))
                          then ((mx - mn) / (2 - mx - mn))%num
                          else ((mx - mn) / (mx + mn))%num) sq0
               /\ (1 - Qabs (qmx + qmn - 1)) * sq0 == qmx - qmn).
    { assert (Eh : evaluates ((mx + mn) / 2)%num ((qmx + qmn) / 2)).
      { apply evaluates_div; [evaluate | apply evaluates_Fin | discriminate]. }
      assert (E2 : (qmx + qmn) / 2 == (qmx + qmn) * (1 # 2)) by reflexivity.
      destruct (gt ((mx + mn) / 2)%num (Fin (1 # 2))) eqn:Gt.
      + apply (evaluates_gt Eh (evaluates_Fin (1 # 2))) in Gt.
        rewrite E2 in Gt.
        exists ((qmx - qmn) / (2 - qmx - qmn)).
        assert (Den : 0 < 2 - qmx - qmn) by lra.
        split; [apply evaluates_div; [exact Ed | evaluate | intros Z; lra]|].
        rewrite (Qabs_pos (qmx + qmn - 1)) by lra.
        field. intros Z; lra.
      + assert (Le : (qmx + qmn) / 2 <= 1 # 2).
        { destruct (Qlt_le_dec (1 # 2) ((qmx + qmn) / 2)) as [L | G']; [|exact G'].
          apply (evaluates_gt Eh (evaluates_Fin (1 # 2))) in L. congruence. }
        rewrite E2 in Le.
        exists ((qmx - qmn) / (qmx + qmn)).
        assert (Den : 0 < qmx + qmn) by lra.
        split; [apply evaluates_div; [exact Ed | evaluate | intros Z; lra]|].
        rewrite (Qabs_neg (qmx + qmn - 1)) by lra.
        field. intros Z; lra. }
    assert (Ratio : forall u v pu pv,
               evaluates u pu -> evaluates v pv ->
               qmn <= pu <= qmx -> qmn <= pv <= qmx ->
               evaluates ((u - v) / (mx - mn))%num ((pu - pv) / (qmx - qmn))
               /\ -1 <= (pu - pv) / (qmx - qmn) <= 1
               /\ (qmx - qmn) * ((pu - pv) / (qmx - qmn)) == pu - pv).
    { intros u v pu pv Eu Ev Bu Bv. split; [|split].
      - apply evaluates_div; [evaluate | exact Ed | exact Dz].
      - apply ratio_bounds; [exact Dp | split; lra].
      - field. exact Dz. }
    assert (Hh : exists hq0,
               evaluates
                 (if seq mx r
                  then (((g - bl) / (mx - mn) + (if lt g bl then 6 else 0)) / 6)%num
                  else if seq mx g
                       then (((bl - r) / (mx - mn) + 2) / 6)%num
                       else if seq mx bl
                            then (((r - g) / (mx - mn) + 4) / 6)%num
                            else 0%num) hq0
               /\ hueCase pr pg pb qmx qmn (hq0 * 360)).
    { destruct (seq mx r) eqn:Sr; [|destruct (seq mx g) eqn:Sg;
                                     [|destruct (seq mx bl) eqn:Sb]].
      - apply (evaluates_seq Emx Er) in Sr.
        destruct (@Ratio g bl pg pb Eg Eb) as (E & Bd & Dt); [lra | lra |].
        destruct (lt g bl) eqn:Lt.
        + apply (evaluates_lt Eg Eb) in Lt.
          assert (Ng' : (pg - pb) / (qmx - qmn) < 0) by (apply ratio_neg; lra).
          exists (((pg - pb) / (qmx - qmn) + 6) / 6).
          split; [apply evaluates_div; [evaluate | apply evaluates_Fin | discriminate]|].
          right. exists ((pg - pb) / (qmx - qmn)).
          split; [lra|]. split; [exact Bd|]. left.
          split; [exact Sr|]. split; [exact Lt|]. split; [exact Ng'|].
          split; [exact Dt | field; exact Dz].
        + assert (Ge : pb <= pg).
          { destruct (Qlt_le_dec pg pb) as [L | G']; [|exact G'].
            apply (evaluates_lt Eg Eb) in L. congruence. }
          assert (Ng' : 0 <= (pg - pb) / (qmx - qmn)) by (apply ratio_nonneg; lra).
          exists (((pg - pb) / (qmx - qmn) + 0) / 6).
          split; [apply evaluates_div; [evaluate | apply evaluates_Fin | discriminate]|].
          right. exists ((pg - pb) / (qmx - qmn)).
          split; [lra|]. split; [exact Bd|]. right. left.
          split; [exact Sr|]. split; [exact Ge|]. split; [exact Ng'|].
          split; [exact Dt | field; exact Dz].
      - apply (evaluates_seq Emx Eg) in Sg.
        destruct (@Ratio bl r pb pr Eb Er) as (E & Bd & Dt); [lra | lra |].
        exists (((pb - pr) / (qmx - qmn) + 2) / 6).
        split; [apply evaluates_div; [evaluate | apply evaluates_Fin | discriminate]|].
        right. exists ((pb - pr) / (qmx - qmn)).
        split; [lra|]. split; [exact Bd|]. right. right. left.
        split; [exact Sg|]. split; [exact Dt | field; exact Dz].
      - apply (evaluates_seq Emx Eb) in Sb.
        destruct (@Ratio r g pr pg Er Eg) as (E & Bd & Dt); [lra | lra |].
        exists (((pr - pg) / (qmx - qmn) + 4) / 6).
        split; [apply evaluates_div; [evaluate | apply evaluates_Fin | discriminate]|].
        right. exists ((pr - pg) / (qmx - qmn)).
        split; [lra|]. split; [exact Bd|]. right. right. right.
        split; [exact Sb|]. split; [exact Dt | field; exact Dz].
      - exfalso.
        assert (Nr' : ~ qmx == pr).
        { intros E. apply (evaluates_seq Emx Er) in E. congruence. }
        assert (Ng' : ~ qmx == pg).
        { intros E. apply (evaluates_seq Emx Eg) in E. congruence. }
        assert (Nb' : ~ qmx == pb).
        { intros E. apply (evaluates_seq Emx Eb) in E. congruence. }
        destruct Cmx as [E | [E | E]]; rewrite E in *;
          [apply Nr' | apply Ng' | apply Nb']; reflexivity. }
    destruct Hs as (sq0 & Es & Bs). destruct Hh as (hq0 & Eh & Bh).
    eexists. exists (hq0 * 360), (sq0 * 100), ((qmx + qmn) / 2 * 100), qmx, qmn.
    split; [reflexivity|]. cbn [h s l].
    split; [evaluate|]. split; [evaluate|]. split; [exact El|].
    split; [exact Cmx|]. split; [exact Cmn|].
    split; [auto|]. split; [auto|].
    split; [|split; [exact Lq | exact Bh]].
    rewrite Lq, Ab.
    setoid_replace (sq0 * 100 / 100) with sq0 by field. exact Bs.
Qed.

Lemma rounded_exact v mq z : (v + mq) * 255 == inject_Z z -> rounded v mq = z.
Proof.
  intros E. unfold rounded.
  rewrite (Qfloor_comp _ (inject_Z z + (1 # 2))) by (rewrite E; reflexivity).
  assert (L : (z <= Qfloor (inject_Z z + (1 # 2)))%Z) by (apply Qfloor_ge_Z; lra).
  assert (U : (Qfloor (inject_Z z + (1 # 2)) < z + 1)%Z).
  { apply Qfloor_lt_Z. rewrite inject_Z_plus. change (inject_Z 1) with 1. lra. }
  lia.
Qed.

Lemma hueCase_bounds pr pg pb mx mn hq :
  hueCase pr pg pb mx mn hq -> 0 <= hq < 360.
Proof.
  intros [[_ Z] | (t & _ & Bt & [C | [C | [C | C]]])].
  - rewrite Z. split; [discriminate | reflexivity].
  - destruct C as (_ & _ & T & _ & E). rewrite E. split; lra.
  - destruct C as (_ & _ & T & _ & E). rewrite E. split; lra.
  - destruct C as (_ & _ & E). rewrite E. split; lra.
  - destruct C as (_ & _ & E). rewrite E. split; lra.
Qed.

Ltac sectors Sec :=
  unfold sectorChannels in Sec;
  repeat match type of Sec with
  | context [Qltb ?a ?b] =>
      let S := fresh "S" in
      destruct (Qltb a b) eqn:S;
        [apply Qltb_true in S | apply Qltb_false in S]
  end.

Ltac leaf Dt Cmn t mx mn :=
  rewrite Dt;
  let Sg := fresh "Sg" in
  assert (Sg : (t < 0 -> (mx - mn) * t < 0)
               /\ (0 <= t -> 0 <= (mx - mn) * t)) by (split; intro; nra);
  rewrite Dt in Sg;
  try (assert (T1 : t == 1) by lra; rewrite T1 in Dt);
  let T := fresh "T" in
  destruct (Qlt_le_dec t 0) as [T | T];
    [pose proof (proj1 Sg T) | pose proof (proj2 Sg T)];
    destruct Cmn as [-> | [-> | ->]]; repeat split; lra.

(** The channels that come back are the channels that went in. *)
Lemma sector_round_trip pr pg pb mx mn hq cq mq v1 v2 v3 :
  (mn = pr \/ mn = pg \/ mn = pb) ->
  pr <= mx -> pg <= mx -> pb <= mx -> mn <= pr -> mn <= pg -> mn <= pb ->
  cq == mx - mn -> mq == mn ->
  hueCase pr pg pb mx mn hq ->
  sectorChannels hq cq = (v1, v2, v3) ->
  v1 + mq == pr /\ v2 + mq == pg /\ v3 + mq == pb.
Proof.
  intros Cmn Mr Mg Mb Nr Ng Nb Cq Mq Hue Sec.
  assert (PE : hq / 60 == hq * (1 # 60)) by reflexivity.
  destruct Hue as [[G Z] | (t & Dp & Bt & [C | [C | [C | C]]])].
  - sectors Sec; try (exfalso; lra); injection Sec as <- <- <-.
    rewrite PE, Z, Cq, Mq. repeat split; lra.
  - destruct C as (Ex & Lt & T & Dt & E).
    sectors Sec; try (exfalso; lra); injection Sec as <- <- <-.
    rewrite PE, E, Cq, Mq.
    setoid_replace ((mx - mn) * (6 - 60 * (t + 6) * (1 # 60)))
      with (- ((mx - mn) * t)) by ring.
    leaf Dt Cmn t mx mn.
  - destruct C as (Ex & Le & T & Dt & E).
    sectors Sec; try (exfalso; lra); injection Sec as <- <- <-;
      rewrite PE, E, Cq, Mq.
    + setoid_replace ((mx - mn) * (60 * t * (1 # 60)))
        with ((mx - mn) * t) by ring.
      leaf Dt Cmn t mx mn.
    + setoid_replace ((mx - mn) * (2 - 60 * t * (1 # 60)))
        with (2 * (mx - mn) - (mx - mn) * t) by ring.
      leaf Dt Cmn t mx mn.
  - destruct C as (Ex & Dt & E).
    sectors Sec; try (exfalso; lra); injection Sec as <- <- <-;
      rewrite PE, E, Cq, Mq.
    + setoid_replace ((mx - mn) * (2 - 60 * (t + 2) * (1 # 60)))
        with (- ((mx - mn) * t)) by ring.
      leaf Dt Cmn t mx mn.
    + setoid_replace ((mx - mn) * (60 * (t + 2) * (1 # 60) - 2))
        with ((mx - mn) * t) by ring.
      leaf Dt Cmn t mx mn.
    + setoid_replace ((mx - mn) * (4 - 60 * (t + 2) * (1 # 60)))
        with (2 * (mx - mn) - (mx - mn) * t) by ring.
      leaf Dt Cmn t mx mn.
  - destruct C as (Ex & Dt & E).
    sectors Sec; try (exfalso; lra); injection Sec as <- <- <-;
      rewrite PE, E, Cq, Mq.
    + setoid_replace ((mx - mn) * (4 - 60 * (t + 4) * (1 # 60)))
        with (- ((mx - mn) * t)) by ring.
      leaf Dt Cmn t mx mn.
    + setoid_replace ((mx - mn) * (60 * (t + 4) * (1 # 60) - 4))
        with ((mx - mn) * t) by ring.
      leaf Dt Cmn t mx mn.
    + setoid_replace ((mx - mn) * (6 - 60 * (t + 4) * (1 # 60)))
        with (2 * (mx - mn) - (mx - mn) * t) by ring.
      leaf Dt Cmn t mx mn.
Qed.

Lemma hexOfChannels_lower hex :
  is_hex_colour hex = true ->
  IsoPoc.hexOfChannels (IInt (red hex)) (IInt (green hex)) (IInt (blue hex))
  = toLowerCase hex.
Proof.
  intros H.
  destruct (is_hex_colour_inv hex H)
    as (a & b & c & d & e & f & -> & Ha & Hb & Hc & Hd & He & Hf).
  unfold IsoPoc.hexOfChannels, red, green, blue. cbn [channel get].
  change (padStart0 2 (toString16 (IInt ?z))) with (byteToHex z).
  rewrite !byteToHex_lower by assumption. reflexivity.
Qed.

(** X23.  [hslToHex] undoes [hexToHsl]: a well-formed colour taken
    to HSL and back is the same colour, its digits in lower case.  So
    darkening or lightening by the amount 0 returns the colour. *)
Theorem hsl_round_trip hex :
  is_hex_colour hex = true ->
  (exists c,
      hexToHsl hex = Returns c
      /\ hslToHex (h c) (s c) (l c) = Returns (toLowerCase hex))
  /\ darkenColor hex 0%num = Returns (toLowerCase hex)
  /\ lightenColor hex 0%num = Returns (toLowerCase hex).
Proof.
  intros H.
  destruct (hexToHsl_exact hex H)
    as (c & hq & sq & lq & mx & mn & E & Eh & Es & El & Cmx & Cmn
        & (Mr & Mg & Mb) & (Nr & Ng & Nb) & Cq & Lq & Hue).
  assert (Core : forall ln', evaluates ln' lq ->
                   hslToHex (h c) (s c) ln' = Returns (toLowerCase hex)).
  { intros ln' El'.
    destruct (sectorChannels hq
                ((1 - Qabs (2 * (lq / 100) - 1)) * (sq / 100)))
      as [[v1 v2] v3] eqn:Sec.
    rewrite (hslToHex_sector Eh Es El' (hueCase_bounds Hue) Sec). f_equal.
    assert (Mq : lq / 100 - (1 - Qabs (2 * (lq / 100) - 1)) * (sq / 100) / 2
                 == mn).
    { rewrite Cq, Lq. field. }
    destruct (sector_round_trip Cmn Mr Mg Mb Nr Ng Nb Cq Mq Hue Sec)
      as (A1 & A2 & A3).
    assert (Back : forall z : Z, inject_Z z / 255 * 255 == inject_Z z)
      by (intros z; field).
    rewrite (@rounded_exact v1 _ (red hex)) by (rewrite A1; apply Back).
    rewrite (@rounded_exact v2 _ (green hex)) by (rewrite A2; apply Back).
    rewrite (@rounded_exact v3 _ (blue hex)) by (rewrite A3; apply Back).
    apply hexOfChannels_lower, H. }
  assert (Bl : 0 <= lq <= 100).
  { assert (E100 : lq / 100 == lq * (1 # 100)) by reflexivity.
    rewrite E100 in Lq.
    assert (mx <= 1 /\ 0 <= mn).
    { destruct (@channel_fraction (red hex)) as [_ Br];
        [apply (@channel_range hex 0%nat H); left; reflexivity|].
      destruct (@channel_fraction (green hex)) as [_ Bg];
        [apply (@channel_range hex 2%nat H); right; left; reflexivity|].
      destruct (@channel_fraction (blue hex)) as [_ Bb];
        [apply (@channel_range hex 4%nat H); right; right; reflexivity|].
      split; [destruct Cmx as [-> | [-> | ->]] | destruct Cmn as [-> | [-> | ->]]];
        lra. }
    split; lra. }
  split; [exists c; split; [exact E | apply Core, El]|].
  unfold darkenColor, lightenColor. rewrite E. cbn [bind]. split; apply Core.
  - assert (Ed : evaluates (l c * (1 - 0))%num (lq * (1 - 0))) by evaluate.
    apply (evaluates_eq (q := lq)) in Ed; [|ring].
    apply (evaluates_max_r (evaluates_Fin 0) Ed). lra.
  - assert (Ei : evaluates (l c * (1 + 0))%num (lq * (1 + 0))) by evaluate.
    apply (evaluates_eq (q := lq)) in Ei; [|ring].
    apply (evaluates_min_r (evaluates_Fin 100) Ei). lra.
Qed.

Lemma hsl_round_trip_witness :
  (exists c,
      hexToHsl "#BD93F9" = Returns c
      /\ hslToHex (h c) (s c) (l c) = Returns (toLowerCase "#BD93F9"))
  /\ darkenColor "#BD93F9" 0%num = Returns (toLowerCase "#BD93F9")
  /\ lightenColor "#BD93F9" 0%num = Returns (toLowerCase "#BD93F9").
Proof. apply (@hsl_round_trip "#BD93F9"). reflexivity. Defined.
End RoundTripFacts.

(** ** The benchmark data *)

Section BenchmarkFacts.
Import JsNum Value Benchmark.
Local Open Scope string_scope.
Local Open Scope Q_scope.

Lemma evaluates_le a b p q :
  evaluates a p -> evaluates b q -> (le a b = true <-> p <= q).
Proof.
  intros Ha Hb. unfold le. rewrite (evaluates_cmp Ha Hb).
  destruct (p ?= q) eqn:C.
  - apply Qeq_alt in C. split; [intros _; lra | reflexivity].
  - apply Qlt_alt in C. split; [intros _; lra | reflexivity].
  - apply Qgt_alt in C. split; [discriminate | intros L; exfalso; lra].
Qed.

(** The loop over device types that are all two units high. *)
Lemma placeFrom_stacked (types : list DeviceType) ports n remaining i cu :
  types = map (fun i => generateDeviceType i ports) (List.seq 0 n) ->
  (i + remaining <= n)%nat ->
  evaluates cu (inject_Z (2 * Z.of_nat i + 1)) ->
  exists ds,
    placeFrom 42%num types remaining i cu = Ok ds
    /\ List.length ds = Nat.min remaining (21 - i)
    /\ forall k pd,
        nth_error ds k = Some pd ->
        evaluates (position pd) (inject_Z (2 * Z.of_nat (i + k) + 1))
        /\ device_type pd = slug (generateDeviceType (i + k) ports)
        /\ id pd = "placed-" ++ decimal (i + k).
Proof.
  intros Et. revert i cu.
  induction remaining as [|rem IH]; intros i cu Hi Hcu.
  - exists []. split; [reflexivity|]. split; [reflexivity|].
    intros k pd Hk. destruct k; discriminate Hk.
  - cbn [placeFrom].
    assert (E41 : evaluates (42 - 1)%num 41) by (split; reflexivity).
    destruct (le cu (42 - 1)%num) eqn:Le.
    + apply (evaluates_le Hcu E41) in Le.
      assert (I20 : (i <= 20)%nat).
      { change 41 with (inject_Z 41) in Le. rewrite <- Zle_Qle in Le. lia. }
      assert (Len : List.length types = n).
      { rewrite Et, length_map, length_seq. reflexivity. }
      rewrite Len, Nat.mod_small by lia.
      assert (Nth : nth_error types i = Some (generateDeviceType i ports)).
      { rewrite Et, nth_error_map, nth_error_seq.
        destruct (Nat.ltb_spec i n) as [L | G]; [reflexivity | lia]. }
      rewrite Nth. cbn [u_height generateDeviceType].
      assert (Hcu' : evaluates (cu + 2)%num (inject_Z (2 * Z.of_nat (S i) + 1))).
      { eapply evaluates_eq; [apply (evaluates_add Hcu (evaluates_Fin 2))|].
        rewrite Nat2Z.inj_succ. unfold Z.succ.
        rewrite !inject_Z_plus, !inject_Z_mult, inject_Z_plus. ring. }
      destruct (IH (S i) (cu + 2)%num) as (ds & E & L & P); [lia | exact Hcu' |].
      rewrite E. eexists. split; [reflexivity|]. split.
      * cbn [List.length]. rewrite L. lia.
      * intros [|k] pd Hk; cbn [nth_error] in Hk.
        -- injection Hk as <-. cbn [position device_type id].
           rewrite Nat.add_0_r. split; [exact Hcu|]. split; reflexivity.
        -- destruct (P k pd Hk) as (A & B & C).
           replace (i + S k)%nat with (S i + k)%nat by lia.
           split; [exact A|]. split; [exact B | exact C].
    + assert (I21 : (21 <= i)%nat).
      { destruct (Nat.le_gt_cases 21 i) as [L | G]; [exact L|].
        assert (K : le cu (42 - 1)%num = true).
        { apply (evaluates_le Hcu E41). change 41 with (inject_Z 41).
          rewrite <- Zle_Qle. lia. }
        congruence. }
      exists []. split; [reflexivity|]. split; [cbn [List.length]; lia|].
      intros k pd Hk. destruct k; discriminate Hk.
Qed.

(** X24.  [generateTestRack] returns as many device types as
    asked for and that many placed devices, up to 21.  The k-th placed
    device has the slug of the k-th device type, which is two units
    high, and sits at unit 2k + 1; its top unit is within the 42 units
    of the rack.  So the devices are stacked without gap or overlap. *)
Theorem generateTestRack_devices deviceCount portsPerDevice :
  exists rack deviceTypes,
    generateTestRack deviceCount portsPerDevice = Ok (rack, deviceTypes)
    /\ List.length deviceTypes = deviceCount
    /\ List.length (devices rack) = Nat.min deviceCount 21
    /\ forall k placed,
        nth_error (devices rack) k = Some placed ->
        exists deviceType,
          nth_error deviceTypes k = Some deviceType
          /\ device_type placed = slug deviceType
          /\ u_height deviceType = 2%num
          /\ evaluates (position placed) (inject_Z (2 * Z.of_nat k + 1))
          /\ inject_Z (2 * Z.of_nat k + 1) + 2 - 1 <= 42.
Proof.
  unfold generateTestRack, generatePlacedDevices.
  destruct (@placeFrom_stacked
              (map (fun i => generateDeviceType i portsPerDevice)
                   (List.seq 0 deviceCount))
              portsPerDevice deviceCount deviceCount 0 1%num eq_refl)
    as (ds & E & L & P); [lia | split; reflexivity |].
  rewrite E. do 2 eexists. split; [reflexivity|].
  split; [rewrite length_map, length_seq; reflexivity|].
  cbn [devices]. split; [rewrite L; lia|].
  intros k placed Hk.
  assert (Hlen : (k < Nat.min deviceCount 21)%nat).
  { replace (21 - 0)%nat with 21%nat in L by reflexivity.
    rewrite <- L. apply nth_error_Some. congruence. }
  destruct (P k placed Hk) as (A & B & _). cbn [Nat.add] in A, B.
  exists (generateDeviceType k portsPerDevice).
  split.
  { rewrite nth_error_map, nth_error_seq.
    destruct (Nat.ltb_spec k deviceCount) as [Lt | G]; [reflexivity | lia]. }
  split; [exact B|]. split; [reflexivity|]. split; [exact A|].
  assert (K : (2 * Z.of_nat k + 1 + 2 - 1 <= 42)%Z) by lia.
  rewrite Zle_Qle in K. unfold Z.sub in K.
  rewrite !inject_Z_plus, inject_Z_opp in K. rewrite inject_Z_plus.
  unfold inject_Z at 2 3 4 5 in K. unfold inject_Z at 2. lra.
Qed.
End BenchmarkFacts.
